(** * Unibet page text to Boss-shaped rows: a model of [streamlit_app.py]

    The development follows the source top-down: Python strings and the
    few [re] patterns the program uses, the line scanner ([_lines],
    [_is_boundary], [_parse_block], [parse_unibet], [detect_teams]), the
    Boss helpers ([_norm_key], [find_col], [build_template_map],
    [replicate_from_template]) and the two button handlers (Parse and
    Export) as functions over an explicit session state. *)

From Stdlib Require Import NArith String Ascii Lia.
From stdpp Require Import base option list gmap.

Local Open Scope N_scope.

(** ** Python strings

    A Python [str] is a sequence of Unicode code points. *)

Definition char := N.
Definition str := list char.

(** ASCII literals of the source, as code points. *)
Definition u (s : string) : str := map N_of_ascii (list_ascii_of_string s).

(** [str.isspace] on one code point, which is also the [\s] class of [re]
    on [str] patterns: CPython's [_PyUnicode_IsWhitespace]. *)
Definition isspace (c : char) : bool :=
  ((9 <=? c) && (c <=? 13)) || ((28 <=? c) && (c <=? 32))
  || (c =? 133) || (c =? 160) || (c =? 5760)
  || ((8192 <=? c) && (c <=? 8202))
  || (c =? 8232) || (c =? 8233) || (c =? 8239) || (c =? 8287) || (c =? 12288).

Fixpoint lstrip (s : str) : str :=
  match s with
  | c :: s' => if isspace c then lstrip s' else s
  | [] => []
  end.

Definition rstrip (s : str) : str := rev (lstrip (rev s)).

(** [s.strip()] *)
Definition strip (s : str) : str := rstrip (lstrip s).

(** Truth value of a [str]: the empty string is false. *)
Definition truthy (s : str) : bool :=
  match s with [] => false | _ :: _ => true end.

(** Truth value of an [Optional[str]]: [None] and the empty string are false. *)
Definition otruthy (o : option str) : bool :=
  match o with Some s => truthy s | None => false end.

(** [o or ""] *)
Definition or_empty (o : option str) : str :=
  match o with Some s => if truthy s then s else [] | None => [] end.

(** [re.sub(r"\s+", " ", s)]: every maximal run of whitespace becomes one
    space.  The flag says whether the previous character was whitespace. *)
Fixpoint sub_ws_from (in_run : bool) (s : str) : str :=
  match s with
  | [] => []
  | c :: s' =>
      if isspace c
      then (if in_run then sub_ws_from true s' else 32 :: sub_ws_from true s')
      else c :: sub_ws_from false s'
  end.

Definition sub_ws (s : str) : str := sub_ws_from false s.

(** [s.split()]: the maximal runs of non-whitespace. [w] is the word being
    read, reversed. *)
Fixpoint words_from (w : str) (s : str) : list str :=
  match s with
  | [] => match w with [] => [] | _ => [rev w] end
  | c :: s' =>
      if isspace c
      then match w with [] => words_from [] s' | _ => rev w :: words_from [] s' end
      else words_from (c :: w) s'
  end.

Definition words (s : str) : list str := words_from [] s.

(** [sep.join(ws)] *)
Fixpoint join (sep : str) (ws : list str) : str :=
  match ws with
  | [] => []
  | [w] => w
  | w :: ws' => w ++ sep ++ join sep ws'
  end.

(** ** The Unicode tables of the Python runtime

    Three things the program takes from CPython's Unicode database are
    not part of the repository and are too large to write out: the
    decimal digits of [\d], the comparison [re] uses for a literal under
    [re.IGNORECASE], and [str.lower].  They are an interface here.  The
    laws of [str.lower] say that it works word by word: it keeps every
    whitespace character where it is and maps text without whitespace to
    text without whitespace. *)

(** Text without whitespace. *)
Definition ws_free (a : str) : bool := forallb (fun c => negb (isspace c)) a.

Class UnicodeDB := {
  (** [\d] on a [str] pattern: the code points of category Nd. *)
  isdecimal : char -> bool;
  (** [sre_ci c x]: whether the character [x] of the subject matches the
      pattern literal [c] under [re.IGNORECASE] (for a [c] without case,
      whether [x] is [c]). *)
  sre_ci : char -> char -> bool;
  (** [str.lower] *)
  lower : str -> str;
  lower_nil : lower [] = [];
  lower_space : forall a c b,
    isspace c = true -> lower (a ++ c :: b) = lower a ++ c :: lower b;
  lower_word : forall a, ws_free a = true -> ws_free (lower a) = true;
  lower_word_nonempty : forall a, ws_free a = true -> a <> [] -> lower a <> [];
}.

(** *** The tables on Basic Latin

    On U+0000..U+007F the tables are: digits [0-9], letters compared
    after folding [A-Z] to [a-z].  The instance [basic_latin] below treats
    every other code point as a caseless non-digit; it is what the closed
    examples are evaluated with (their inputs are ASCII). *)

Definition ascii_tolower (c : char) : char :=
  if (65 <=? c) && (c <=? 90) then c + 32 else c.

Definition ascii_isdecimal (c : char) : bool := (48 <=? c) && (c <=? 57).

Definition ascii_ci (c x : char) : bool := ascii_tolower x =? ascii_tolower c.

Definition ascii_lower (s : str) : str := map ascii_tolower s.

(** ** The fragment of [re] the program uses

    A backtracking matcher in continuation-passing style.  It tries the
    alternatives in the order of Python's engine (a greedy repetition
    takes one more iteration before it tries to go on, a lazy one tries
    to go on first) and returns the first match found, so that the text
    of the capture group is the one [m.group(1)] returns. *)

Module Re.

Inductive regex :=
| Eps
| Chr (p : char -> bool)      (* one character of a class *)
| Seq (r1 r2 : regex)
| Alt (r1 r2 : regex)         (* r1|r2, r1 first *)
| Star (r : regex)            (* r*, greedy *)
| LazyStar (r : regex)        (* r*? *)
| Group (r : regex)           (* (r): the pattern's capture group *)
| Eos.                        (* $ without re.MULTILINE *)

(** A match object, reduced to what the program reads of it: [group(1)]. *)
Definition mtch := option str.

Fixpoint bt (r : regex) (s : str) (cap : mtch)
    (k : str -> mtch -> option mtch) {struct r} : option mtch :=
  match r with
  | Eps => k s cap
  | Chr p =>
      match s with
      | c :: s' => if p c then k s' cap else None
      | [] => None
      end
  | Seq r1 r2 => bt r1 s cap (fun s' cap' => bt r2 s' cap' k)
  | Alt r1 r2 =>
      match bt r1 s cap k with
      | Some m => Some m
      | None => bt r2 s cap k
      end
  | Star r' =>
      (fix loop (n : nat) (s : str) (cap : mtch) {struct n} : option mtch :=
         match n with
         | O => k s cap
         | S n' =>
             match bt r' s cap (fun s' cap' =>
                     if (length s' <? length s)%nat then loop n' s' cap' else None) with
             | Some m => Some m
             | None => k s cap
             end
         end) (length s) s cap
  | LazyStar r' =>
      (fix loop (n : nat) (s : str) (cap : mtch) {struct n} : option mtch :=
         match k s cap with
         | Some m => Some m
         | None =>
             match n with
             | O => None
             | S n' =>
                 bt r' s cap (fun s' cap' =>
                   if (length s' <? length s)%nat then loop n' s' cap' else None)
             end
         end) (length s) s cap
  | Group r' =>
      bt r' s cap (fun s' _ => k s' (Some (take (length s - length s') s)))
  | Eos =>
      match s with
      | [] => k s cap
      | [10] => k s cap
      | _ => None
      end
  end.

(** [pattern.match(s)]: anchored at the start of [s]. *)
Definition rmatch (r : regex) (s : str) : option mtch :=
  bt r s None (fun _ cap => Some cap).

Definition matches (r : regex) (s : str) : bool :=
  match rmatch r s with Some _ => true | None => false end.

(** [m.group(1)] *)
Definition group1 (m : mtch) : str := default [] m.

Fixpoint seq (rs : list regex) : regex :=
  match rs with
  | [] => Eps
  | [r] => r
  | r :: rs' => Seq r (seq rs')
  end.

Definition plus (r : regex) : regex := Seq r (Star r).
Definition opt (r : regex) : regex := Alt r Eps.

(** [\s*], [\s+], [.] *)
Definition ws0 : regex := Star (Chr isspace).
Definition ws1 : regex := plus (Chr isspace).
Definition dot : regex := Chr (fun c => negb (c =? 10)).

Section Patterns.
Context `{UnicodeDB}.

(** A literal word under [re.IGNORECASE]. *)
Definition ilit (w : string) : regex := seq (map (fun c => Chr (sre_ci c)) (u w)).

(** [[–—-]]: en dash, em dash or hyphen.  No character of the class
    has case, so [re.IGNORECASE] leaves it as it is. *)
Definition dash : regex :=
  Chr (fun x => (x =? 8211) || (x =? 8212) || (x =? 45)).

Definition digits1 : regex := plus (Chr isdecimal).
End Patterns.

End Re.

(** ** Unibet parsing *)

Section Scanner.
Context `{UnicodeDB}.
Import Re.

(** [^\s*Player\s+of\s+the\s+Match\s*$], [re.IGNORECASE] *)
Definition RE_PLAYER_OF_MATCH : regex :=
  seq [ws0; ilit "Player"; ws1; ilit "of"; ws1; ilit "the"; ws1; ilit "Match";
       ws0; Eos].

(** [^\s*Top\s+Bowler\s*[–—-]\s*(.*?)\s*[–—-]\s*1st\s*Innings\s*$] *)
Definition RE_TOP_BOWLER_TEAM : regex :=
  seq [ws0; ilit "Top"; ws1; ilit "Bowler"; ws0; dash; ws0;
       Group (LazyStar dot);
       ws0; dash; ws0; ilit "1st"; ws0; ilit "Innings"; ws0; Eos].

(** [^\s*Top\s+Run\s*Scorer\s*[–—-]\s*(.*?)\s*[–—-]\s*1st\s*Innings\s*$] *)
Definition RE_TOP_RUNSCORER_TEAM : regex :=
  seq [ws0; ilit "Top"; ws1; ilit "Run"; ws0; ilit "Scorer"; ws0; dash; ws0;
       Group (LazyStar dot);
       ws0; dash; ws0; ilit "1st"; ws0; ilit "Innings"; ws0; Eos].

(** [^\d+(?:\.\d+)?$] *)
Definition RE_DECIMAL : regex :=
  seq [digits1; opt (Seq (Chr (N.eqb 46)) digits1); Eos].

Definition STOP_WORDS : list str :=
  map u
    ["view less"; "view more"; "odds format"; "help"; "safer gambling";
     "about us"; "apps"; "blog"; "fair gaming policy"; "unibet community";
     "all sports"; "home"; "in-play"; "explore"; "favourites";
     "search sports, leagues or teams"; "toss winner";
     "winner (incl. super over)"; "match"; "over"; "dismissal"; "sports";
     "casino"; "live casino"; "bingo"; "poker"; "top run scorer";
     "top bowler"]%string.

(** [text.replace("\r\n", "\n")] *)
Fixpoint replace_crlf (s : str) : str :=
  match s with
  | [] => []
  | c :: s' =>
      match s' with
      | d :: s'' =>
          if (c =? 13) && (d =? 10) then 10 :: replace_crlf s''
          else c :: replace_crlf s'
      | [] => [c]
      end
  end.

(** [text.replace("\r", "\n")] *)
Definition replace_cr (s : str) : str :=
  map (fun c => if c =? 13 then 10 else c) s.

(** [text.split("\n")]; [cur] is the piece being read, reversed. *)
Fixpoint split_nl (cur : str) (s : str) : list str :=
  match s with
  | [] => [rev cur]
  | c :: s' =>
      if c =? 10 then rev cur :: split_nl [] s' else split_nl (c :: cur) s'
  end.

Definition _lines (text : str) : list str :=
  map strip
    (List.filter (fun ln => truthy (strip ln))
       (split_nl [] (replace_cr (replace_crlf text)))).

Definition _is_heading (line : str) : bool :=
  matches RE_PLAYER_OF_MATCH line
  || matches RE_TOP_BOWLER_TEAM line
  || matches RE_TOP_RUNSCORER_TEAM line.

Definition _is_boundary (line : str) : bool :=
  let low := lower line in
  _is_heading line || bool_decide (low ∈ STOP_WORDS).

(** One row of the parsed frame: the dict [_parse_block] appends. *)
Record selection := Selection {
  Market : str;
  Team : str;
  SelectionName : str;
  SelectionOdds : str;
}.

(** The body of the [while] loop of [_parse_block] at a line [s] that
    is not a boundary, on the loop's variables [rows] and [pending]. *)
Definition block_step (market : str) (team : option str)
    (st : list selection * option str) (s : str)
    : list selection * option str :=
  let '(rows, pending) := st in
  if matches RE_DECIMAL s then
    if otruthy pending then
      (rows ++ [Selection market (or_empty team) (default [] pending) s], None)
    else (rows, pending)
  else (rows, Some s).

(** The [while j < len(lines)] loop of [_parse_block], over the lines
    from [j] on: [ls] is [lines[j:]]. *)
Fixpoint block_loop (market : str) (team : option str)
    (ls : list str) (j : nat) (st : list selection * option str)
    : list selection * nat :=
  match ls with
  | [] => (st.1, j)
  | l :: ls' =>
      let s := strip l in
      if _is_boundary s then (st.1, j)
      else block_loop market team ls' (S j) (block_step market team st s)
  end.

Definition _parse_block (lines : list str) (start : nat) (market : str)
    (team : option str) : list selection * nat :=
  block_loop market team (drop (S start) lines) (S start) ([], None).

Definition PLAYER_OF_THE_MATCH : str := u "Player of the Match".
Definition TOP_BOWLER : str := u "Top Bowler".
Definition TOP_BATTER : str := u "Top Batter".

(** One iteration of the [while i < len(lines)] loop of [parse_unibet]
    at the line [s = lines[i]]: the rows to add and the next [i]. *)
Definition scan_step (lines : list str) (i : nat) (s : str)
    : list selection * nat :=
  if matches RE_PLAYER_OF_MATCH s then
    _parse_block lines i PLAYER_OF_THE_MATCH None
  else
    match rmatch RE_TOP_BOWLER_TEAM s with
    | Some m => _parse_block lines i TOP_BOWLER (Some (strip (group1 m)))
    | None =>
        match rmatch RE_TOP_RUNSCORER_TEAM s with
        | Some m => _parse_block lines i TOP_BATTER (Some (strip (group1 m)))
        | None => ([], S i)
        end
    end.

(** The loop itself; [None] when the fuel runs out before [i] reaches
    [len(lines)]. *)
Fixpoint scan (fuel : nat) (lines : list str) (i : nat) (out : list selection)
    : option (list selection) :=
  match lines !! i with
  | None => Some out
  | Some s =>
      match fuel with
      | O => None
      | S fuel' =>
          let '(r, i') := scan_step lines i s in
          scan fuel' lines i' (out ++ r)
      end
  end.

(** [parse_unibet(text)]: the rows of the returned frame (its columns
    are always Market, Team, SelectionName, SelectionOdds).  The loop
    gets one unit of fuel per line, which is enough ([scan_total]
    below). *)
Definition parse_lines (lines : list str) : list selection :=
  default [] (scan (length lines) lines 0 []).

Definition parse_unibet (text : str) : list selection :=
  parse_lines (_lines text).

(** A line that is read as a candidate name and then kept: not a
    boundary, not a decimal, not blank. *)
Definition is_name_line (l : str) : bool :=
  let s := strip l in
  negb (_is_boundary s) && negb (Re.matches RE_DECIMAL s) && truthy s.

(** A line that is read as odds. *)
Definition is_decimal_line (l : str) : bool :=
  let s := strip l in
  negb (_is_boundary s) && Re.matches RE_DECIMAL s.

(** The lines of [n] (name, decimal) pairs. *)
Definition pair_lines (pairs : list (str * str)) : list str :=
  flat_map (fun p => [p.1; p.2]) pairs.

(** Where the rows of one heading get their market and team from. *)
Definition row_origin (lines : list str) (r : selection) : Prop :=
  (Market r = PLAYER_OF_THE_MATCH /\ Team r = [])
  \/ (exists h m, h ∈ lines /\ Re.rmatch RE_TOP_BOWLER_TEAM h = Some m
                 /\ Market r = TOP_BOWLER /\ Team r = strip (Re.group1 m))
  \/ (exists h m, h ∈ lines /\ Re.rmatch RE_TOP_RUNSCORER_TEAM h = Some m
                 /\ Market r = TOP_BATTER /\ Team r = strip (Re.group1 m)).

(** [sorted] on strings: code points compared lexicographically. *)
Fixpoint str_leb (a b : str) : bool :=
  match a, b with
  | [], _ => true
  | _ :: _, [] => false
  | x :: a', y :: b' => (x <? y) || ((x =? y) && str_leb a' b')
  end.

Fixpoint insert_sorted (x : str) (l : list str) : list str :=
  match l with
  | [] => [x]
  | y :: l' => if str_leb x y then x :: l else y :: insert_sorted x l'
  end.

Definition sorted (l : list str) : list str := foldr insert_sorted [] l.

(** [Series.unique()]: the distinct values in order of first appearance. *)
Definition unique (l : list str) : list str :=
  foldl (fun acc x => if bool_decide (x ∈ acc) then acc else acc ++ [x]) [] l.

(** The placeholder team, an em dash. *)
Definition NO_TEAM : str := [8212].

Definition detect_teams (parsed : list selection) : list str :=
  let order :=
    foldl (fun order r =>
             let t := Team r in
             if truthy t && negb (bool_decide (t ∈ order)) then order ++ [t]
             else order)
      []
      (List.filter (fun r => bool_decide (Market r ∈ [TOP_BOWLER; TOP_BATTER]))
         parsed) in
  let order :=
    if (length order <? 2)%nat then
      let uniq := sorted (List.filter truthy (unique (map Team parsed))) in
      take 2 (uniq ++ [NO_TEAM; NO_TEAM])
    else order in
  take 2 order.

End Scanner.

(** ** Boss helpers

    A Python exception that leaves a function is a [Raise]. *)

Inductive exn := KeyError | ValueError | AttributeError.

Inductive res (A : Type) :=
| Ok (a : A)
| Raise (e : exn).
Arguments Ok {A} a.
Arguments Raise {A} e.

#[export] Instance res_ret : MRet res := fun A a => Ok a.
#[export] Instance res_bind : MBind res := fun A B f m =>
  match m with Ok a => f a | Raise e => Raise e end.

(** A row of a frame, [pd.Series] or [dict]: the values by column name, in
    column order. *)
Definition row := list (str * str).

(** [d.get(k)] *)
Fixpoint dict_get (d : row) (k : str) : option str :=
  match d with
  | [] => None
  | (k', v) :: d' => if bool_decide (k' = k) then Some v else dict_get d' k
  end.

(** [d[k] = v]: an existing key keeps its place, a new one goes last. *)
Fixpoint dict_set (d : row) (k v : str) : row :=
  match d with
  | [] => [(k, v)]
  | (k', v') :: d' =>
      if bool_decide (k' = k) then (k', v) :: d' else (k', v') :: dict_set d' k v
  end.

(** [series.to_dict()] *)
Definition to_dict (r : row) : row :=
  foldl (fun d kv => dict_set d kv.1 kv.2) [] r.

(** A [pd.DataFrame] of strings: its columns, which it has even without
    rows, and its rows. *)
Record frame := Frame {
  columns : list str;
  records : list row;
}.

(** [df.empty]: no rows or no columns. *)
Definition frame_empty (df : frame) : bool :=
  match columns df, records df with
  | _ :: _, _ :: _ => false
  | _, _ => true
  end.

(** [pd.DataFrame(ds)] for a list of dicts with the same keys; the empty
    list gives a frame without columns. *)
Definition DataFrame (ds : list row) : frame :=
  Frame (match ds with [] => [] | d :: _ => map fst d end) ds.

(** [df[col] = values], for as many values as [df] has rows. *)
Definition set_column (df : frame) (col : str) (values : list str) : frame :=
  Frame (if bool_decide (col ∈ columns df) then columns df else columns df ++ [col])
        (zip_with (fun r v => dict_set r col v) (records df) values).

(** [df[col] = v] for one string [v] *)
Definition set_scalar (df : frame) (col : str) (v : str) : frame :=
  Frame (if bool_decide (col ∈ columns df) then columns df else columns df ++ [col])
        (map (fun r => dict_set r col v) (records df)).

(** [df[cols]] for a list of column names: a [KeyError] when one is not a
    column of [df]. *)
Definition select (df : frame) (cols : list str) : res frame :=
  if forallb (fun c => bool_decide (c ∈ columns df)) cols then
    Ok (Frame cols
          (map (fun r => map (fun c => (c, default [] (dict_get r c))) cols)
             (records df)))
  else Raise KeyError.

(** [pd.concat(chunks, ignore_index=True)] for frames with the same
    columns (every chunk of the export is [base[outcols]]). *)
Definition pd_concat (chunks : list frame) : frame :=
  Frame (match chunks with [] => [] | c :: _ => columns c end)
        (concat (map records chunks)).

Section Boss.
Context `{UnicodeDB}.

(** [re.sub(r'[^a-z0-9]', '', s.lower())] *)
Definition _norm_key (s : str) : str :=
  List.filter
    (fun c => ((97 <=? c) && (c <=? 122)) || ((48 <=? c) && (c <=? 57)))
    (lower s).

(** The dict [{_norm_key(c): c for c in df.columns}]: a later column
    replaces an earlier one with the same key. *)
Definition norm_dict (cols : list str) : gmap str str :=
  foldl (fun m c => <[_norm_key c := c]> m) ∅ cols.

Fixpoint first_candidate (norm : gmap str str) (candidates : list str)
    : option str :=
  match candidates with
  | [] => None
  | cand :: rest =>
      match norm !! _norm_key cand with
      | Some c => Some c
      | None => first_candidate norm rest
      end
  end.

Definition find_col (df : frame) (candidates : list str) : option str :=
  first_candidate (norm_dict (columns df)) candidates.

(** [re.sub(r"\s+", " ", str(s or "")).strip().lower()] *)
Definition _norm_space (s : str) : str := lower (strip (sub_ws s)).

Definition build_template_map (boss : frame) (market_name_col : str)
    : gmap str row :=
  foldl (fun m r =>
           let key := _norm_space (default [] (dict_get r market_name_col)) in
           if truthy key && negb (bool_decide (is_Some (m !! key)))
           then <[key := r]> m else m)
    ∅ (records boss).

Definition FIRST_ODDS : list str := map u ["FirstOdds"; "firstodds"; "Firstodds"]%string.
Definition LAST_ODDS : list str := map u ["LastOdds"; "lastodds"; "Lastodds"]%string.
Definition ANY_ODDS : list str := map u ["AnyOdds"; "anyodds"; "Anyodds"]%string.

(** One round of the loop over the three candidate lists. *)
Definition blank_odds (base : frame) (cset : list str) : frame :=
  match find_col base cset with
  | Some col => if truthy col then set_scalar base col [] else base
  | None => base
  end.

Definition replicate_from_template (template : row)
    (selections : list selection) (outcols : list str)
    (sel_name_col sel_odds_col : str) : res frame :=
  let base := DataFrame (replicate (length selections) (to_dict template)) in
  let base := set_column base sel_name_col (map SelectionName selections) in
  let base := set_column base sel_odds_col (map SelectionOdds selections) in
  let base := foldl blank_odds base [FIRST_ODDS; LAST_ODDS; ANY_ODDS] in
  select base outcols.

(** The value of column [c] in a row ([""] when the row has no such
    column). *)
Definition cell (r : row) (c : str) : str := default [] (dict_get r c).

(** The first row of a table, in table order, whose market name
    normalizes to [k]. *)
Definition first_row (rows : list row) (market_name_col k : str) : option row :=
  List.find (fun r => bool_decide (_norm_space (cell r market_name_col) = k)) rows.

(** Two names that differ only in the case of their letters and in their
    whitespace: the same words once lowercased. *)
Definition same_name (a b : str) : Prop :=
  map lower (words a) = map lower (words b).

(** The column a frame with columns [cols] resolves for a candidate list,
    as [blank_odds] uses it. *)
Definition resolved (cols : list str) (cset : list str) : option str :=
  match first_candidate (norm_dict cols) cset with
  | Some col => if truthy col then Some col else None
  | None => None
  end.

(** The frame before the odds columns are blanked: the template's dict
    once per selection, with the two selection columns set. *)
Definition base_frame (template : row) (selections : list selection)
    (sel_name_col sel_odds_col : str) : frame :=
  set_column
    (set_column (DataFrame (replicate (length selections) (to_dict template)))
       sel_name_col (map SelectionName selections))
    sel_odds_col (map SelectionOdds selections).

(** A row with the columns [cols] set to the empty string. *)
Definition blank_row (cols : list str) (r : row) : row :=
  foldl (fun r col => dict_set r col []) r cols.

(** The columns blanked in a frame with columns [cols]. *)
Definition odds_columns (cols : list str) : list str :=
  omap (resolved cols) [FIRST_ODDS; LAST_ODDS; ANY_ODDS].

End Boss.

(** ** The session and the two actions

    [STATE] is the dict kept in [st.session_state]; its seven entries
    start as [None] and are only ever written together, by the
    [STATE.update] of a successful Parse. *)

Record STATE := State {
  boss : option frame;
  parsed : option (list selection);
  tmap : option (gmap str row);
  outcols : option (list str);
  sel_name_col : option str;
  sel_odds_col : option str;
  market_name_col : option str;
}.

Definition STATE0 : STATE := State None None None None None None None.

(** What an action reports: [st.error] or [st.success]. *)
Inductive message :=
| st_error (text : str)
| st_success (text : str).

Section Actions.
Context `{UnicodeDB}.

(** The candidate lists of the three columns Parse needs. *)
Definition MARKET_NAME_COLS : list str := map u ["MarketName"; "marketname"]%string.
Definition SELECTION_NAME_COLS : list str :=
  map u ["SelectionName"; "selectionname"; "Selection"; "Runner"; "Name"]%string.
Definition SELECTION_ODDS_COLS : list str :=
  map u ["SelectionOdds"; "selectionodds"; "Odds"; "Price"; "DecimalOdds"]%string.

Definition MSG_NO_UPLOAD : str := u "Upload a Boss export first.".
Definition MSG_EMPTY_UPLOAD : str := u "Uploaded Boss file is empty or unsupported.".
Definition MSG_COLUMNS : str :=
  u "Boss file must contain columns for MarketName, SelectionName and SelectionOdds.".
Definition MSG_NOTHING_PARSED : str := u "No selections parsed from Unibet text.".
Definition MSG_PARSE_FIRST : str := u "Click Parse first.".

(** The [if parse_click:] block.  [boss_file] is the upload as
    [read_boss_from_upload] decodes it ([None]: nothing uploaded). *)
Definition parse_click (boss_file : option frame) (unibet_text : str)
    (state : STATE) : STATE * message :=
  match boss_file with
  | None => (state, st_error MSG_NO_UPLOAD)
  | Some boss =>
      if frame_empty boss then (state, st_error MSG_EMPTY_UPLOAD)
      else
        let market_name_col := find_col boss MARKET_NAME_COLS in
        let sel_name_col := find_col boss SELECTION_NAME_COLS in
        let sel_odds_col := find_col boss SELECTION_ODDS_COLS in
        if negb (otruthy market_name_col) || negb (otruthy sel_name_col)
           || negb (otruthy sel_odds_col)
        then (state, st_error MSG_COLUMNS)
        else
          let parsed := parse_unibet unibet_text in
          match parsed with
          | [] => (state, st_error MSG_NOTHING_PARSED)
          | _ :: _ =>
              (State (Some boss) (Some parsed)
                 (Some (build_template_map boss (default [] market_name_col)))
                 (Some (columns boss)) sel_name_col sel_odds_col market_name_col,
               st_success
                 (u "Parsed. Using columns: " ++ default [] sel_name_col ++ u " / "
                  ++ default [] sel_odds_col ++ u ". Ready to Export."))
          end
  end.

(** [tpl_by_name]: [tmap.get(re.sub(r"\s+", " ", name.strip().lower()))] *)
Definition tpl_by_name (tmap : gmap str row) (name : str) : option row :=
  tmap !! sub_ws (lower (strip name)).

(** [a or b] on two [Optional[pd.Series]]: Python asks [a] for its truth
    value.  [None] is false, and the value is [b]; a [pd.Series] has no
    truth value ([Series.__bool__] raises [ValueError]). *)
Definition series_or (a b : option row) : res (option row) :=
  match a with
  | None => Ok b
  | Some _ => Raise ValueError
  end.

(** One replication pass: rows when there is a template row and a
    selection, a note otherwise. *)
Definition pass (tpl : option row) (sel : list selection) (note : str)
    (outcols : list str) (sel_name_col sel_odds_col : str)
    (acc : list frame * list str) : res (list frame * list str) :=
  match tpl, sel with
  | Some t, _ :: _ =>
      chunk ← replicate_from_template t sel outcols sel_name_col sel_odds_col;
      Ok (acc.1 ++ [chunk], acc.2)
  | _, _ => Ok (acc.1, acc.2 ++ [note])
  end.

Definition note_potm : str :=
  u "Player of the Match: missing template row or no selections.".
Definition note_bowler (team : str) : str :=
  u "Top Bowler " ++ [8212] ++ u " " ++ team ++ u ": no template row or no selections.".
Definition note_batter (team : str) : str :=
  u "Top Batter " ++ [8212] ++ u " " ++ team ++ u ": no template row or no selections.".

(** The body of [for team in teams], on [chunks] and [notes].  The
    three lines that first compute [tbat_tpl] (an [if ... is None] whose
    indentation is off in the file) are read as the [if] they spell;
    their value is replaced before it is used. *)
Definition team_body (parsed : list selection) (tmap : gmap str row)
    (outcols : list str) (sel_name_col sel_odds_col : str) (team : str)
    (acc : list frame * list str) : res (list frame * list str) :=
  if negb (truthy team) then Ok acc
  else
    let tb_sel :=
      List.filter (fun r => bool_decide (Market r = TOP_BOWLER)
                            && bool_decide (Team r = team)) parsed in
    let tb_tpl :=
      match tpl_by_name tmap (team ++ u " Top Bowler") with
      | Some t => Some t
      | None => tpl_by_name tmap (u "Top Bowler - " ++ team ++ u " - 1st Innings")
      end in
    let tbat_tpl :=
      match tpl_by_name tmap (team ++ u " Top Batter") with
      | Some t => Some t
      | None => tpl_by_name tmap (u "Top Batter - " ++ team ++ u " - 1st Innings")
      end in
    acc ← pass tb_tpl tb_sel (note_bowler team) outcols sel_name_col sel_odds_col acc;
    let tbat_sel :=
      List.filter (fun r => bool_decide (Market r = TOP_BATTER)
                            && bool_decide (Team r = team)) parsed in
    tbat_tpl ← series_or (tpl_by_name tmap (team ++ u " Top Batter"))
                 (tpl_by_name tmap (u "Top Batter - " ++ team ++ u " - 1st Innings"));
    pass tbat_tpl tbat_sel (note_batter team) outcols sel_name_col sel_odds_col acc.

Fixpoint team_loop (parsed : list selection) (tmap : gmap str row)
    (outcols : list str) (sel_name_col sel_odds_col : str)
    (teams : list str) (acc : list frame * list str)
    : res (list frame * list str) :=
  match teams with
  | [] => Ok acc
  | team :: teams' =>
      acc ← team_body parsed tmap outcols sel_name_col sel_odds_col team acc;
      team_loop parsed tmap outcols sel_name_col sel_odds_col teams' acc
  end.

(** What Export ends with: an error message, or the frame offered for
    download and the notes. *)
Inductive export_result :=
| export_error (text : str)
| export_built (out_df : frame) (notes : list str).

(** The end of the export, [if not chunks: ... else: ...]: an error with
    the notes, or the concatenated frame. *)
Definition export_end (chunks : list frame) (notes : list str) : export_result :=
  match chunks with
  | [] =>
      export_error
        (u "No output built."
         ++ (match notes with [] => [] | _ :: _ => u " " ++ join (u "; ") notes end))
  | _ :: _ => export_built (pd_concat chunks) notes
  end.

(** The [if export_click:] block.  An entry of [STATE] other than
    [boss] and [parsed] is [None] only in a state no Parse has written,
    where the first use of [tmap] fails. *)
Definition export_click (state : STATE) : res export_result :=
  match boss state, parsed state with
  | Some _, Some parsed =>
      match tmap state, outcols state, sel_name_col state, sel_odds_col state with
      | Some tmap, Some outcols, Some sel_name_col, Some sel_odds_col =>
          let potm_sel :=
            List.filter (fun r => bool_decide (Market r = PLAYER_OF_THE_MATCH)) parsed in
          let potm_tpl := tpl_by_name tmap (u "Player of the Match") in
          acc ← pass potm_tpl potm_sel note_potm outcols sel_name_col sel_odds_col ([], []);
          let teams := detect_teams parsed in
          acc ← team_loop parsed tmap outcols sel_name_col sel_odds_col teams acc;
          Ok (export_end acc.1 acc.2)
      | _, _, _, _ => Raise AttributeError
      end
  | _, _ => Ok (export_error MSG_PARSE_FIRST)
  end.

(** *** The passes of an export, as a list

    What the export does when no [or] meets a found row: the Player of
    the Match pass, then for each team with a name its Top Bowler and its
    Top Batter pass, each a template row, its selections and its note. *)

Definition export_pass : Type := option row * list selection * str.

Definition pass_succeeds (p : export_pass) : bool :=
  match p.1.1, p.1.2 with
  | Some _, _ :: _ => true
  | _, _ => false
  end.

Definition potm_pass (parsed : list selection) (tmap : gmap str row) : export_pass :=
  (tpl_by_name tmap (u "Player of the Match"),
   List.filter (fun r => bool_decide (Market r = PLAYER_OF_THE_MATCH)) parsed,
   note_potm).

Definition team_passes (parsed : list selection) (tmap : gmap str row)
    (team : str) : list export_pass :=
  [(match tpl_by_name tmap (team ++ u " Top Bowler") with
    | Some t => Some t
    | None => tpl_by_name tmap (u "Top Bowler - " ++ team ++ u " - 1st Innings")
    end,
    List.filter (fun r => bool_decide (Market r = TOP_BOWLER)
                          && bool_decide (Team r = team)) parsed,
    note_bowler team);
   (tpl_by_name tmap (u "Top Batter - " ++ team ++ u " - 1st Innings"),
    List.filter (fun r => bool_decide (Market r = TOP_BATTER)
                          && bool_decide (Team r = team)) parsed,
    note_batter team)].

Definition export_passes (parsed : list selection) (tmap : gmap str row)
    : list export_pass :=
  potm_pass parsed tmap
  :: flat_map (team_passes parsed tmap) (List.filter truthy (detect_teams parsed)).

Fixpoint run_passes (outcols : list str) (sel_name_col sel_odds_col : str)
    (passes : list export_pass) (acc : list frame * list str)
    : res (list frame * list str) :=
  match passes with
  | [] => Ok acc
  | p :: passes' =>
      acc ← pass p.1.1 p.1.2 p.2 outcols sel_name_col sel_odds_col acc;
      run_passes outcols sel_name_col sel_odds_col passes' acc
  end.

(** A table as [pd.read_csv] gives it: distinct column names, and every
    row with exactly these columns. *)
Definition frame_wf (df : frame) : Prop :=
  NoDup (columns df) /\ Forall (fun r => map fst r = columns df) (records df).

End Actions.

(** ** Sample inputs

    The texts and tables the closed examples are evaluated on. *)

Definition nl : str := [10].

(** The first end-to-end scenario of the specification, up to a stop
    phrase. *)
Definition potm_lines : list str :=
  map u ["Player of the Match"; "Virat Kohli"; "2.5"; "Joe Root"; "3.0"; "view more"]%string.

Definition potm_text : str :=
  u "Player of the Match" ++ nl ++ u "Virat Kohli" ++ nl ++ u "2.5" ++ nl
  ++ u "Joe Root" ++ nl ++ u "3.0".

(** A Top Bowler heading with nothing between its dashes. *)
Definition blank_team_text : str :=
  u "Top Bowler -- 1st Innings" ++ nl ++ u "Jasprit Bumrah" ++ nl ++ u "3.5".

Definition mkrow (cells : list (string * string)) : row :=
  map (fun kv => (u kv.1, u kv.2)) cells.

Definition boss_columns : list str :=
  map u ["MarketID"; "MarketName"; "SelectionName"; "SelectionOdds"; "FirstOdds"]%string.

Definition boss_row (id market : string) : row :=
  mkrow [("MarketID", id); ("MarketName", market); ("SelectionName", "x");
         ("SelectionOdds", "1"); ("FirstOdds", "7")]%string.

(** The template row of the specification's end-to-end scenario. *)
Definition potm_template : row := boss_row "101" "Player of the Match".

Definition potm_selections : list selection :=
  [Selection PLAYER_OF_THE_MATCH [] (u "Virat Kohli") (u "2.5");
   Selection PLAYER_OF_THE_MATCH [] (u "Joe Root") (u "3.0")].

(** A Boss table with one row per market, the per-team markets of India
    under both naming forms. *)
Definition sample_boss : frame :=
  Frame boss_columns
    [boss_row "101" "Player of the Match";
     boss_row "102" "India Top Bowler";
     boss_row "103" "Top Bowler - India - 1st Innings";
     boss_row "104" "Top Batter - India - 1st Innings"].

(** A Boss table whose first row has a blank market name. *)
Definition blank_market_boss : frame :=
  Frame boss_columns [boss_row "100" ""; boss_row "101" "Player of the Match"].

(** A template row with two columns whose names normalize to
    [firstodds]. *)
Definition two_first_odds_columns : list str :=
  map u ["MarketName"; "SelectionName"; "SelectionOdds"; "FirstOdds"; "firstodds"]%string.

Definition two_first_odds_template : row :=
  mkrow [("MarketName", "Player of the Match"); ("SelectionName", "x");
         ("SelectionOdds", "1"); ("FirstOdds", "7"); ("firstodds", "8")]%string.

(** A Boss table that names the Top Batter market of India in the first
    form. *)
Definition batter_boss : frame :=
  Frame boss_columns
    [boss_row "101" "Player of the Match"; boss_row "105" "India Top Batter"].

Definition batter_text : str :=
  u "Top Run Scorer - India - 1st Innings" ++ nl ++ u "Rohit Sharma" ++ nl ++ u "4.5".

(** A text with the three markets, the per-team ones for India. *)
Definition match_text : str :=
  potm_text ++ nl
  ++ u "Top Bowler - India - 1st Innings" ++ nl ++ u "Jasprit Bumrah" ++ nl ++ u "3.5" ++ nl
  ++ u "Top Run Scorer - India - 1st Innings" ++ nl ++ u "Rohit Sharma" ++ nl ++ u "4.5".

(** [sample_boss] with a row that names the Top Batter market of India in
    the first form as well. *)
Definition both_forms_boss : frame :=
  Frame boss_columns
    [boss_row "101" "Player of the Match";
     boss_row "102" "India Top Bowler";
     boss_row "103" "Top Bowler - India - 1st Innings";
     boss_row "105" "India Top Batter";
     boss_row "104" "Top Batter - India - 1st Innings"].

(** ** Vocabulary of the further properties *)

(** The pieces of a text between its carriage returns and line feeds,
    each of the two characters read as a separator of its own; [cur] is
    the piece being read, reversed. *)
Fixpoint split_any (cur : str) (s : str) : list str :=
  match s with
  | [] => [rev cur]
  | c :: s' =>
      if (c =? 10) || (c =? 13) then rev cur :: split_any [] s'
      else split_any (c :: cur) s'
  end.

(** A piece of text that is not blank. *)
Definition nonblank (ln : str) : bool := truthy (strip ln).

Section ScannerVocabulary.
Context `{UnicodeDB}.

(** The row [r] is made of the lines at [k] and [k + 1], a name line and
    the decimal line after it. *)
Definition row_at (lines : list str) (k : nat) (r : selection) : Prop :=
  exists l1 l2,
    lines !! k = Some l1 /\ lines !! S k = Some l2
    /\ SelectionName r = strip l1 /\ SelectionOdds r = strip l2
    /\ is_name_line l1 = true /\ is_decimal_line l2 = true.

(** The rows are made, in order, of pairs of adjacent lines that lie
    between the indices [lo] and [hi] and do not overlap. *)
Fixpoint pairs_in (lines : list str) (lo hi : nat) (rows : list selection) : Prop :=
  match rows with
  | [] => (lo <= hi)%nat
  | r :: rows' =>
      exists k, (lo <= k)%nat /\ row_at lines k r /\ pairs_in lines (S (S k)) hi rows'
  end.

(** The invariant of the loop of [_parse_block] at index [j]: the rows so
    far lie below [j], below [j - 1] while a name is pending, and a
    pending name is the line at [j - 1]. *)
Definition block_inv (lines : list str) (lo j : nat)
    (st : list selection * option str) : Prop :=
  if otruthy st.2 then
    exists k l, j = S k /\ lines !! k = Some l /\ st.2 = Some (strip l)
                /\ is_name_line l = true /\ pairs_in lines lo k st.1
  else pairs_in lines lo j st.1.

(** The loop of [parse_unibet] from [i] with [out] ends with [res]. *)
Definition scans (lines : list str) (i : nat) (out res : list selection) : Prop :=
  exists fuel, scan fuel lines i out = Some res.

End ScannerVocabulary.

(** A text with no heading: what a page shows above the markets. *)
Definition preamble_text : str :=
  u "Home" ++ nl ++ u "Cricket" ++ nl ++ u "India v England" ++ nl ++ u "1.85".

(** The per-team blocks of India. *)
Definition innings_text : str :=
  u "Top Bowler - India - 1st Innings" ++ nl ++ u "Jasprit Bumrah" ++ nl ++ u "3.5" ++ nl
  ++ u "Top Run Scorer - India - 1st Innings" ++ nl ++ u "Rohit Sharma" ++ nl ++ u "4.5".


(** The body of the first loop of [detect_teams]: a team that is not
    empty and not yet in [order] is appended. *)
Definition note_team (order : list str) (r : selection) : list str :=
  let t := Team r in
  if truthy t && negb (bool_decide (t ∈ order)) then order ++ [t] else order.

(** A row of one of the two per-team markets. *)
Definition per_team (r : selection) : bool :=
  bool_decide (Market r ∈ [TOP_BOWLER; TOP_BATTER]).

Section DecimalVocabulary.
Context `{UnicodeDB}.

(** One or more decimal digits. *)
Definition digits (ds : str) : Prop :=
  ds <> [] /\ Forall (fun c => isdecimal c = true) ds.

(** Digits, then optionally a full stop and digits, then optionally one
    line feed (the [$] of [re] also matches before a final line feed). *)
Definition decimal_text (s : str) : Prop :=
  exists ds frac tail,
    s = ds ++ frac ++ tail
    /\ digits ds
    /\ (frac = [] \/ exists fs, frac = 46 :: fs /\ digits fs)
    /\ (tail = [] \/ tail = [10]).

End DecimalVocabulary.

(** [r*] for a one-character class [p], greedy: the longest run first,
    then shorter ones. *)
Fixpoint star_chr (p : char -> bool) (s : str) (cap : Re.mtch)
    (k : str -> Re.mtch -> option Re.mtch) : option Re.mtch :=
  match s with
  | c :: s' =>
      if p c then
        match star_chr p s' cap k with
        | Some m => Some m
        | None => k s cap
        end
      else k s cap
  | [] => k s cap
  end.

Section BossVocabulary.
Context `{UnicodeDB}.

(** The normalized names of the columns [unique_markets] keeps. *)
Definition SUBSET_KEYS : list str :=
  map u ["marketid"; "marketname"; "markettypeid"; "markettypename"; "startdate";
         "suspenddate"; "startsuspensiondate"]%string.

(** [df.drop_duplicates()] on the rows: of equal rows the first stays. *)
Definition drop_duplicates (rs : list row) : list row :=
  foldl (fun acc r => if bool_decide (r ∈ acc) then acc else acc ++ [r]) [] rs.

(** [unique_markets(df)]; the index that [reset_index(drop=True)]
    renumbers is not part of a [frame]. *)
Definition unique_markets (df : frame) : res frame :=
  let keep :=
    List.filter (fun c => bool_decide (_norm_key c ∈ SUBSET_KEYS)) (columns df) in
  match keep with
  | [] => Ok (Frame [] [])
  | _ :: _ =>
      kept ← select df keep;
      Ok (Frame (columns kept) (drop_duplicates (records kept)))
  end.

(** The columns the replicator can select from: those of the frame it
    builds, which without a selection has no template column. *)
Definition known_column (template : row) (selections : list selection)
    (sel_name_col sel_odds_col : str) (c : str) : Prop :=
  match selections with
  | [] => c = sel_name_col \/ c = sel_odds_col
  | _ :: _ => c ∈ map fst template \/ c = sel_name_col \/ c = sel_odds_col
  end.

End BossVocabulary.

Section ActionVocabulary.
Context `{UnicodeDB}.

(** The session state after a sequence of Parse clicks, each with its
    upload and its text, from the initial state. *)
Definition session (inputs : list (option frame * str)) : STATE :=
  foldl (fun st inp => (parse_click inp.1 inp.2 st).1) STATE0 inputs.

(** The state the [STATE.update] of a Parse writes for a table, the rows
    parsed from the text and the three columns found. *)
Definition parsed_state (table : frame) (rows : list selection)
    (mc sn so : str) : STATE :=
  State (Some table) (Some rows) (Some (build_template_map table mc))
    (Some (columns table)) (Some sn) (Some so) (Some mc).

(** A Parse click that reports an error, whatever the state. *)
Definition parse_fails (inp : option frame * str) : Prop :=
  exists msg, forall st, parse_click inp.1 inp.2 st = (st, st_error msg).

(** The index has a row under the first-form Top Batter name of the
    team. *)
Definition first_form_batter (index : gmap str row) (team : str) : Prop :=
  is_Some (tpl_by_name index (team ++ u " Top Batter")).

End ActionVocabulary.
(** * The tables on Basic Latin *)

Lemma ascii_tolower_space c : isspace (ascii_tolower c) = isspace c.
Proof.
  unfold ascii_tolower.
  destruct (N.leb_spec 65 c); simpl; [|done].
  destruct (N.leb_spec c 90); simpl; [|done].
  unfold isspace.
  repeat match goal with
         | |- context [?a <=? ?b] => destruct (N.leb_spec a b); try lia
         | |- context [?a =? ?b] => destruct (N.eqb_spec a b); try lia
         end; reflexivity.
Qed.

Lemma ascii_lower_space a c b :
  isspace c = true -> ascii_lower (a ++ c :: b) = ascii_lower a ++ c :: ascii_lower b.
Proof.
  intros Hc. unfold ascii_lower. rewrite List.map_app. simpl.
  f_equal. f_equal. unfold ascii_tolower.
  destruct (N.leb_spec 65 c); simpl; [|done].
  destruct (N.leb_spec c 90); simpl; [|done].
  revert Hc. unfold isspace.
  repeat match goal with
         | |- context [?a <=? ?b] => destruct (N.leb_spec a b); try lia
         | |- context [?a =? ?b] => destruct (N.eqb_spec a b); try lia
         end; discriminate.
Qed.

Lemma ascii_lower_word a : ws_free a = true -> ws_free (ascii_lower a) = true.
Proof.
  unfold ws_free, ascii_lower. induction a as [|c a IH]; [done|].
  simpl. rewrite ascii_tolower_space.
  intros H. apply andb_prop in H as [-> H]. simpl. auto.
Qed.

Lemma ascii_lower_word_nonempty a :
  ws_free a = true -> a <> [] -> ascii_lower a <> [].
Proof. by destruct a. Qed.

#[export] Instance basic_latin : UnicodeDB := {|
  isdecimal := ascii_isdecimal;
  sre_ci := ascii_ci;
  lower := ascii_lower;
  lower_nil := eq_refl;
  lower_space := ascii_lower_space;
  lower_word := ascii_lower_word;
  lower_word_nonempty := ascii_lower_word_nonempty;
|}.

(** * Facts about the string operations *)

(** The words of a string that has no whitespace: itself, unless empty. *)
Definition one_word (w : str) : list str :=
  match w with [] => [] | _ :: _ => [w] end.

Lemma span_word s :
  exists w rest,
    s = w ++ rest /\ ws_free w = true
    /\ (rest = [] \/ exists c b, rest = c :: b /\ isspace c = true).
Proof.
  induction s as [|a s (w & rest & -> & Hw & Hrest)].
  - exists [], []. auto.
  - destruct (isspace a) eqn:Ha.
    + exists [], (a :: w ++ rest). repeat split; [right; eauto].
    + exists (a :: w), rest. repeat split; [|done].
      unfold ws_free in *. simpl. by rewrite Ha.
Qed.

(** Induction over a string read as words separated by single whitespace
    characters (a word may be empty). *)
Lemma str_ws_ind (P : str -> Prop) :
  (forall w, ws_free w = true -> P w) ->
  (forall w c b, ws_free w = true -> isspace c = true -> P b -> P (w ++ c :: b)) ->
  forall s, P s.
Proof.
  intros Hword Hstep s.
  remember (length s) as n eqn:Hn. revert s Hn.
  induction n as [n IH] using lt_wf_ind. intros s ->.
  destruct (span_word s) as (w & rest & -> & Hw & [->|(c & b & -> & Hc)]).
  - rewrite app_nil_r. by apply Hword.
  - apply Hstep; [done..|].
    apply (IH (length b)); [|done]. rewrite length_app. simpl. lia.
Qed.

(** ** [lstrip], [rstrip], [strip] *)

Lemma lstrip_word w x : ws_free w = true -> w <> [] -> lstrip (w ++ x) = w ++ x.
Proof.
  destruct w as [|a w]; [done|]. unfold ws_free. simpl.
  intros [Ha%negb_true_iff _]%andb_prop _. by rewrite Ha.
Qed.

Lemma lstrip_ws_free w : ws_free w = true -> lstrip w = w.
Proof.
  destruct w as [|a w]; [done|]. intros Hw.
  rewrite <- (app_nil_r (a :: w)). by apply lstrip_word.
Qed.

Lemma lstrip_snoc y a :
  lstrip (y ++ [a])
  = match lstrip y with
    | [] => if isspace a then [] else [a]
    | r => r ++ [a]
    end.
Proof.
  induction y as [|b y IH]; simpl; [done|].
  destruct (isspace b); [done|]. done.
Qed.

Lemma rstrip_nil : rstrip [] = [].
Proof. reflexivity. Qed.

Lemma rstrip_cons a x :
  rstrip (a :: x)
  = match rstrip x with
    | [] => if isspace a then [] else [a]
    | r => a :: r
    end.
Proof.
  unfold rstrip. simpl. rewrite lstrip_snoc.
  destruct (lstrip (rev x)) as [|b r] eqn:Hl; [by destruct (isspace a)|].
  rewrite rev_app_distr. simpl.
  destruct (rev r ++ [b]) eqn:Hr; [by destruct (rev r)|done].
Qed.

Lemma rstrip_word w x : ws_free w = true -> rstrip (w ++ x) = w ++ rstrip x.
Proof.
  unfold ws_free. induction w as [|a w IH]; [done|]. simpl.
  intros [Ha%negb_true_iff Hw]%andb_prop.
  rewrite rstrip_cons, IH, Ha by done. by destruct (w ++ rstrip x).
Qed.

Lemma rstrip_ws_free w : ws_free w = true -> rstrip w = w.
Proof.
  intros Hw. rewrite <- (app_nil_r w) at 1.
  rewrite rstrip_word by done. by rewrite rstrip_nil, app_nil_r.
Qed.

Lemma rstrip_space c x :
  isspace c = true ->
  rstrip (c :: x) = match rstrip x with [] => [] | r => c :: r end.
Proof. intros Hc. by rewrite rstrip_cons, Hc. Qed.

(** ** [re.sub(r"\s+", " ", s)] *)

Lemma sub_ws_from_word f w x :
  ws_free w = true ->
  sub_ws_from f (w ++ x)
  = w ++ sub_ws_from (match w with [] => f | _ :: _ => false end) x.
Proof.
  unfold ws_free. revert f. induction w as [|a w IH]; intros f; [done|]. simpl.
  intros [Ha%negb_true_iff Hw]%andb_prop. rewrite Ha, IH by done.
  by destruct w.
Qed.

Lemma sub_ws_from_ws_free f w : ws_free w = true -> sub_ws_from f w = w.
Proof.
  intros Hw. rewrite <- (app_nil_r w) at 1.
  rewrite sub_ws_from_word by done. simpl. by rewrite app_nil_r.
Qed.

(** After a whitespace character the output never starts with one. *)
Lemma lstrip_sub_ws_true x : lstrip (sub_ws_from true x) = sub_ws_from true x.
Proof.
  induction x as [|a x IH]; [done|]. simpl.
  destruct (isspace a) eqn:Ha; [done|]. simpl. by rewrite Ha.
Qed.

Lemma sub_ws_from_space f c x :
  isspace c = true ->
  sub_ws_from f (c :: x)
  = (if f then [] else [32]) ++ sub_ws_from true x.
Proof. intros Hc. simpl. rewrite Hc. by destruct f. Qed.

(** ** [s.split()] *)

Lemma words_from_word acc w x :
  ws_free w = true -> words_from acc (w ++ x) = words_from (rev w ++ acc) x.
Proof.
  unfold ws_free. revert acc. induction w as [|a w IH]; intros acc; [done|]. simpl.
  intros [Ha%negb_true_iff Hw]%andb_prop. rewrite Ha, IH by done.
  by rewrite <- app_assoc.
Qed.

Lemma words_ws_free w : ws_free w = true -> words w = one_word w.
Proof.
  intros Hw. unfold words. rewrite <- (app_nil_r w) at 1.
  rewrite words_from_word by done. rewrite app_nil_r. simpl.
  destruct w as [|a w]; [done|].
  destruct (rev (a :: w)) eqn:Hr.
  - apply (f_equal (@rev _)) in Hr. by rewrite rev_involutive in Hr.
  - by rewrite <- Hr, rev_involutive.
Qed.

Lemma words_step w c b :
  ws_free w = true -> isspace c = true ->
  words (w ++ c :: b) = one_word w ++ words b.
Proof.
  intros Hw Hc. unfold words. rewrite words_from_word by done.
  rewrite app_nil_r. simpl. rewrite Hc.
  destruct w as [|a w]; [done|].
  destruct (rev (a :: w)) eqn:Hr.
  - apply (f_equal (@rev _)) in Hr. by rewrite rev_involutive in Hr.
  - by rewrite <- Hr, rev_involutive.
Qed.

Lemma words_nonempty s : Forall (fun w => w <> []) (words s).
Proof.
  induction s as [w Hw|w c b Hw Hc IH] using str_ws_ind.
  - rewrite words_ws_free by done. destruct w; repeat constructor. done.
  - rewrite words_step by done. apply Forall_app. split; [|done].
    destruct w; repeat constructor. done.
Qed.

Lemma join_cons sep w ws :
  join sep (w :: ws) = w ++ match ws with [] => [] | _ :: _ => sep ++ join sep ws end.
Proof. destruct ws; simpl; [by rewrite app_nil_r|done]. Qed.

Lemma join_words_nil s : join [32] (words s) = [] -> words s = [].
Proof.
  pose proof (words_nonempty s) as Hne.
  destruct (words s) as [|w ws]; [done|].
  apply Forall_cons in Hne as [Hw _]. rewrite join_cons.
  intros [-> _]%app_eq_nil. done.
Qed.

Lemma sub_ws_from_lstrip f s : sub_ws_from f (lstrip s) = sub_ws_from true s.
Proof.
  induction s as [|a s IH]; [done|]. simpl.
  destruct (isspace a) eqn:Ha; [done|]. simpl. by rewrite Ha.
Qed.

Lemma lstrip_sub_ws_from f s : lstrip (sub_ws_from f s) = sub_ws_from true s.
Proof.
  destruct s as [|a s]; [done|].
  destruct (isspace a) eqn:Ha.
  - rewrite sub_ws_from_space by done. simpl. rewrite Ha.
    destruct f; simpl; apply lstrip_sub_ws_true.
  - simpl. rewrite Ha. simpl. by rewrite Ha.
Qed.

Lemma sub_ws_rstrip_nonempty x :
  rstrip x <> [] -> sub_ws_from true (rstrip x) <> [].
Proof.
  induction x as [w Hw|w c b Hw Hc IH] using str_ws_ind.
  - rewrite rstrip_ws_free by done. by rewrite sub_ws_from_ws_free.
  - rewrite rstrip_word, rstrip_space by done.
    destruct w as [|a w].
    + simpl. destruct (rstrip b) as [|d r] eqn:Hb; [done|]. intros _.
      rewrite sub_ws_from_space by done. simpl. by apply IH.
    + intros _. by rewrite sub_ws_from_word.
Qed.

Lemma sub_ws_from_rstrip s :
  forall f, sub_ws_from f (rstrip s) = rstrip (sub_ws_from f s).
Proof.
  induction s as [w Hw|w c b Hw Hc IH] using str_ws_ind; intros f.
  - by rewrite rstrip_ws_free, sub_ws_from_ws_free, rstrip_ws_free.
  - rewrite rstrip_word, rstrip_space by done.
    rewrite !sub_ws_from_word, rstrip_word by done. f_equal.
    set (f' := match w with [] => f | _ :: _ => false end).
    rewrite sub_ws_from_space by done.
    pose proof (IH true) as IHt.
    destruct (rstrip b) as [|d r] eqn:Hb.
    + simpl in IHt. destruct f'; simpl; [done|].
      rewrite rstrip_space by done. by rewrite <- IHt.
    + rewrite sub_ws_from_space by done.
      assert (sub_ws_from true (d :: r) <> []) as Hne.
      { rewrite <- Hb. apply sub_ws_rstrip_nonempty. by rewrite Hb. }
      destruct f'; cbn [app]; [done|].
      rewrite rstrip_space by done. rewrite <- IHt.
      by destruct (sub_ws_from true (d :: r)).
Qed.

Lemma sub_ws_strip s : sub_ws (strip s) = strip (sub_ws s).
Proof.
  unfold sub_ws, strip.
  by rewrite sub_ws_from_rstrip, sub_ws_from_lstrip, lstrip_sub_ws_from.
Qed.

(** Collapsing and trimming leaves the words, one space apart. *)
Lemma strip_sub_ws_from s :
  forall f, strip (sub_ws_from f s) = join [32] (words s).
Proof.
  unfold strip. induction s as [w Hw|w c b Hw Hc IH] using str_ws_ind; intros f.
  - rewrite sub_ws_from_ws_free, lstrip_ws_free, rstrip_ws_free, words_ws_free by done.
    by destruct w.
  - rewrite lstrip_sub_ws_from. rewrite sub_ws_from_word, words_step by done.
    specialize (IH true). rewrite lstrip_sub_ws_from in IH.
    destruct w as [|a w].
    + cbn [app one_word]. rewrite sub_ws_from_space by done. apply IH.
    + rewrite sub_ws_from_space, rstrip_word by done. cbn [app].
      rewrite rstrip_space, IH by done.
      cbn [one_word app]. rewrite join_cons. f_equal.
      destruct (join [32] (words b)) eqn:Hj; [by rewrite (join_words_nil _ Hj)|].
      destruct (words b); [done|]. done.
Qed.

Lemma strip_sub_ws s : strip (sub_ws s) = join [32] (words s).
Proof. apply strip_sub_ws_from. Qed.

(** ** [str.lower], from its laws *)

Section LowerFacts.
Context `{UnicodeDB}.

Lemma lower_lead_space c b : isspace c = true -> lower (c :: b) = c :: lower b.
Proof. intros Hc. by rewrite (lower_space [] c b Hc), lower_nil. Qed.

Lemma lower_nonempty x : x <> [] -> lower x <> [].
Proof.
  destruct (span_word x) as (w & rest & -> & Hw & [->|(c & b & -> & Hc)]).
  - rewrite app_nil_r. by apply lower_word_nonempty.
  - intros _. rewrite lower_space by done. by destruct (lower w).
Qed.

Lemma lower_lstrip s : lower (lstrip s) = lstrip (lower s).
Proof.
  induction s as [w Hw|w c b Hw Hc IH] using str_ws_ind.
  - rewrite (lstrip_ws_free w) by done.
    by rewrite (lstrip_ws_free (lower w)) by (by apply lower_word).
  - destruct w as [|a w].
    + simpl app. rewrite lower_lead_space by done. simpl. by rewrite Hc.
    + rewrite lstrip_word, lower_space by done.
      rewrite lstrip_word; [done|by apply lower_word|by apply lower_nonempty].
Qed.

Lemma lower_rstrip s : lower (rstrip s) = rstrip (lower s).
Proof.
  induction s as [w Hw|w c b Hw Hc IH] using str_ws_ind.
  - rewrite (rstrip_ws_free w) by done.
    by rewrite (rstrip_ws_free (lower w)) by (by apply lower_word).
  - rewrite lower_space by done.
    rewrite (rstrip_word w) by done.
    rewrite (rstrip_word (lower w)) by (by apply lower_word).
    rewrite !rstrip_space by done.
    rewrite <- IH. destruct (rstrip b) as [|d r] eqn:Hb.
    + by rewrite lower_nil, !app_nil_r.
    + rewrite lower_space by done.
      pose proof (lower_nonempty (d :: r)) as Hne.
      destruct (lower (d :: r)); [by destruct Hne|done].
Qed.

Lemma lower_strip s : lower (strip s) = strip (lower s).
Proof. unfold strip. by rewrite lower_rstrip, lower_lstrip. Qed.

Lemma lower_join ws : lower (join [32] ws) = join [32] (map lower ws).
Proof.
  induction ws as [|w ws IH]; [apply lower_nil|].
  rewrite !join_cons. destruct ws as [|w' ws]; [by rewrite !app_nil_r|].
  cbn [map]. cbn [app]. rewrite lower_space by done. by rewrite IH.
Qed.

Lemma one_word_lower w :
  ws_free w = true -> one_word (lower w) = map lower (one_word w).
Proof.
  intros Hw. destruct w as [|a w]; [by rewrite lower_nil|].
  pose proof (lower_word_nonempty (a :: w) Hw) as Hne.
  simpl. destruct (lower (a :: w)); [by destruct Hne|done].
Qed.

Lemma words_lower s : words (lower s) = map lower (words s).
Proof.
  induction s as [w Hw|w c b Hw Hc IH] using str_ws_ind.
  - rewrite (words_ws_free w) by done.
    rewrite (words_ws_free (lower w)) by (by apply lower_word).
    by apply one_word_lower.
  - rewrite lower_space by done.
    rewrite (words_step w) by done.
    rewrite (words_step (lower w)) by (done || by apply lower_word).
    by rewrite map_app, IH, one_word_lower.
Qed.

(** The key [build_template_map] stores a market name under, and the key
    [tpl_by_name] looks a name up with, are both the lowercased words of
    the name one space apart. *)
Lemma norm_space_words s : _norm_space s = join [32] (map lower (words s)).
Proof. unfold _norm_space. by rewrite strip_sub_ws, lower_join. Qed.

Lemma lookup_key_words s :
  sub_ws (lower (strip s)) = join [32] (map lower (words s)).
Proof. by rewrite lower_strip, sub_ws_strip, strip_sub_ws, words_lower. Qed.

Lemma lookup_key_norm_space s : sub_ws (lower (strip s)) = _norm_space s.
Proof. by rewrite lookup_key_words, norm_space_words. Qed.

End LowerFacts.

(** * Properties of the scanner *)

Section ScannerFacts.
Context `{UnicodeDB}.

Lemma block_loop_stop market team rest j st :
  (forall b, head rest = Some b -> _is_boundary (strip b) = true) ->
  block_loop market team rest j st = (st.1, j).
Proof.
  destruct rest as [|b rest]; [done|].
  intros Hb. simpl. by rewrite (Hb b eq_refl).
Qed.

Lemma block_loop_cons market team l ls j st :
  _is_boundary (strip l) = false ->
  block_loop market team (l :: ls) j st
  = block_loop market team ls (S j) (block_step market team st (strip l)).
Proof. intros Hb. cbn [block_loop]. by rewrite Hb. Qed.

Lemma block_loop_index market team ls :
  forall j st,
    (j <= (block_loop market team ls j st).2 <= j + length ls)%nat.
Proof.
  induction ls as [|l ls IH]; intros j st; simpl; [lia|].
  destruct (_is_boundary (strip l)); simpl; [lia|].
  specialize (IH (S j) (block_step market team st (strip l))). lia.
Qed.

Lemma block_loop_shift market team ls :
  forall j st,
    block_loop market team ls (S j) st
    = ((block_loop market team ls j st).1, S (block_loop market team ls j st).2).
Proof.
  induction ls as [|l ls IH]; intros j st; simpl; [done|].
  destruct (_is_boundary (strip l)); [done|]. apply IH.
Qed.

Lemma block_step_name market team rows pending s :
  Re.matches RE_DECIMAL s = false ->
  block_step market team (rows, pending) s = (rows, Some s).
Proof. intros Hd. unfold block_step. by rewrite Hd. Qed.

Lemma block_step_orphan market team rows pending s :
  Re.matches RE_DECIMAL s = true -> otruthy pending = false ->
  block_step market team (rows, pending) s = (rows, pending).
Proof. intros Hd Hp. unfold block_step. by rewrite Hd, Hp. Qed.

Lemma block_step_emit market team rows name s :
  Re.matches RE_DECIMAL s = true -> truthy name = true ->
  block_step market team (rows, Some name) s
  = (rows ++ [Selection market (or_empty team) name s], None).
Proof. intros Hd Hp. unfold block_step. simpl. by rewrite Hd, Hp. Qed.

Lemma is_name_line_spec l :
  is_name_line l = true ->
  _is_boundary (strip l) = false /\ Re.matches RE_DECIMAL (strip l) = false
  /\ truthy (strip l) = true.
Proof.
  unfold is_name_line. simpl. intros Hn.
  apply andb_prop in Hn as [Hn Ht]. apply andb_prop in Hn as [Hb Hd].
  apply negb_true_iff in Hb, Hd. done.
Qed.

Lemma is_decimal_line_spec l :
  is_decimal_line l = true ->
  _is_boundary (strip l) = false /\ Re.matches RE_DECIMAL (strip l) = true.
Proof.
  unfold is_decimal_line. simpl. intros Hn.
  apply andb_prop in Hn as [Hb Hd]. apply negb_true_iff in Hb. done.
Qed.

(** A name line and the decimal line after it give one row, whatever
    was pending before. *)
Lemma block_loop_pair market team n d ls j rows pending :
  is_name_line n = true -> is_decimal_line d = true ->
  block_loop market team (n :: d :: ls) j (rows, pending)
  = block_loop market team ls (S (S j))
      (rows ++ [Selection market (or_empty team) (strip n) (strip d)], None).
Proof.
  intros (Hnb & Hnd & Hnt)%is_name_line_spec (Hdb & Hdd)%is_decimal_line_spec.
  rewrite !block_loop_cons by done.
  rewrite block_step_name by done. by rewrite block_step_emit.
Qed.

Lemma block_loop_pairs market team pairs rest :
  Forall (fun p => is_name_line p.1 = true /\ is_decimal_line p.2 = true) pairs ->
  forall j rows pending,
    block_loop market team (pair_lines pairs ++ rest) j (rows, pending)
    = block_loop market team rest (j + 2 * length pairs)
        (rows ++ map (fun p => Selection market (or_empty team) (strip p.1) (strip p.2)) pairs,
         match pairs with [] => pending | _ :: _ => None end).
Proof.
  induction 1 as [|[n d] pairs [Hn Hd] _ IH]; intros j rows pending.
  - simpl. rewrite app_nil_r. by replace (j + 0)%nat with j by lia.
  - change (pair_lines ((n, d) :: pairs) ++ rest)
      with (n :: d :: (pair_lines pairs ++ rest)).
    rewrite block_loop_pair by done. rewrite IH.
    f_equal; [simpl; lia|].
    f_equal; [by rewrite <- app_assoc | by destruct pairs].
Qed.

Lemma block_loop_rows market team ls :
  forall j st r,
    r ∈ (block_loop market team ls j st).1 ->
    r ∈ st.1 \/ (Market r = market /\ Team r = or_empty team).
Proof.
  induction ls as [|l ls IH]; intros j st r; cbn [block_loop]; [by left|].
  destruct (_is_boundary (strip l)); [by left|].
  intros [Hr|Hr]%IH; [|by right].
  destruct st as [rows pending]. unfold block_step in Hr.
  destruct (Re.matches RE_DECIMAL (strip l)); [|by left].
  destruct (otruthy pending); [|by left].
  simpl in Hr. apply elem_of_app in Hr as [Hr|Hr]; [by left|].
  apply list_elem_of_singleton in Hr as ->. by right.
Qed.

Lemma parse_block_rows lines start market team r :
  r ∈ (_parse_block lines start market team).1 ->
  Market r = market /\ Team r = or_empty team.
Proof.
  unfold _parse_block. intros [Hr|Hr]%block_loop_rows; [|done].
  by apply elem_of_nil in Hr.
Qed.

Lemma parse_block_index lines start market team :
  (start < length lines)%nat ->
  (start < (_parse_block lines start market team).2 <= length lines)%nat.
Proof.
  intros Hs. unfold _parse_block.
  pose proof (block_loop_index market team (drop (S start) lines) (S start) ([], None)) as Hi.
  rewrite length_drop in Hi. lia.
Qed.

Lemma scan_step_index lines i s :
  lines !! i = Some s ->
  (i < (scan_step lines i s).2 <= length lines)%nat.
Proof.
  intros Hi%lookup_lt_Some. unfold scan_step.
  destruct (Re.matches RE_PLAYER_OF_MATCH s); [by apply parse_block_index|].
  destruct (Re.rmatch RE_TOP_BOWLER_TEAM s); [by apply parse_block_index|].
  destruct (Re.rmatch RE_TOP_RUNSCORER_TEAM s); [by apply parse_block_index|].
  simpl. lia.
Qed.

(** The loop of [parse_unibet] ends within [len(lines) - i] iterations. *)
Lemma scan_total fuel :
  forall lines i out,
    (length lines - i <= fuel)%nat -> is_Some (scan fuel lines i out).
Proof.
  induction fuel as [|fuel IH]; intros lines i out Hf.
  - cbn [scan].
    destruct (lines !! i) eqn:Hi; [apply lookup_lt_Some in Hi; lia | by eexists].
  - cbn [scan]. destruct (lines !! i) as [s|] eqn:Hi; [|by eexists].
    pose proof (scan_step_index lines i s Hi) as Hstep.
    destruct (scan_step lines i s) as [r i']. apply IH. simpl in Hstep. lia.
Qed.

Lemma scan_more_fuel fuel :
  forall lines i out extra res,
    scan fuel lines i out = Some res -> scan (fuel + extra) lines i out = Some res.
Proof.
  induction fuel as [|fuel IH]; intros lines i out extra res; cbn [scan].
  - destruct (lines !! i) eqn:Hi; [done|].
    intros [= <-]. change (0 + extra)%nat with extra.
    destruct extra; cbn [scan]; by rewrite Hi.
  - replace (S fuel + extra)%nat with (S (fuel + extra)) by lia. cbn [scan].
    destruct (lines !! i); [|done].
    destruct (scan_step lines i s) as [r i']. apply IH.
Qed.

Lemma parse_lines_scan lines :
  scan (length lines) lines 0 [] = Some (parse_lines lines).
Proof.
  unfold parse_lines.
  destruct (scan_total (length lines) lines 0 []) as [out ->]; [lia|done].
Qed.

Lemma drop_after_heading (pre : list str) h ls :
  drop (S (length pre)) (pre ++ h :: ls) = ls.
Proof. induction pre as [|x pre IH]; [done|]. apply IH. Qed.

Lemma lookup_after_heading (pre : list str) h body rest :
  (pre ++ h :: body ++ rest) !! (length pre + 1 + length body)%nat = head rest.
Proof.
  induction pre as [|x pre IH]; [|apply IH]. simpl.
  induction body as [|y body IHb]; [by destruct rest|apply IHb].
Qed.

Lemma pair_lines_length pairs : length (pair_lines pairs) = (2 * length pairs)%nat.
Proof. induction pairs as [|p pairs IH]; simpl in *; lia. Qed.

(** C1. A block whose heading is followed by [n] well-formed (name line,
    decimal line) pairs and then by a boundary line or by the end of the
    text: [_parse_block] returns exactly the [n] selections, in the order
    of the lines, each made of a name and of the decimal line after it,
    together with the index of the boundary line (the number of lines
    when the text ends there).  The line at [start] itself is not read,
    so this holds in particular when it is a recognized heading. *)
Theorem parse_block_pairs pre h pairs rest market team :
  Forall (fun p => is_name_line p.1 = true /\ is_decimal_line p.2 = true) pairs ->
  (forall b, head rest = Some b -> _is_boundary (strip b) = true) ->
  let lines := pre ++ h :: pair_lines pairs ++ rest in
  let stop := (length pre + 1 + 2 * length pairs)%nat in
  _parse_block lines (length pre) market team
  = (map (fun p => Selection market (or_empty team) (strip p.1) (strip p.2)) pairs,
     stop)
  /\ lines !! stop = head rest.
Proof.
  intros Hpairs Hrest lines stop. split.
  - unfold _parse_block, lines. rewrite drop_after_heading.
    rewrite block_loop_pairs by done.
    rewrite block_loop_stop by done.
    simpl. f_equal. unfold stop. lia.
  - unfold lines, stop. rewrite <- pair_lines_length.
    apply lookup_after_heading.
Qed.

(** C2. The block parser has one slot for a pending name.  For a line
    that is not a boundary: (a) when it is a decimal and no name is held
    (the slot is [None] or holds the empty string) the loop goes on to
    the next line with the same rows and the same slot; (b) when it is
    not a decimal the loop goes on with the same rows and this line in
    the slot, whatever the slot held.  Hence (c) of two name lines in a
    row only the second one reaches the row of the decimal line after
    them, and (d) a decimal line right after the heading changes nothing
    but the stop index. *)
Theorem pending_name_slot market team :
  (forall l ls j rows pending,
     _is_boundary (strip l) = false ->
     Re.matches RE_DECIMAL (strip l) = true -> otruthy pending = false ->
     block_loop market team (l :: ls) j (rows, pending)
     = block_loop market team ls (S j) (rows, pending))
  /\ (forall l ls j rows pending,
     _is_boundary (strip l) = false ->
     Re.matches RE_DECIMAL (strip l) = false ->
     block_loop market team (l :: ls) j (rows, pending)
     = block_loop market team ls (S j) (rows, Some (strip l)))
  /\ (forall n1 n2 d ls j rows pending,
     is_name_line n1 = true -> is_name_line n2 = true -> is_decimal_line d = true ->
     block_loop market team (n1 :: n2 :: d :: ls) j (rows, pending)
     = block_loop market team ls (3 + j)
         (rows ++ [Selection market (or_empty team) (strip n2) (strip d)], None))
  /\ (forall pre h d ls,
     is_decimal_line d = true ->
     _parse_block (pre ++ h :: d :: ls) (length pre) market team
     = ((_parse_block (pre ++ h :: ls) (length pre) market team).1,
        S (_parse_block (pre ++ h :: ls) (length pre) market team).2)).
Proof.
  repeat split.
  - intros l ls j rows pending Hb Hd Hp.
    rewrite block_loop_cons by done. by rewrite block_step_orphan.
  - intros l ls j rows pending Hb Hd.
    rewrite block_loop_cons by done. by rewrite block_step_name.
  - intros n1 n2 d ls j rows pending (Hb1 & Hd1 & _)%is_name_line_spec Hn2 Hd.
    rewrite block_loop_cons by done. rewrite block_step_name by done.
    by rewrite block_loop_pair.
  - intros pre h d ls (Hb & Hd)%is_decimal_line_spec.
    unfold _parse_block. rewrite !drop_after_heading.
    rewrite block_loop_cons by done. rewrite block_step_orphan by done.
    apply block_loop_shift.
Qed.

(** C10. For every line sequence and every index [start] of one of its
    lines, the stop index [_parse_block] returns is greater than [start]
    and at most the number of lines (the stop index is greater than
    [start] for any [start] at all); so every iteration of the loop of
    [parse_unibet] moves its cursor [i] forward and keeps it within the
    lines, and the loop ends on every input: one iteration per line is
    enough, and more fuel changes nothing. *)
Theorem parse_progress :
  (forall lines start market team,
     (start < (_parse_block lines start market team).2)%nat
     /\ ((start < length lines)%nat ->
         ((_parse_block lines start market team).2 <= length lines)%nat))
  /\ (forall lines i s,
     lines !! i = Some s ->
     (i < (scan_step lines i s).2 <= length lines)%nat)
  /\ (forall lines, scan (length lines) lines 0 [] = Some (parse_lines lines))
  /\ (forall lines fuel, (length lines <= fuel)%nat ->
        scan fuel lines 0 [] = Some (parse_lines lines)).
Proof.
  split; [|split; [|split]].
  - intros lines start market team. split.
    + unfold _parse_block.
      pose proof (block_loop_index market team (drop (S start) lines) (S start) ([], None)).
      lia.
    + intros Hs. by apply parse_block_index.
  - apply scan_step_index.
  - apply parse_lines_scan.
  - intros lines fuel Hf.
    replace fuel with (length lines + (fuel - length lines))%nat by lia.
    apply scan_more_fuel, parse_lines_scan.
Qed.

Lemma or_empty_Some s : or_empty (Some s) = s.
Proof. by destruct s. Qed.

Lemma scan_step_rows lines i s r :
  lines !! i = Some s -> r ∈ (scan_step lines i s).1 -> row_origin lines r.
Proof.
  intros Hs%list_elem_of_lookup_2. unfold scan_step, row_origin.
  destruct (Re.matches RE_PLAYER_OF_MATCH s).
  { intros [? ?]%parse_block_rows. by left. }
  destruct (Re.rmatch RE_TOP_BOWLER_TEAM s) as [m|] eqn:Hm.
  { intros [? ?]%parse_block_rows. right. left. exists s, m.
    by rewrite or_empty_Some in *. }
  destruct (Re.rmatch RE_TOP_RUNSCORER_TEAM s) as [m|] eqn:Hm'.
  { intros [? ?]%parse_block_rows. right. right. exists s, m.
    by rewrite or_empty_Some in *. }
  simpl. by intros ?%elem_of_nil.
Qed.

Lemma scan_rows fuel :
  forall lines i out res r,
    scan fuel lines i out = Some res -> r ∈ res ->
    r ∈ out \/ row_origin lines r.
Proof.
  induction fuel as [|fuel IH]; intros lines i out res r; cbn [scan].
  - destruct (lines !! i); [done|]. intros [= <-]. by left.
  - destruct (lines !! i) as [s|] eqn:Hi; [|intros [= <-]; by left].
    pose proof (scan_step_rows lines i s r Hi) as Hstep.
    destruct (scan_step lines i s) as [rws i'].
    intros Hscan Hr. destruct (IH _ _ _ _ _ Hscan Hr) as [Hin|Ho]; [|by right].
    apply elem_of_app in Hin as [Hin|Hin]; [by left|right; by apply Hstep].
Qed.

(** C9, as the code has it.  Every row [parse_unibet] returns is either
    a Player of the Match row with the empty team, or a Top Bowler
    (resp. Top Batter) row whose team is the trimmed text that a Top
    Bowler (resp. Top Run Scorer) heading of the input has between its
    two dashes; that text, and so the team, is empty when the heading has
    nothing but whitespace there. *)
Theorem selection_team text r :
  r ∈ parse_unibet text -> row_origin (_lines text) r.
Proof.
  unfold parse_unibet. intros Hr.
  destruct (scan_rows _ _ _ _ _ r (parse_lines_scan (_lines text)) Hr) as [Hin|Ho];
    [by apply elem_of_nil in Hin|done].
Qed.

End ScannerFacts.

(** ** The scanner on concrete texts *)

Lemma parse_block_pairs_witness :
  _parse_block potm_lines 0 PLAYER_OF_THE_MATCH None
  = ([Selection PLAYER_OF_THE_MATCH [] (u "Virat Kohli") (u "2.5");
      Selection PLAYER_OF_THE_MATCH [] (u "Joe Root") (u "3.0")], 5%nat)
  /\ potm_lines !! 5%nat = Some (u "view more").
Proof.
  apply (parse_block_pairs [] (u "Player of the Match")
           [(u "Virat Kohli", u "2.5"); (u "Joe Root", u "3.0")]
           [u "view more"] PLAYER_OF_THE_MATCH None).
  - repeat constructor; vm_compute; reflexivity.
  - intros b [= <-]. vm_compute. reflexivity.
Defined.

Lemma pending_name_slot_witness :
  block_loop TOP_BOWLER (Some (u "India"))
    (map u ["Not Playing"; "Jasprit Bumrah"; "3.5"; "Home"]%string) 1 ([], None)
  = block_loop TOP_BOWLER (Some (u "India")) [u "Home"] 4
      ([Selection TOP_BOWLER (u "India") (u "Jasprit Bumrah") (u "3.5")], None).
Proof.
  apply (proj1 (proj2 (proj2 (pending_name_slot TOP_BOWLER (Some (u "India"))))));
    vm_compute; reflexivity.
Defined.

Lemma parse_progress_witness :
  ((_parse_block potm_lines 0 PLAYER_OF_THE_MATCH None).2 <= length potm_lines)%nat.
Proof.
  apply (proj2 (proj1 parse_progress potm_lines 0%nat PLAYER_OF_THE_MATCH None)).
  vm_compute. lia.
Defined.

Lemma selection_team_witness :
  row_origin (_lines potm_text)
    (Selection PLAYER_OF_THE_MATCH [] (u "Virat Kohli") (u "2.5")).
Proof.
  apply (selection_team potm_text). vm_compute. left.
Defined.

(** C9 as stated fails: a Top Bowler heading with nothing between its
    dashes matches [RE_TOP_BOWLER_TEAM] with an empty group, and its rows
    carry the empty team. *)
Lemma blank_team_counterexample :
  parse_unibet blank_team_text
  = [Selection TOP_BOWLER [] (u "Jasprit Bumrah") (u "3.5")]
  /\ ~ (forall r, r ∈ parse_unibet blank_team_text ->
                 Team r = [] -> Market r = PLAYER_OF_THE_MATCH).
Proof.
  assert (parse_unibet blank_team_text
          = [Selection TOP_BOWLER [] (u "Jasprit Bumrah") (u "3.5")]) as Heq
    by (vm_compute; reflexivity).
  split; [exact Heq|]. rewrite Heq. intros Hall.
  specialize (Hall _ (list_elem_of_here _ _) eq_refl). vm_compute in Hall. discriminate.
Qed.


(** * Properties of the Boss helpers *)

(** ** Dicts and frames *)

Lemma dict_get_set (d : row) k v k' :
  dict_get (dict_set d k v) k' = if bool_decide (k = k') then Some v else dict_get d k'.
Proof.
  induction d as [|[k0 v0] d IH]; simpl.
  - destruct (decide (k = k')) as [->|Hne].
    + by rewrite !bool_decide_true.
    + by rewrite !bool_decide_false.
  - destruct (decide (k0 = k)) as [->|Hne]; simpl.
    + rewrite (bool_decide_true (k = k)) by done. simpl.
      destruct (decide (k = k')) as [->|Hne'].
      * by rewrite !bool_decide_true.
      * by rewrite !bool_decide_false.
    + rewrite (bool_decide_false (k0 = k)) by done. simpl.
      destruct (decide (k0 = k')) as [->|Hne'].
      * rewrite (bool_decide_true (k' = k')) by done.
        by rewrite (bool_decide_false (k = k')) by congruence.
      * rewrite (bool_decide_false (k0 = k')) by done. apply IH.
Qed.

Lemma dict_set_keys (d : row) k v :
  map fst (dict_set d k v)
  = if bool_decide (k ∈ map fst d) then map fst d else map fst d ++ [k].
Proof.
  induction d as [|[k0 v0] d IH]; simpl; [done|].
  destruct (decide (k0 = k)) as [->|Hne].
  - rewrite (bool_decide_true (k = k)) by done.
    by rewrite (bool_decide_true (k ∈ k :: map fst d)) by apply list_elem_of_here.
  - rewrite (bool_decide_false (k0 = k)) by done. simpl. rewrite IH.
    destruct (decide (k ∈ map fst d)) as [Hin|Hin].
    + rewrite (bool_decide_true (k ∈ map fst d)) by done.
      by rewrite (bool_decide_true (k ∈ k0 :: map fst d)) by (by apply list_elem_of_further).
    + rewrite (bool_decide_false (k ∈ map fst d)) by done.
      rewrite (bool_decide_false (k ∈ k0 :: map fst d)); [done|].
      intros [?|?]%elem_of_cons; congruence.
Qed.

Lemma dict_set_fresh (d : row) k v :
  k ∉ map fst d -> dict_set d k v = d ++ [(k, v)].
Proof.
  induction d as [|[k0 v0] d IH]; simpl; [done|].
  intros Hk. destruct (decide (k0 = k)) as [->|Hne].
  - destruct Hk. apply list_elem_of_here.
  - rewrite (bool_decide_false (k0 = k)) by done.
    rewrite IH; [done|]. intros ?. apply Hk. by apply list_elem_of_further.
Qed.

Lemma to_dict_from (acc t : row) :
  NoDup (map fst (acc ++ t)) ->
  foldl (fun d kv => dict_set d kv.1 kv.2) acc t = acc ++ t.
Proof.
  revert acc. induction t as [|[k v] t IH]; intros acc Hnd; simpl.
  - by rewrite app_nil_r.
  - rewrite dict_set_fresh.
    + rewrite IH; rewrite <- app_assoc; done.
    + rewrite map_app in Hnd. simpl in Hnd.
      apply NoDup_app in Hnd as (_ & Hdisj & _).
      intros Hin. apply (Hdisj k Hin). by left.
Qed.

(** A row with distinct column names is its own dict. *)
Lemma to_dict_NoDup (t : row) : NoDup (map fst t) -> to_dict t = t.
Proof. intros Hnd. unfold to_dict. by rewrite to_dict_from. Qed.

Lemma dict_get_blank (cols : list str) :
  forall (r : row) c,
    dict_get (foldl (fun r col => dict_set r col []) r cols) c
    = if bool_decide (c ∈ cols) then Some [] else dict_get r c.
Proof.
  induction cols as [|col cols IH]; intros r c; simpl; [done|].
  rewrite IH, dict_get_set.
  destruct (decide (c ∈ cols)) as [Hin|Hin].
  - rewrite (bool_decide_true (c ∈ cols)) by done.
    by rewrite (bool_decide_true (c ∈ col :: cols)) by (by apply list_elem_of_further).
  - rewrite (bool_decide_false (c ∈ cols)) by done.
    destruct (decide (col = c)) as [->|Hne].
    + rewrite (bool_decide_true (c = c)) by done.
      by rewrite (bool_decide_true (c ∈ c :: cols)) by apply list_elem_of_here.
    + rewrite (bool_decide_false (col = c)) by done.
      rewrite (bool_decide_false (c ∈ col :: cols)); [done|].
      intros [?|?]%elem_of_cons; congruence.
Qed.


Lemma to_dict_keys_from (t : row) :
  forall (acc : row) c,
    c ∈ map fst (foldl (fun d kv => dict_set d kv.1 kv.2) acc t)
    <-> c ∈ map fst acc \/ c ∈ map fst t.
Proof.
  induction t as [|[k v] t IH]; intros acc c; simpl.
  - split; [by left|]. intros [?|?%elem_of_nil]; done.
  - rewrite IH, dict_set_keys. simpl.
    destruct (decide (k ∈ map fst acc)) as [Hin|Hin].
    + rewrite (bool_decide_true _ Hin), elem_of_cons.
      split; [intros [?|?]; auto|intros [?|[->|?]]; auto].
    + rewrite (bool_decide_false _ Hin), elem_of_app, list_elem_of_singleton, elem_of_cons.
      split; [intros [[?|?]|?]; auto|intros [?|[?|?]]; auto].
Qed.

Lemma to_dict_keys (t : row) c : c ∈ map fst (to_dict t) <-> c ∈ map fst t.
Proof.
  unfold to_dict. rewrite to_dict_keys_from. simpl.
  split; [intros [?%elem_of_nil|?]; done|by right].
Qed.

Lemma dict_get_tabulate (f : str -> str) (cols : list str) c :
  c ∈ cols -> dict_get (map (fun c => (c, f c)) cols) c = Some (f c).
Proof.
  induction cols as [|c0 cols IH]; [by intros ?%elem_of_nil|]. simpl.
  destruct (decide (c0 = c)) as [->|Hne].
  - by rewrite bool_decide_true.
  - rewrite bool_decide_false by done.
    intros [?|?]%elem_of_cons; [congruence|by apply IH].
Qed.

Lemma map_fst_tabulate (f : str -> str) (cols : list str) :
  map fst (map (fun c => (c, f c)) cols) = cols.
Proof. induction cols as [|c cols IH]; simpl; [done|by rewrite IH]. Qed.

Lemma forallb_pointwise {A} (f g : A -> bool) (l : list A) :
  (forall x, f x = g x) -> forallb f l = forallb g l.
Proof. intros Hfg. induction l as [|x l IH]; simpl; [done|by rewrite Hfg, IH]. Qed.

Section BossFacts.
Context `{UnicodeDB}.

(** ** [build_template_map] *)

Lemma build_template_map_from (rows : list row) col :
  forall (m : gmap str row) k,
    foldl (fun m r =>
             let key := _norm_space (default [] (dict_get r col)) in
             if truthy key && negb (bool_decide (is_Some (m !! key)))
             then <[key := r]> m else m) m rows !! k
    = match m !! k with
      | Some r => Some r
      | None => if truthy k then first_row rows col k else None
      end.
Proof.
  induction rows as [|r rows IH]; intros m k; cbn [foldl].
  - unfold first_row. simpl. destruct (m !! k); [done|by destruct (truthy k)].
  - rewrite IH. clear IH. unfold first_row. cbn [List.find]. unfold cell.
    set (key := _norm_space (default [] (dict_get r col))).
    destruct (decide (key = k)) as [Hk|Hk].
    + rewrite (bool_decide_true _ Hk). subst k.
      destruct (m !! key) as [r0|] eqn:Hm.
      * rewrite (bool_decide_true (is_Some (Some r0))) by eauto.
        rewrite andb_false_r. by rewrite Hm.
      * rewrite (bool_decide_false (is_Some None)) by (by intros [? ?]).
        rewrite andb_true_r. destruct (truthy key).
        -- by rewrite lookup_insert_eq.
        -- by rewrite Hm.
    + rewrite (bool_decide_false _ Hk).
      destruct (truthy key && negb (bool_decide (is_Some (m !! key)))); [|done].
      by rewrite lookup_insert_ne.
Qed.

Lemma build_template_map_lookup boss col k :
  build_template_map boss col !! k
  = if truthy k then first_row (records boss) col k else None.
Proof.
  unfold build_template_map. rewrite build_template_map_from.
  by rewrite lookup_empty.
Qed.

(** ** [find_col] *)

Lemma norm_dict_snoc cols c :
  norm_dict (cols ++ [c]) = <[_norm_key c := c]> (norm_dict cols).
Proof. unfold norm_dict. by rewrite foldl_app. Qed.

(** The column stored under a key is the last one with that key. *)
Lemma norm_dict_last cols k c :
  norm_dict cols !! k = Some c ->
  exists l1 l2,
    cols = l1 ++ c :: l2 /\ _norm_key c = k
    /\ forall c', c' ∈ l2 -> _norm_key c' <> k.
Proof.
  induction cols as [|c0 cols IH] using rev_ind.
  - unfold norm_dict. simpl. by rewrite lookup_empty.
  - rewrite norm_dict_snoc.
    destruct (decide (_norm_key c0 = k)) as [Hk|Hk].
    + rewrite <- Hk, lookup_insert_eq. intros [= <-].
      exists cols, []. split; [done|]. split; [done|]. by intros c' ?%elem_of_nil.
    + rewrite lookup_insert_ne by done.
      intros (l1 & l2 & -> & Hc & Hl2)%IH.
      exists l1, (l2 ++ [c0]). rewrite <- app_assoc. split; [done|]. split; [done|].
      intros c' [?|Hc0]%elem_of_app; [by apply Hl2|].
      apply list_elem_of_singleton in Hc0. by subst.
Qed.

Lemma first_candidate_spec (norm : gmap str str) cset c :
  first_candidate norm cset = Some c ->
  exists cand, cand ∈ cset /\ norm !! _norm_key cand = Some c.
Proof.
  induction cset as [|cand cset IH]; [done|]. simpl.
  destruct (norm !! _norm_key cand) as [c0|] eqn:Hn.
  - intros [= <-]. exists cand. split; [apply list_elem_of_here|done].
  - intros (cand' & Hin & Hl)%IH. exists cand'.
    split; [by apply list_elem_of_further|done].
Qed.

Lemma resolved_spec cols cset c :
  resolved cols cset = Some c ->
  exists cand l1 l2,
    cand ∈ cset /\ _norm_key c = _norm_key cand /\ cols = l1 ++ c :: l2
    /\ forall c', c' ∈ l2 -> _norm_key c' <> _norm_key c.
Proof.
  unfold resolved.
  destruct (first_candidate (norm_dict cols) cset) as [c0|] eqn:Hf; [|done].
  destruct (truthy c0); [|done]. intros [= <-].
  apply first_candidate_spec in Hf as (cand & Hin & Hl).
  apply norm_dict_last in Hl as (l1 & l2 & -> & Hk & Hl2).
  exists cand, l1, l2. split; [done|]. split; [done|]. split; [done|]. by rewrite Hk.
Qed.

Lemma resolved_in cols cset c : resolved cols cset = Some c -> c ∈ cols.
Proof.
  intros (_ & l1 & l2 & _ & _ & -> & _)%resolved_spec.
  apply elem_of_app. right. apply list_elem_of_here.
Qed.

Lemma odds_columns_spec cols c :
  c ∈ odds_columns cols ->
  exists cset, cset ∈ [FIRST_ODDS; LAST_ODDS; ANY_ODDS] /\ resolved cols cset = Some c.
Proof.
  unfold odds_columns. intros (cset & Hin & Hr)%list_elem_of_omap. eauto.
Qed.

(** ** [replicate_from_template] *)

Lemma blank_odds_frame base cset :
  blank_odds base cset
  = Frame (columns base)
      (map (blank_row (option_list (resolved (columns base) cset))) (records base)).
Proof.
  unfold blank_odds, find_col.
  pose proof (resolved_in (columns base) cset) as Hin. revert Hin.
  unfold resolved.
  destruct (first_candidate (norm_dict (columns base)) cset) as [col|].
  - destruct (truthy col).
    + intros Hin. unfold set_scalar.
      by rewrite (bool_decide_true (col ∈ columns base)) by (by apply Hin).
    + intros _. destruct base. simpl. by rewrite map_id.
  - intros _. destruct base. simpl. by rewrite map_id.
Qed.

Lemma foldl_blank_odds csets :
  forall base,
    foldl blank_odds base csets
    = Frame (columns base)
        (map (blank_row (omap (resolved (columns base)) csets)) (records base)).
Proof.
  induction csets as [|cset csets IH]; intros base; cbn [foldl].
  - destruct base. simpl. by rewrite map_id.
  - rewrite IH, blank_odds_frame. cbn [columns records]. f_equal.
    rewrite map_map. apply map_ext. intros r. unfold blank_row.
    destruct (resolved (columns base) cset) eqn:Hr; simpl; by rewrite Hr.
Qed.

Lemma replicate_from_template_unfold template sels outcols sn so :
  replicate_from_template template sels outcols sn so
  = let base := base_frame template sels sn so in
    select (Frame (columns base)
              (map (blank_row (odds_columns (columns base))) (records base)))
      outcols.
Proof. unfold replicate_from_template. by rewrite foldl_blank_odds. Qed.

Lemma set_column_columns df col vals c :
  c ∈ columns (set_column df col vals) <-> c ∈ columns df \/ c = col.
Proof.
  unfold set_column. cbn [columns].
  destruct (decide (col ∈ columns df)) as [Hin|Hin].
  - rewrite (bool_decide_true _ Hin). split; [by left|]. by intros [?| ->].
  - rewrite (bool_decide_false _ Hin), elem_of_app, list_elem_of_singleton. done.
Qed.

Lemma base_frame_length template sels sn so :
  length (records (base_frame template sels sn so)) = length sels.
Proof.
  unfold base_frame, set_column, DataFrame. cbn [records].
  rewrite !length_zip_with, length_replicate, !length_map. lia.
Qed.

Lemma base_frame_columns_in template sels sn so c :
  sels <> [] ->
  c ∈ columns (base_frame template sels sn so)
  <-> c ∈ map fst template \/ c = sn \/ c = so.
Proof.
  intros Hne. unfold base_frame. rewrite !set_column_columns.
  destruct sels as [|sel sels]; [done|]. cbn [length replicate DataFrame columns].
  rewrite to_dict_keys. tauto.
Qed.

Lemma base_frame_columns template sels sn so :
  NoDup (map fst template) -> sn ∈ map fst template -> so ∈ map fst template ->
  sels <> [] ->
  columns (base_frame template sels sn so) = map fst template.
Proof.
  intros Hnd Hsn Hso Hne. unfold base_frame. rewrite to_dict_NoDup by done.
  destruct sels as [|sel sels]; [done|]. cbn [length replicate DataFrame].
  unfold set_column. cbn [columns].
  rewrite (bool_decide_true (sn ∈ map fst template)) by done.
  by rewrite (bool_decide_true (so ∈ map fst template)) by done.
Qed.

Lemma base_frame_record template sels sn so i sel :
  sels !! i = Some sel ->
  records (base_frame template sels sn so) !! i
  = Some (dict_set (dict_set (to_dict template) sn (SelectionName sel))
            so (SelectionOdds sel)).
Proof.
  intros Hi. unfold base_frame, set_column, DataFrame. cbn [records].
  rewrite !lookup_zip_with, !list_lookup_fmap, Hi.
  rewrite lookup_replicate_2 by (by apply lookup_lt_Some in Hi). done.
Qed.

Lemma select_ok df cols :
  (forall c, c ∈ cols -> c ∈ columns df) ->
  select df cols
  = Ok (Frame cols (map (fun r => map (fun c => (c, cell r c)) cols) (records df))).
Proof.
  intros Hin. unfold select.
  rewrite (proj2 (forallb_forall _ cols)); [done|].
  intros c Hc%list_elem_of_In. by apply bool_decide_eq_true_2, Hin.
Qed.

(** C3, as the code has it.  The Template Index holds, under every
    non-empty normalized market name (whitespace runs collapsed to one
    space, trimmed, lowercased), the first row of the table in table
    order whose market name normalizes to it, and nothing else: it has no
    entry for the empty string, so a row whose market name is blank is
    not stored.  A lookup normalizes the name it is given to the same
    key, and two names that differ only in case or in whitespace look up
    the same entry. *)
Theorem template_index boss col :
  let tmap := build_template_map boss col in
  (forall k, tmap !! k = if truthy k then first_row (records boss) col k else None)
  /\ (forall name, tpl_by_name tmap name = tmap !! _norm_space name)
  /\ (forall a b, same_name a b -> tpl_by_name tmap a = tpl_by_name tmap b).
Proof.
  intros tmap. split; [|split].
  - intros k. apply build_template_map_lookup.
  - intros name. unfold tpl_by_name. by rewrite lookup_key_norm_space.
  - intros a b Hab. unfold tpl_by_name, same_name in *.
    by rewrite !lookup_key_words, Hab.
Qed.

(** C4, as the code has it.  For a template row with distinct column
    names, selection columns and output columns taken from it, and at
    least one selection: the replicator returns a frame whose columns are
    exactly the output columns in the given order, and whose row for the
    [i]-th selection has, in each output column, the empty string when
    the column is one of those resolved for first, last or any odds,
    else the selection's odds in the odds column and its name in the name
    column, else the template's value.  A resolved column is a column of
    the template, the last one whose normalized name is that of a
    candidate; any other column keeps the template's value even when its
    normalized name is that of a candidate too. *)
Theorem replicate_cells template sels outcols sn so :
  NoDup (map fst template) ->
  sn ∈ map fst template -> so ∈ map fst template ->
  (forall c, c ∈ outcols -> c ∈ map fst template) ->
  sels <> [] ->
  exists out,
    replicate_from_template template sels outcols sn so = Ok out
    /\ columns out = outcols
    /\ (forall i sel, sels !! i = Some sel ->
          exists rec,
            records out !! i = Some rec /\ map fst rec = outcols
            /\ forall c, c ∈ outcols ->
                 dict_get rec c
                 = Some (if bool_decide (c ∈ odds_columns (map fst template)) then []
                         else if bool_decide (so = c) then SelectionOdds sel
                         else if bool_decide (sn = c) then SelectionName sel
                         else cell template c))
    /\ (forall c, c ∈ odds_columns (map fst template) ->
          exists cset cand l1 l2,
            cset ∈ [FIRST_ODDS; LAST_ODDS; ANY_ODDS] /\ cand ∈ cset
            /\ _norm_key c = _norm_key cand
            /\ map fst template = l1 ++ c :: l2
            /\ forall c', c' ∈ l2 -> _norm_key c' <> _norm_key c).
Proof.
  intros Hnd Hsn Hso Hout Hne.
  rewrite replicate_from_template_unfold. cbv zeta.
  rewrite base_frame_columns by done.
  eexists. split; [apply select_ok; cbn [columns]; exact Hout|].
  cbn [columns records]. split; [done|]. split.
  - intros i sel Hi. eexists. split; [|split].
    + rewrite !list_lookup_fmap, (base_frame_record _ _ _ _ _ _ Hi). reflexivity.
    + apply map_fst_tabulate.
    + intros c Hc.
      rewrite (dict_get_tabulate
                 (cell (blank_row (odds_columns (map fst template))
                          (dict_set (dict_set (to_dict template) sn (SelectionName sel))
                             so (SelectionOdds sel)))) outcols c Hc).
      f_equal. unfold cell, blank_row.
      rewrite dict_get_blank, !dict_get_set, to_dict_NoDup by done.
      destruct (bool_decide (c ∈ odds_columns (map fst template))); [done|].
      destruct (bool_decide (so = c)); [done|].
      by destruct (bool_decide (sn = c)).
  - intros c (cset & Hcset & Hr)%odds_columns_spec.
    apply resolved_spec in Hr as (cand & l1 & l2 & Hcand & Hk & Hcols & Hlast).
    eauto 10.
Qed.

(** C5, as the code has it.  With at least one selection, and output
    columns among the template's columns and the two selection columns,
    the replicator returns one row per selection.  With no selection the
    frame it builds has no column but the two selection columns, so
    [base[outcols]] returns zero rows only when the output columns are
    among these two and raises [KeyError] otherwise; the export calls the
    replicator only with a non-empty selection list. *)
Theorem replicate_row_count template outcols sn so :
  (forall sels,
     sels <> [] ->
     (forall c, c ∈ outcols -> c ∈ map fst template \/ c = sn \/ c = so) ->
     exists out,
       replicate_from_template template sels outcols sn so = Ok out
       /\ length (records out) = length sels)
  /\ replicate_from_template template [] outcols sn so
     = if forallb (fun c => bool_decide (c = sn \/ c = so)) outcols
       then Ok (Frame outcols []) else Raise KeyError.
Proof.
  split.
  - intros sels Hne Hout. rewrite replicate_from_template_unfold. cbv zeta.
    eexists. split.
    + apply select_ok. cbn [columns]. intros c Hc.
      apply base_frame_columns_in; auto.
    + cbn [records]. by rewrite !length_map, base_frame_length.
  - rewrite replicate_from_template_unfold. cbv zeta.
    unfold select. cbn [columns records base_frame length replicate DataFrame map
                          set_column zip_with].
    rewrite (forallb_pointwise _ (fun c => bool_decide (c = sn \/ c = so))); [done|].
    intros c. apply bool_decide_ext.
    rewrite (bool_decide_false (sn ∈ [])) by (by intros ?%elem_of_nil). cbn [app].
    destruct (decide (so ∈ [sn])) as [Hin|Hin].
    + rewrite (bool_decide_true _ Hin). apply list_elem_of_singleton in Hin as ->.
      rewrite list_elem_of_singleton. tauto.
    + rewrite (bool_decide_false _ Hin). cbn [app].
      rewrite !elem_of_cons, elem_of_nil. tauto.
Qed.

End BossFacts.

(** ** The Boss helpers on concrete tables *)

Lemma template_index_witness :
  tpl_by_name (build_template_map sample_boss (u "MarketName"))
    (u "Top Bowler -  India  - 1st Innings")
  = tpl_by_name (build_template_map sample_boss (u "MarketName"))
      (u "top bowler - india - 1st innings").
Proof.
  apply (proj2 (proj2 (template_index sample_boss (u "MarketName")))).
  vm_compute. reflexivity.
Defined.

(** C3 as stated fails: the first row of [blank_market_boss] has a blank
    market name, which normalizes to the empty string, and the index has
    no entry under it. *)
Lemma blank_market_counterexample :
  boss_row "100" "" ∈ records blank_market_boss
  /\ build_template_map blank_market_boss (u "MarketName")
       !! _norm_space (cell (boss_row "100" "") (u "MarketName")) = None
  /\ ~ (forall r, r ∈ records blank_market_boss ->
          is_Some (build_template_map blank_market_boss (u "MarketName")
                     !! _norm_space (cell r (u "MarketName")))).
Proof.
  assert (build_template_map blank_market_boss (u "MarketName")
            !! _norm_space (cell (boss_row "100" "") (u "MarketName")) = None) as Hnone
    by (vm_compute; reflexivity).
  split; [apply list_elem_of_here|]. split; [exact Hnone|].
  intros Hall. specialize (Hall _ (list_elem_of_here _ _)).
  rewrite Hnone in Hall. by destruct Hall.
Qed.

Lemma replicate_cells_witness :
  exists out,
    replicate_from_template potm_template potm_selections boss_columns
      (u "SelectionName") (u "SelectionOdds") = Ok out
    /\ columns out = boss_columns.
Proof.
  destruct (replicate_cells potm_template potm_selections boss_columns
              (u "SelectionName") (u "SelectionOdds")) as (out & Hout & Hcols & _).
  - apply (bool_decide_unpack _). vm_compute. exact I.
  - apply (bool_decide_unpack _). vm_compute. exact I.
  - apply (bool_decide_unpack _). vm_compute. exact I.
  - intros c Hc. exact Hc.
  - discriminate.
  - exists out. split; [exact Hout|exact Hcols].
Defined.

(** C4 as stated fails: of the two columns [FirstOdds] and [firstodds]
    only the later one is resolved and blanked; [FirstOdds], a name of
    the candidate list itself, keeps the template's value. *)
Lemma two_first_odds_counterexample :
  replicate_from_template two_first_odds_template
    [Selection PLAYER_OF_THE_MATCH [] (u "Virat Kohli") (u "2.5")]
    two_first_odds_columns (u "SelectionName") (u "SelectionOdds")
  = Ok (Frame two_first_odds_columns
          [mkrow [("MarketName", "Player of the Match");
                  ("SelectionName", "Virat Kohli"); ("SelectionOdds", "2.5");
                  ("FirstOdds", "7"); ("firstodds", "")]%string])
  /\ u "FirstOdds" ∈ FIRST_ODDS
  /\ ~ (forall out rec c,
          replicate_from_template two_first_odds_template
            [Selection PLAYER_OF_THE_MATCH [] (u "Virat Kohli") (u "2.5")]
            two_first_odds_columns (u "SelectionName") (u "SelectionOdds") = Ok out ->
          rec ∈ records out -> c ∈ FIRST_ODDS ++ LAST_ODDS ++ ANY_ODDS ->
          c ∈ columns out -> dict_get rec c = Some []).
Proof.
  assert (replicate_from_template two_first_odds_template
            [Selection PLAYER_OF_THE_MATCH [] (u "Virat Kohli") (u "2.5")]
            two_first_odds_columns (u "SelectionName") (u "SelectionOdds")
          = Ok (Frame two_first_odds_columns
                  [mkrow [("MarketName", "Player of the Match");
                          ("SelectionName", "Virat Kohli"); ("SelectionOdds", "2.5");
                          ("FirstOdds", "7"); ("firstodds", "")]%string])) as Hout
    by (vm_compute; reflexivity).
  split; [exact Hout|]. split; [apply list_elem_of_here|].
  intros Hall.
  specialize (Hall _ _ (u "FirstOdds") Hout (list_elem_of_here _ _)).
  cbn [columns] in Hall.
  assert (dict_get
            (mkrow [("MarketName", "Player of the Match");
                    ("SelectionName", "Virat Kohli"); ("SelectionOdds", "2.5");
                    ("FirstOdds", "7"); ("firstodds", "")]%string) (u "FirstOdds")
          = Some []) as Hcell.
  { apply Hall; apply (bool_decide_unpack _); vm_compute; exact I. }
  vm_compute in Hcell. discriminate.
Qed.

Lemma replicate_row_count_witness :
  exists out,
    replicate_from_template potm_template potm_selections boss_columns
      (u "SelectionName") (u "SelectionOdds") = Ok out
    /\ length (records out) = 2%nat.
Proof.
  apply (proj1 (replicate_row_count potm_template boss_columns
                  (u "SelectionName") (u "SelectionOdds")) potm_selections).
  - discriminate.
  - intros c Hc. left. exact Hc.
Defined.

(** C5 as stated fails: with no selection the replicator raises
    [KeyError] for the columns of a Boss table. *)
Lemma no_selection_counterexample :
  replicate_from_template potm_template [] boss_columns
    (u "SelectionName") (u "SelectionOdds") = Raise KeyError
  /\ ~ (exists out,
          replicate_from_template potm_template [] boss_columns
            (u "SelectionName") (u "SelectionOdds") = Ok out
          /\ length (records out) = 0%nat).
Proof.
  assert (replicate_from_template potm_template [] boss_columns
            (u "SelectionName") (u "SelectionOdds") = Raise KeyError) as Hraise
    by (vm_compute; reflexivity).
  split; [exact Hraise|]. intros (out & Hout & _). congruence.
Qed.

(** * Properties of the two actions *)

Section ActionFacts.
Context `{UnicodeDB}.

Lemma parse_click_error boss_file text state state' msg :
  parse_click boss_file text state = (state', st_error msg) -> state' = state.
Proof.
  unfold parse_click. destruct boss_file as [boss|]; [|by intros [= <-]].
  destruct (frame_empty boss); [by intros [= <-]|].
  destruct (negb (otruthy (find_col boss MARKET_NAME_COLS))
            || negb (otruthy (find_col boss SELECTION_NAME_COLS))
            || negb (otruthy (find_col boss SELECTION_ODDS_COLS)));
    [by intros [= <-]|].
  destruct (parse_unibet text); [by intros [= <-]|discriminate].
Qed.

Lemma parse_click_missing_column boss text state :
  find_col boss MARKET_NAME_COLS = None \/ find_col boss SELECTION_NAME_COLS = None
  \/ find_col boss SELECTION_ODDS_COLS = None ->
  exists msg, parse_click (Some boss) text state = (state, st_error msg).
Proof.
  intros Hmiss. unfold parse_click.
  destruct (frame_empty boss); [by eexists|].
  destruct Hmiss as [-> | [-> | ->]]; simpl; rewrite ?orb_true_r; by eexists.
Qed.

Lemma parse_click_nothing_parsed boss text state :
  parse_unibet text = [] ->
  exists msg, parse_click (Some boss) text state = (state, st_error msg).
Proof.
  intros Hp. unfold parse_click. rewrite Hp.
  destruct (frame_empty boss); [by eexists|].
  destruct (negb (otruthy (find_col boss MARKET_NAME_COLS))
            || negb (otruthy (find_col boss SELECTION_NAME_COLS))
            || negb (otruthy (find_col boss SELECTION_ODDS_COLS))); by eexists.
Qed.

Lemma export_click_unparsed state :
  boss state = None \/ parsed state = None ->
  export_click state = Ok (export_error MSG_PARSE_FIRST).
Proof.
  unfold export_click. intros [-> | ->]; [done|]. by destruct (boss state).
Qed.

(** Parse actions that all end in an error leave the state where it was. *)
Lemma failed_parses_keep_state (inputs : list (option frame * str)) state :
  Forall (fun inp => forall st, exists msg, (parse_click inp.1 inp.2 st).2 = st_error msg)
    inputs ->
  foldl (fun st inp => (parse_click inp.1 inp.2 st).1) state inputs = state.
Proof.
  induction 1 as [|[boss_file text] inputs Herr _ IH]; cbn [foldl]; [done|].
  destruct (Herr state) as [msg Hmsg]. cbn [fst snd] in *.
  destruct (parse_click boss_file text state) as [state' m] eqn:Hp.
  cbn [fst snd] in *. subst m.
  apply parse_click_error in Hp as ->. exact IH.
Qed.

(** C8. A Parse with no upload, with a table that lacks one of the three
    columns, or with a text that parses to nothing reports an error and
    returns the session state it was given; indeed every Parse that
    reports an error does.  An Export in a state where [boss] or
    [parsed] is unset, such as the initial state or the state after any
    number of failed Parses, reports "Click Parse first." and builds no
    frame. *)
Theorem precondition_failures :
  (forall text state, parse_click None text state = (state, st_error MSG_NO_UPLOAD))
  /\ (forall boss text state,
        find_col boss MARKET_NAME_COLS = None
        \/ find_col boss SELECTION_NAME_COLS = None
        \/ find_col boss SELECTION_ODDS_COLS = None ->
        exists msg, parse_click (Some boss) text state = (state, st_error msg))
  /\ (forall boss text state,
        parse_unibet text = [] ->
        exists msg, parse_click (Some boss) text state = (state, st_error msg))
  /\ (forall boss_file text state state' msg,
        parse_click boss_file text state = (state', st_error msg) -> state' = state)
  /\ (forall state,
        boss state = None \/ parsed state = None ->
        export_click state = Ok (export_error MSG_PARSE_FIRST))
  /\ (forall inputs : list (option frame * str),
        Forall (fun inp => forall st, exists msg,
                    (parse_click inp.1 inp.2 st).2 = st_error msg) inputs ->
        export_click (foldl (fun st inp => (parse_click inp.1 inp.2 st).1) STATE0 inputs)
        = Ok (export_error MSG_PARSE_FIRST)).
Proof.
  split; [done|]. split; [apply parse_click_missing_column|].
  split; [apply parse_click_nothing_parsed|]. split; [apply parse_click_error|].
  split; [apply export_click_unparsed|].
  intros inputs Herr. rewrite failed_parses_keep_state by done.
  apply export_click_unparsed. by left.
Qed.

(** The truth value of a template row that was found. *)
Lemma series_or_found r b : series_or (Some r) b = Raise ValueError.
Proof. reflexivity. Qed.

(** The Top Bowler row is looked up with [is None]: the first form that
    resolves is used. *)
Lemma top_bowler_first_form (tmap : gmap str row) team r :
  tpl_by_name tmap (team ++ u " Top Bowler") = Some r ->
  match tpl_by_name tmap (team ++ u " Top Bowler") with
  | Some t => Some t
  | None => tpl_by_name tmap (u "Top Bowler - " ++ team ++ u " - 1st Innings")
  end = Some r.
Proof. by intros ->. Qed.

(** The Top Batter row is looked up with [or]: when the first form
    resolves, the body of the loop ends in an exception. *)
Lemma team_body_batter_first_form (parsed : list selection) (tmap : gmap str row)
    outcols sn so team r acc :
  truthy team = true ->
  tpl_by_name tmap (team ++ u " Top Batter") = Some r ->
  exists e, team_body parsed tmap outcols sn so team acc = Raise e.
Proof.
  intros Ht Hr. unfold team_body. rewrite Ht, Hr. cbn [negb].
  destruct (pass _ _ _ _ _ _ acc) as [acc'|e]; [|by exists e].
  by exists ValueError.
Qed.

(** ** The export as a list of passes *)

Lemma team_body_passes (parsed : list selection) (tmap : gmap str row)
    outcols sn so team acc :
  truthy team = true ->
  tpl_by_name tmap (team ++ u " Top Batter") = None ->
  team_body parsed tmap outcols sn so team acc
  = run_passes outcols sn so (team_passes parsed tmap team) acc.
Proof.
  intros Ht Hnone. unfold team_body, team_passes. rewrite Ht, Hnone.
  cbn [negb run_passes fst snd series_or].
  destruct (pass _ _ _ _ _ _ acc) as [acc'|e]; [|done]. simpl.
  by destruct (pass _ _ _ _ _ _ acc').
Qed.

Lemma run_passes_app outcols sn so (ps1 ps2 : list export_pass) acc :
  run_passes outcols sn so (ps1 ++ ps2) acc
  = acc' ← run_passes outcols sn so ps1 acc; run_passes outcols sn so ps2 acc'.
Proof.
  revert acc. induction ps1 as [|p ps1 IH]; intros acc; [done|].
  cbn [app run_passes].
  destruct (pass _ _ _ _ _ _ acc) as [acc'|e]; [|done]. apply IH.
Qed.

(** When no team's first-form Top Batter name is in the index, the loop
    over the teams is the list of their passes, teams without a name
    left out. *)
Lemma team_loop_passes (parsed : list selection) (tmap : gmap str row)
    outcols sn so teams :
  (forall team, team ∈ teams -> truthy team = true ->
     tpl_by_name tmap (team ++ u " Top Batter") = None) ->
  forall acc,
    team_loop parsed tmap outcols sn so teams acc
    = run_passes outcols sn so
        (flat_map (team_passes parsed tmap) (List.filter truthy teams)) acc.
Proof.
  induction teams as [|team teams IH]; intros Hnone acc; [done|].
  cbn [team_loop List.filter].
  assert (forall team', team' ∈ teams -> truthy team' = true ->
            tpl_by_name tmap (team' ++ u " Top Batter") = None) as Hrest
    by (intros team' Hin; apply Hnone; by apply list_elem_of_further).
  destruct (truthy team) eqn:Ht.
  - cbn [flat_map]. rewrite run_passes_app.
    rewrite team_body_passes;
      [|done|apply Hnone; [apply list_elem_of_here|done]].
    destruct (run_passes _ _ _ (team_passes _ _ _) acc) as [acc'|e]; [|done].
    by apply IH.
  - unfold team_body at 1. rewrite Ht. by apply IH.
Qed.

Lemma pass_note (p : export_pass) outcols sn so acc :
  pass_succeeds p = false ->
  pass p.1.1 p.1.2 p.2 outcols sn so acc = Ok (acc.1, acc.2 ++ [p.2]).
Proof.
  destruct p as [[[t|] [|s sel]] note]; unfold pass_succeeds, pass; cbn [fst snd]; done.
Qed.

Lemma pass_chunk (p : export_pass) outcols sn so acc :
  pass_succeeds p = true ->
  exists t, p.1.1 = Some t /\ p.1.2 <> []
    /\ pass p.1.1 p.1.2 p.2 outcols sn so acc
       = chunk ← replicate_from_template t p.1.2 outcols sn so;
         Ok (acc.1 ++ [chunk], acc.2).
Proof.
  destruct p as [[[t|] [|s sel]] note]; unfold pass_succeeds, pass; cbn [fst snd];
    try done.
  intros _. by exists t.
Qed.

(** The passes run in order: each one with a template row and a selection
    adds its chunk, each other one its note. *)
Lemma run_passes_result outcols sn so (passes : list export_pass) :
  Forall (fun p => forall t, p.1.1 = Some t -> p.1.2 <> [] ->
            exists out, replicate_from_template t p.1.2 outcols sn so = Ok out) passes ->
  forall acc,
    exists chunks,
      run_passes outcols sn so passes acc
      = Ok (acc.1 ++ chunks,
            acc.2 ++ map snd (List.filter (fun p => negb (pass_succeeds p)) passes))
      /\ Forall2 (fun p chunk =>
                    exists t, p.1.1 = Some t
                              /\ replicate_from_template t p.1.2 outcols sn so = Ok chunk)
           (List.filter pass_succeeds passes) chunks.
Proof.
  induction 1 as [|p passes Hp _ IH]; intros acc.
  - exists []. cbn [run_passes List.filter map].
    by rewrite !app_nil_r, <- surjective_pairing.
  - cbn [run_passes List.filter]. destruct (pass_succeeds p) eqn:Hs; cbn [negb].
    + destruct (pass_chunk p outcols sn so acc Hs) as (t & Ht & Hsel & ->).
      destruct (Hp t Ht Hsel) as [out Hout]. rewrite Hout.
      destruct (IH (acc.1 ++ [out], acc.2)) as (chunks & Hrun & Hchunks).
      exists (out :: chunks). split.
      * change (run_passes outcols sn so passes (acc.1 ++ [out], acc.2)
                = Ok (acc.1 ++ out :: chunks,
                      acc.2 ++ map snd (List.filter (fun p => negb (pass_succeeds p)) passes))).
        rewrite Hrun. cbn [fst snd]. by rewrite <- app_assoc.
      * constructor; [by exists t|done].
    + rewrite pass_note by done.
      destruct (IH (acc.1, acc.2 ++ [p.2])) as (chunks & Hrun & Hchunks).
      exists chunks. split; [|done].
      change (run_passes outcols sn so passes (acc.1, acc.2 ++ [p.2])
              = Ok (acc.1 ++ chunks,
                    acc.2 ++ map snd (p :: List.filter (fun p => negb (pass_succeeds p)) passes))).
      rewrite Hrun. cbn [fst snd map]. by rewrite <- app_assoc.
Qed.

(** The output of a completed export, for a session a Parse has written:
    the concatenation of the chunks of the passes that have a template
    row and a selection, in the order Player of the Match, then team by
    team Top Bowler and Top Batter, with the notes of the other passes.
    The condition on the index is that no derived team has a row under
    its first-form Top Batter name. *)
Lemma export_passes_in_order (table : frame) (rows : list selection)
    (index : gmap str row) (cols : list str) (sn so : str) (mc : option str) :
  (forall team, team ∈ detect_teams rows -> truthy team = true ->
     tpl_by_name index (team ++ u " Top Batter") = None) ->
  (forall k t sels, index !! k = Some t -> sels <> [] ->
     exists out, replicate_from_template t sels cols sn so = Ok out) ->
  let passes := export_passes rows index in
  exists chunks,
    export_click (State (Some table) (Some rows) (Some index) (Some cols)
                    (Some sn) (Some so) mc)
    = Ok (export_end chunks
            (map snd (List.filter (fun p => negb (pass_succeeds p)) passes)))
    /\ Forall2 (fun p chunk =>
                  exists t, p.1.1 = Some t
                            /\ replicate_from_template t p.1.2 cols sn so = Ok chunk)
         (List.filter pass_succeeds passes) chunks.
Proof.
  intros Hnone Hrep passes.
  assert (Forall (fun p : export_pass => forall t, p.1.1 = Some t -> p.1.2 <> [] ->
            exists out, replicate_from_template t p.1.2 cols sn so = Ok out) passes)
    as Hall.
  { apply Forall_forall. intros [[tpl sel] note] Hin t Ht Hsel. cbn [fst snd] in *.
    subst tpl. unfold passes, export_passes in Hin.
    assert (exists k, index !! k = Some t) as [k Hk]; [|by eapply Hrep].
    apply elem_of_cons in Hin as [Hin|Hin].
    - unfold potm_pass in Hin. injection Hin as Ht _ _. unfold tpl_by_name in Ht. eauto.
    - apply list_elem_of_In, in_flat_map in Hin as (team & _ & Hin).
      apply list_elem_of_In in Hin. unfold team_passes in Hin.
      apply elem_of_cons in Hin as [Hin|Hin].
      + injection Hin as Ht _ _. unfold tpl_by_name in Ht.
        destruct (index !! sub_ws (lower (strip (team ++ u " Top Bowler")))) eqn:Hf;
          [injection Ht as ->|]; eauto.
      + apply list_elem_of_singleton in Hin. injection Hin as Ht _ _.
        unfold tpl_by_name in Ht. eauto. }
  destruct (run_passes_result cols sn so passes Hall ([], [])) as (chunks & Hrun & Hch).
  exists chunks. split; [|done].
  unfold export_click. cbn [boss parsed tmap outcols sel_name_col sel_odds_col].
  unfold passes, export_passes in Hrun. cbn [run_passes] in Hrun.
  unfold potm_pass in Hrun. cbn [fst snd] in Hrun.
  destruct (pass _ _ _ _ _ _ ([], [])) as [acc|e]; [|done].
  unfold mbind, res_bind in *. rewrite team_loop_passes by done.
  by rewrite Hrun.
Qed.

Lemma otruthy_Some o : otruthy o = true -> exists s, o = Some s.
Proof. destruct o as [s|]; [by exists s|done]. Qed.

(** What a successful Parse writes. *)
Lemma parse_click_success table text st state msg :
  parse_click (Some table) text st = (state, st_success msg) ->
  exists mc sn so,
    find_col table MARKET_NAME_COLS = Some mc
    /\ find_col table SELECTION_NAME_COLS = Some sn
    /\ find_col table SELECTION_ODDS_COLS = Some so
    /\ parse_unibet text <> []
    /\ state = State (Some table) (Some (parse_unibet text))
                 (Some (build_template_map table mc)) (Some (columns table))
                 (Some sn) (Some so) (Some mc).
Proof.
  unfold parse_click. destruct (frame_empty table); [done|].
  destruct (negb (otruthy (find_col table MARKET_NAME_COLS))
            || negb (otruthy (find_col table SELECTION_NAME_COLS))
            || negb (otruthy (find_col table SELECTION_ODDS_COLS))) eqn:Hcols; [done|].
  apply orb_false_elim in Hcols as [Hcols Hso].
  apply orb_false_elim in Hcols as [Hmc Hsn].
  apply negb_false_iff, otruthy_Some in Hmc as [mc ->].
  apply negb_false_iff, otruthy_Some in Hsn as [sn ->].
  apply negb_false_iff, otruthy_Some in Hso as [so ->].
  destruct (parse_unibet text) as [|r rows] eqn:Hp; [done|]. intros [= <- _].
  exists mc, sn, so. done.
Qed.

(** Every row of the index of a well-formed table can be replicated over
    the table's columns. *)
Lemma index_rows_replicate table mc sn so k t sels :
  frame_wf table ->
  build_template_map table mc !! k = Some t -> sels <> [] ->
  exists out, replicate_from_template t sels (columns table) sn so = Ok out.
Proof.
  intros [_ Hrows] Hk Hsels. rewrite build_template_map_lookup in Hk.
  destruct (truthy k); [|done]. unfold first_row in Hk.
  apply find_some in Hk as [Hin%list_elem_of_In _].
  rewrite Forall_forall in Hrows. specialize (Hrows t Hin).
  rewrite replicate_from_template_unfold. cbv zeta. eexists.
  apply select_ok. cbn [columns]. intros c Hc.
  apply base_frame_columns_in; [done|]. left. by rewrite Hrows.
Qed.

(** After a successful Parse of a well-formed table, and unless a derived
    team has a row under its first-form Top Batter name, Export ends with
    the chunks of the successful passes in order and the notes of the
    others. *)
Lemma export_after_parse table text st state msg :
  frame_wf table ->
  parse_click (Some table) text st = (state, st_success msg) ->
  exists index sn so,
    tmap state = Some index /\ sel_name_col state = Some sn
    /\ sel_odds_col state = Some so
    /\ ((forall team, team ∈ detect_teams (parse_unibet text) -> truthy team = true ->
           tpl_by_name index (team ++ u " Top Batter") = None) ->
        let passes := export_passes (parse_unibet text) index in
        exists chunks,
          export_click state
          = Ok (export_end chunks
                  (map snd (List.filter (fun p => negb (pass_succeeds p)) passes)))
          /\ Forall2 (fun p chunk =>
                        exists t, p.1.1 = Some t
                                  /\ replicate_from_template t p.1.2 (columns table) sn so
                                     = Ok chunk)
               (List.filter pass_succeeds passes) chunks).
Proof.
  intros Hwf (mc & sn & so & _ & _ & _ & _ & ->)%parse_click_success.
  exists (build_template_map table mc), sn, so. repeat split.
  intros Hnone. apply export_passes_in_order; [done|].
  intros k t sels. by apply index_rows_replicate.
Qed.

End ActionFacts.

(** ** The actions on concrete sessions *)

Lemma precondition_failures_witness :
  exists msg,
    parse_click (Some sample_boss) (u "Home" ++ nl ++ u "In-Play") STATE0
    = (STATE0, st_error msg).
Proof.
  apply (proj1 (proj2 (proj2 precondition_failures))). vm_compute. reflexivity.
Defined.

(** C7 on the code: with a template row named "India Top Batter" and a
    Top Batter selection of India, the lookup of the first form resolves
    and Export ends in the [ValueError] of [tpl_by_name(...) or ...]
    instead of using the row. *)
Theorem top_batter_first_form_raises :
  let state := (parse_click (Some batter_boss) batter_text STATE0).1 in
  parsed state = Some [Selection TOP_BATTER (u "India") (u "Rohit Sharma") (u "4.5")]
  /\ (tmap state ≫= fun m => tpl_by_name m (u "India Top Batter"))
     = Some (boss_row "105" "India Top Batter")
  /\ export_click state = Raise ValueError.
Proof. vm_compute. repeat split; reflexivity. Qed.

(** C6 on the code: the Player of the Match pass and the Top Bowler pass
    of India both have a template row and selections, and Export ends in
    the same [ValueError] at the Top Batter pass, with no output; with
    the "India Top Batter" row taken out of the table the same text is
    exported, the three passes in order. *)
Theorem successful_passes_lost :
  export_click (parse_click (Some both_forms_boss) match_text STATE0).1
  = Raise ValueError
  /\ export_click (parse_click (Some sample_boss) match_text STATE0).1
     = Ok (export_built
             (Frame boss_columns
                [mkrow [("MarketID", "101"); ("MarketName", "Player of the Match");
                        ("SelectionName", "Virat Kohli"); ("SelectionOdds", "2.5");
                        ("FirstOdds", "")]%string;
                 mkrow [("MarketID", "101"); ("MarketName", "Player of the Match");
                        ("SelectionName", "Joe Root"); ("SelectionOdds", "3.0");
                        ("FirstOdds", "")]%string;
                 mkrow [("MarketID", "102"); ("MarketName", "India Top Bowler");
                        ("SelectionName", "Jasprit Bumrah"); ("SelectionOdds", "3.5");
                        ("FirstOdds", "")]%string;
                 mkrow [("MarketID", "104"); ("MarketName", "Top Batter - India - 1st Innings");
                        ("SelectionName", "Rohit Sharma"); ("SelectionOdds", "4.5");
                        ("FirstOdds", "")]%string])
             [note_bowler NO_TEAM; note_batter NO_TEAM]).
Proof. split; vm_compute; reflexivity. Qed.

(** * Further properties: [_lines] *)

Lemma lstrip_idem s : lstrip (lstrip s) = lstrip s.
Proof.
  induction s as [|a s IH]; [done|]. simpl.
  destruct (isspace a) eqn:Ha; [done|]. simpl. by rewrite Ha.
Qed.

Lemma rstrip_idem s : rstrip (rstrip s) = rstrip s.
Proof. unfold rstrip. by rewrite rev_involutive, lstrip_idem. Qed.

Lemma lstrip_rstrip_fixed x : lstrip x = x -> lstrip (rstrip x) = rstrip x.
Proof.
  destruct x as [|a x]; [done|]. simpl.
  destruct (isspace a) eqn:Ha.
  - intros Hx. exfalso.
    assert (length (lstrip x) <= length x)%nat as Hlen.
    { clear. induction x as [|b x IH]; simpl; [lia|].
      destruct (isspace b); simpl; lia. }
    rewrite Hx in Hlen. simpl in Hlen. lia.
  - intros _. rewrite rstrip_cons, Ha.
    destruct (rstrip x); simpl; by rewrite Ha.
Qed.

Lemma strip_idem s : strip (strip s) = strip s.
Proof.
  unfold strip.
  rewrite (lstrip_rstrip_fixed (lstrip s)) by apply lstrip_idem.
  apply rstrip_idem.
Qed.

Lemma lstrip_subseteq s c : c ∈ lstrip s -> c ∈ s.
Proof.
  induction s as [|a s IH]; [done|]. simpl.
  destruct (isspace a); [|done]. intros Hc. right. by apply IH.
Qed.

Lemma strip_subseteq s c : c ∈ strip s -> c ∈ s.
Proof.
  unfold strip, rstrip. intros Hc.
  apply list_elem_of_In, in_rev, list_elem_of_In, lstrip_subseteq in Hc.
  apply list_elem_of_In, in_rev, list_elem_of_In in Hc.
  by apply lstrip_subseteq.
Qed.

Lemma replace_cr_no_cr s : 13 ∉ replace_cr s.
Proof.
  unfold replace_cr. intros (c & Hc & _)%list_elem_of_fmap.
  destruct (N.eqb_spec c 13); [done|]. congruence.
Qed.

Lemma split_nl_pieces s :
  forall cur p c, p ∈ split_nl cur s -> c ∈ p -> (c ∈ cur \/ c ∈ s) /\ (10 ∉ cur -> c <> 10).
Proof.
  induction s as [|a s IH]; intros cur p c; simpl.
  - intros ->%list_elem_of_singleton Hc.
    apply list_elem_of_In, in_rev, list_elem_of_In in Hc.
    split; [by left|]. intros Hcur ->. done.
  - destruct (N.eqb_spec a 10) as [->|Ha].
    + intros [->|Hp]%elem_of_cons Hc.
      * apply list_elem_of_In, in_rev, list_elem_of_In in Hc.
        split; [by left|]. intros Hcur ->. done.
      * destruct (IH [] p c Hp Hc) as [[?%elem_of_nil|Hin] Hne]; [done|].
        split; [right; by right|]. intros _. apply Hne. apply not_elem_of_nil.
    + intros Hp Hc. destruct (IH (a :: cur) p c Hp Hc) as [Hin Hne]. split.
      * destruct Hin as [[->|?]%elem_of_cons|?]; [right; left|by left|right; by right].
      * intros Hcur. apply Hne. intros [?|?]%elem_of_cons; [congruence|done].
Qed.

Lemma split_nl_sep cur s : split_nl cur (10 :: s) = rev cur :: split_nl [] s.
Proof. reflexivity. Qed.

Lemma split_nl_other cur c s :
  c <> 10 -> split_nl cur (c :: s) = split_nl (c :: cur) s.
Proof. intros Hc. simpl. by rewrite (proj2 (N.eqb_neq c 10)). Qed.

Lemma split_any_sep cur c s :
  c = 10 \/ c = 13 -> split_any cur (c :: s) = rev cur :: split_any [] s.
Proof. by intros [-> | ->]. Qed.

Lemma split_any_other cur c s :
  c <> 10 -> c <> 13 -> split_any cur (c :: s) = split_any (c :: cur) s.
Proof.
  intros H10 H13. simpl.
  by rewrite (proj2 (N.eqb_neq c 10)), (proj2 (N.eqb_neq c 13)).
Qed.

Lemma replace_cr_cons c s :
  replace_cr (c :: s) = (if c =? 13 then 10 else c) :: replace_cr s.
Proof. reflexivity. Qed.

Lemma replace_crlf_other c d s :
  (c =? 13) && (d =? 10) = false ->
  replace_crlf (c :: d :: s) = c :: replace_crlf (d :: s).
Proof. intros Hcd. cbn [replace_crlf]. by rewrite Hcd. Qed.

Lemma nonblank_cons (x : str) l :
  List.filter nonblank (x :: l)
  = if nonblank x then x :: List.filter nonblank l else List.filter nonblank l.
Proof. reflexivity. Qed.

(** Blank pieces apart, splitting the normalized text at its line feeds
    is splitting the text at every carriage return and line feed. *)
Lemma split_nl_split_any n :
  forall s cur, (length s <= n)%nat ->
    List.filter nonblank (split_nl cur (replace_cr (replace_crlf s)))
    = List.filter nonblank (split_any cur s).
Proof.
  induction n as [|n IH]; intros s cur Hn.
  - destruct s; [done|simpl in Hn; lia].
  - destruct s as [|c [|d s]]; [done| |].
    + change (replace_crlf [c]) with [c]. rewrite replace_cr_cons.
      destruct (N.eqb_spec c 13) as [->|Hc13]; [done|].
      destruct (N.eqb_spec c 10) as [->|Hc10]; [done|].
      by rewrite split_nl_other, split_any_other.
    + destruct ((c =? 13) && (d =? 10)) eqn:Hcd.
      * apply andb_prop in Hcd as [->%N.eqb_eq ->%N.eqb_eq].
        change (replace_crlf (13 :: 10 :: s)) with (10 :: replace_crlf s).
        rewrite replace_cr_cons, split_nl_sep.
        rewrite (split_any_sep cur 13) by (by right).
        rewrite (split_any_sep [] 10) by (by left).
        rewrite !nonblank_cons. change (nonblank (rev [])) with false. cbn iota.
        assert (length s <= n)%nat as Hs by (simpl in Hn; lia).
        destruct (nonblank (rev cur)); [f_equal|]; exact (IH s [] Hs).
      * rewrite replace_crlf_other, replace_cr_cons by done.
        destruct (N.eqb_spec c 13) as [->|Hc13].
        -- rewrite split_nl_sep, (split_any_sep cur 13) by (by right).
           rewrite !nonblank_cons.
           assert (length (d :: s) <= n)%nat as Hs by (simpl in *; lia).
           destruct (nonblank (rev cur)); [f_equal|]; exact (IH (d :: s) [] Hs).
        -- destruct (N.eqb_spec c 10) as [->|Hc10].
           ++ rewrite split_nl_sep, (split_any_sep cur 10) by (by left).
              rewrite !nonblank_cons.
              assert (length (d :: s) <= n)%nat as Hs by (simpl in *; lia).
           destruct (nonblank (rev cur)); [f_equal|]; exact (IH (d :: s) [] Hs).
           ++ rewrite split_nl_other, split_any_other by done.
              apply IH. simpl in *. lia.
Qed.

Lemma lines_split_any text :
  _lines text = map strip (List.filter nonblank (split_any [] text)).
Proof.
  unfold _lines. change (fun ln => truthy (strip ln)) with nonblank.
  by rewrite (split_nl_split_any (length text)).
Qed.

Lemma split_any_app a :
  forall cur c b, (c =? 10) || (c =? 13) = true ->
    split_any cur (a ++ c :: b) = split_any cur a ++ split_any [] b.
Proof.
  induction a as [|x a IH]; intros cur c b Hc; simpl.
  - by rewrite Hc.
  - destruct ((x =? 10) || (x =? 13)); simpl; by rewrite IH.
Qed.

Lemma lines_stripped text l : l ∈ _lines text -> strip l = l /\ l <> [].
Proof.
  unfold _lines. intros (p & -> & Hp)%list_elem_of_fmap.
  apply list_elem_of_In, filter_In in Hp as [_ Hnb].
  split; [apply strip_idem | by destruct (strip p)].
Qed.

Lemma lines_app a b : _lines (a ++ 10 :: b) = _lines a ++ _lines b.
Proof.
  rewrite !lines_split_any, (split_any_app a [] 10 b) by done.
  by rewrite List.filter_app, map_app.
Qed.

(** X1. [_lines] does not depend on the line-ending convention: its
    lines are the non-blank pieces between the carriage returns and line
    feeds of the text, trimmed, so that anywhere in a text the endings
    CR LF, CR and LF can replace one another. *)
Theorem lines_any_line_ending :
  (forall text, _lines text = map strip (List.filter nonblank (split_any [] text)))
  /\ (forall a b, _lines (a ++ [13; 10] ++ b) = _lines (a ++ [10] ++ b))
  /\ (forall a b, _lines (a ++ [13] ++ b) = _lines (a ++ [10] ++ b)).
Proof.
  split; [apply lines_split_any|]. split; intros a b; rewrite !lines_split_any.
  - cbn [app]. rewrite (split_any_app a [] 13 (10 :: b)) by done.
    rewrite (split_any_app a [] 10 b) by done.
    rewrite (split_any_sep [] 10 b) by (by left).
    by rewrite !List.filter_app, nonblank_cons.
  - cbn [app]. rewrite (split_any_app a [] 13 b) by done.
    by rewrite (split_any_app a [] 10 b) by done.
Qed.

(** X2. Every line [_lines] returns is non-empty and already trimmed, and
    holds no line feed and no carriage return; an empty text has no
    lines. *)
Theorem lines_clean text :
  Forall (fun l => l <> [] /\ strip l = l /\ (10 ∉ l) /\ (13 ∉ l)) (_lines text)
  /\ _lines [] = [].
Proof.
  split; [|done]. apply Forall_forall. intros l Hl. unfold _lines in Hl.
  apply list_elem_of_fmap in Hl as (p & -> & Hp).
  apply list_elem_of_In, filter_In in Hp as [Hp%list_elem_of_In Hnb].
  split; [by destruct (strip p)|]. split; [apply strip_idem|].
  split; intros Hc%strip_subseteq;
    destruct (split_nl_pieces _ [] p _ Hp Hc) as [[?%elem_of_nil|Hin] Hne]; try done.
  - by apply Hne; [apply not_elem_of_nil|].
  - by apply replace_cr_no_cr in Hin.
Qed.

(** * Further properties: the scanner *)

Section ScanMore.
Context `{UnicodeDB}.

Lemma pairs_in_le lines rows :
  forall lo hi, pairs_in lines lo hi rows -> (lo <= hi)%nat.
Proof.
  induction rows as [|r rows IH]; intros lo hi; simpl; [done|].
  intros (k & Hk & _ & Hrest). apply IH in Hrest. lia.
Qed.

Lemma pairs_in_weaken lines rows :
  forall lo lo' hi hi',
    (lo' <= lo)%nat -> (hi <= hi')%nat ->
    pairs_in lines lo hi rows -> pairs_in lines lo' hi' rows.
Proof.
  induction rows as [|r rows IH]; intros lo lo' hi hi' Hlo Hhi; simpl; [lia|].
  intros (k & Hk & Hr & Hrest). exists k. split; [lia|]. split; [done|].
  by apply (IH (S (S k)) (S (S k)) hi hi').
Qed.

Lemma pairs_in_app lines rows1 :
  forall rows2 lo mid hi,
    pairs_in lines lo mid rows1 -> pairs_in lines mid hi rows2 ->
    pairs_in lines lo hi (rows1 ++ rows2).
Proof.
  induction rows1 as [|r rows1 IH]; intros rows2 lo mid hi; simpl.
  - intros Hlo Hrows. by apply (pairs_in_weaken _ _ mid lo hi hi).
  - intros (k & Hk & Hr & Hrest) Hrows. exists k. split; [done|]. split; [done|].
    by apply (IH rows2 _ mid).
Qed.

Lemma pairs_in_count lines rows :
  forall lo hi, pairs_in lines lo hi rows -> (lo + 2 * length rows <= hi)%nat.
Proof.
  induction rows as [|r rows IH]; intros lo hi; simpl; [lia|].
  intros (k & Hk & _ & Hrest). apply IH in Hrest. lia.
Qed.

Lemma block_loop_pairs_in lines market team lo ls :
  forall j st,
    drop j lines = ls -> block_inv lines lo j st ->
    pairs_in lines lo (block_loop market team ls j st).2
      (block_loop market team ls j st).1.
Proof.
  induction ls as [|l ls IH]; intros j [rows pending] Hdrop Hinv.
  - cbn [block_loop fst snd]. unfold block_inv in Hinv. cbn [fst snd] in Hinv.
    destruct (otruthy pending); [|done].
    destruct Hinv as (k & l & -> & _ & _ & _ & Hrows).
    by apply (pairs_in_weaken _ _ lo lo k (S k)); [lia..|].
  - assert (lines !! j = Some l) as Hj.
    { rewrite <- (Nat.add_0_r j), <- lookup_drop, Hdrop. done. }
    assert (drop (S j) lines = ls) as Hdrop'.
    { replace (S j) with (j + 1)%nat by lia. by rewrite <- drop_drop, Hdrop. }
    cbn [block_loop]. destruct (_is_boundary (strip l)) eqn:Hb.
    + cbn [fst snd]. unfold block_inv in Hinv. cbn [fst snd] in Hinv.
      destruct (otruthy pending); [|done].
      destruct Hinv as (k & l0 & -> & _ & _ & _ & Hrows).
      by apply (pairs_in_weaken _ _ lo lo k (S k)); [lia..|].
    + apply IH; [done|]. unfold block_inv, block_step in *. cbn [fst snd] in *.
      destruct (Re.matches RE_DECIMAL (strip l)) eqn:Hd.
      * destruct (otruthy pending) eqn:Hp; cbn [fst snd otruthy].
        -- destruct Hinv as (k & l0 & -> & Hk & -> & Hname & Hrows).
           apply (pairs_in_app _ _ _ lo k); [done|].
           exists k. split; [lia|]. split; [|simpl; lia].
           exists l0, l. repeat split; try done.
           unfold is_decimal_line. cbn zeta. by rewrite Hb, Hd.
        -- rewrite Hp. by apply (pairs_in_weaken _ _ lo lo j (S j)); [lia..|].
      * cbn [fst snd otruthy]. destruct (truthy (strip l)) eqn:Ht.
        -- exists j, l. repeat split; try done.
           { unfold is_name_line. cbn zeta. by rewrite Hb, Hd, Ht. }
           destruct (otruthy pending); [|done].
           destruct Hinv as (k & l0 & -> & _ & _ & _ & Hrows).
           by apply (pairs_in_weaken _ _ lo lo k (S k)); [lia..|].
        -- destruct (otruthy pending).
           ++ destruct Hinv as (k & l0 & -> & _ & _ & _ & Hrows).
              by apply (pairs_in_weaken _ _ lo lo k (S (S k))); [lia..|].
           ++ by apply (pairs_in_weaken _ _ lo lo j (S j)); [lia..|].
Qed.

Lemma parse_block_pairs_in lines start market team :
  pairs_in lines (S start) (_parse_block lines start market team).2
    (_parse_block lines start market team).1.
Proof.
  unfold _parse_block. apply block_loop_pairs_in; [done|].
  unfold block_inv. simpl. lia.
Qed.

Lemma scan_step_pairs_in lines i s :
  pairs_in lines (S i) (scan_step lines i s).2 (scan_step lines i s).1.
Proof.
  unfold scan_step.
  destruct (Re.matches RE_PLAYER_OF_MATCH s); [apply parse_block_pairs_in|].
  destruct (Re.rmatch RE_TOP_BOWLER_TEAM s); [apply parse_block_pairs_in|].
  destruct (Re.rmatch RE_TOP_RUNSCORER_TEAM s); [apply parse_block_pairs_in|].
  simpl. lia.
Qed.

Lemma scan_pairs_in fuel :
  forall lines i out res,
    scan fuel lines i out = Some res ->
    (i <= length lines)%nat -> pairs_in lines 0 i out ->
    pairs_in lines 0 (length lines) res.
Proof.
  induction fuel as [|fuel IH]; intros lines i out res; cbn [scan].
  - destruct (lines !! i); [done|]. intros [= <-] Hi Hout.
    by apply (pairs_in_weaken _ _ 0 0 i (length lines)); [lia..|].
  - destruct (lines !! i) as [s|] eqn:Hs.
    + pose proof (scan_step_index lines i s Hs) as Hidx.
      pose proof (scan_step_pairs_in lines i s) as Hstep.
      destruct (scan_step lines i s) as [r i']. cbn [fst snd] in *.
      intros Hscan Hi Hout. apply (IH _ _ _ _ Hscan); [lia|].
      apply (pairs_in_app _ _ _ 0 (S i)); [|done].
      by apply (pairs_in_weaken _ _ 0 0 i (S i)); [lia..|].
    + intros [= <-] Hi Hout.
      by apply (pairs_in_weaken _ _ 0 0 i (length lines)); [lia..|].
Qed.

End ScanMore.

Section ScanCompose.
Context `{UnicodeDB}.

Lemma scans_parse lines : scans lines 0 [] (parse_lines lines).
Proof. exists (length lines). apply parse_lines_scan. Qed.

Lemma scans_unique lines i out res1 res2 :
  scans lines i out res1 -> scans lines i out res2 -> res1 = res2.
Proof.
  intros [f1 H1] [f2 H2].
  apply (scan_more_fuel _ _ _ _ f2) in H1. apply (scan_more_fuel _ _ _ _ f1) in H2.
  rewrite (Nat.add_comm f2 f1) in H2. congruence.
Qed.

Lemma scans_end lines i out : lines !! i = None -> scans lines i out out.
Proof. intros Hi. exists 0%nat. cbn [scan]. by rewrite Hi. Qed.

Lemma scans_step lines i s out res :
  lines !! i = Some s ->
  scans lines (scan_step lines i s).2 (out ++ (scan_step lines i s).1) res ->
  scans lines i out res.
Proof.
  intros Hi [fuel Hscan]. exists (S fuel). cbn [scan]. rewrite Hi.
  by destruct (scan_step lines i s).
Qed.

Lemma block_loop_add market team ls n j st :
  block_loop market team ls (n + j) st
  = ((block_loop market team ls j st).1, (n + (block_loop market team ls j st).2)%nat).
Proof.
  induction n as [|n IH]; cbn [Nat.add].
  - by destruct (block_loop market team ls j st).
  - by rewrite block_loop_shift, IH.
Qed.

Lemma parse_block_shift (pre ls : list str) i market team :
  _parse_block (pre ++ ls) (length pre + i) market team
  = ((_parse_block ls i market team).1,
     (length pre + (_parse_block ls i market team).2)%nat).
Proof.
  unfold _parse_block.
  replace (S (length pre + i)) with (length pre + S i)%nat by lia.
  by rewrite drop_app_add, block_loop_add.
Qed.

Lemma scan_step_shift (pre ls : list str) i s :
  scan_step (pre ++ ls) (length pre + i) s
  = ((scan_step ls i s).1, (length pre + (scan_step ls i s).2)%nat).
Proof.
  unfold scan_step.
  destruct (Re.matches RE_PLAYER_OF_MATCH s); [apply parse_block_shift|].
  destruct (Re.rmatch RE_TOP_BOWLER_TEAM s); [apply parse_block_shift|].
  destruct (Re.rmatch RE_TOP_RUNSCORER_TEAM s); [apply parse_block_shift|].
  cbn [fst snd]. f_equal. lia.
Qed.

Lemma scan_shift fuel (pre : list str) :
  forall ls i out,
    scan fuel (pre ++ ls) (length pre + i) out = scan fuel ls i out.
Proof.
  induction fuel as [|fuel IH]; intros ls i out; cbn [scan];
    rewrite lookup_app_r, Nat.add_comm, Nat.add_sub by lia.
  - done.
  - destruct (ls !! i) as [s|]; [|done].
    rewrite (Nat.add_comm i), scan_step_shift.
    destruct (scan_step ls i s) as [r i']. cbn [fst snd]. apply IH.
Qed.

Lemma scan_out fuel :
  forall lines i out acc res,
    scan fuel lines i acc = Some res ->
    scan fuel lines i (out ++ acc) = Some (out ++ res).
Proof.
  induction fuel as [|fuel IH]; intros lines i out acc res; cbn [scan].
  - destruct (lines !! i); [done|]. by intros [= <-].
  - destruct (lines !! i) as [s|]; [|by intros [= <-]].
    destruct (scan_step lines i s) as [r i']. intros Hscan.
    rewrite <- app_assoc. by apply IH.
Qed.

Lemma scans_out lines i out res :
  scans lines i [] res -> scans lines i out (out ++ res).
Proof.
  intros [fuel Hscan]. exists fuel.
  rewrite <- (app_nil_r out) at 1. by apply scan_out.
Qed.

Lemma scans_shift (pre ls : list str) i out res :
  scans ls i out res -> scans (pre ++ ls) (length pre + i) out res.
Proof. intros [fuel Hscan]. exists fuel. by rewrite scan_shift. Qed.

Lemma scan_step_other lines i s :
  _is_heading s = false -> scan_step lines i s = ([], S i).
Proof.
  unfold _is_heading, scan_step, Re.matches.
  intros [[Hp Hb]%orb_false_elim Hr]%orb_false_elim.
  rewrite Hp.
  destruct (Re.rmatch RE_TOP_BOWLER_TEAM s); [done|].
  by destruct (Re.rmatch RE_TOP_RUNSCORER_TEAM s).
Qed.

(** Lines that are no heading are passed over one by one. *)
Lemma scans_skip (pre ls : list str) out res :
  Forall (fun l => _is_heading l = false) pre ->
  scans (pre ++ ls) (length pre) out res ->
  forall i, (i <= length pre)%nat -> scans (pre ++ ls) i out res.
Proof.
  intros Hpre Hscan i Hi.
  remember (length pre - i)%nat as n eqn:Hn.
  revert i Hi Hn. induction n as [|n IH]; intros i Hi Hn.
  - by replace i with (length pre) by lia.
  - destruct (lookup_lt_is_Some_2 pre i) as [s Hs]; [lia|].
    apply (scans_step _ _ s); [by rewrite lookup_app_l by lia|].
    rewrite scan_step_other; cbn [fst snd].
    + rewrite app_nil_r. apply IH; lia.
    + rewrite Forall_forall in Hpre. apply Hpre. by eapply list_elem_of_lookup_2.
Qed.

(** A block read in [ls] ends at a boundary line that follows [ls]. *)
Lemma block_loop_boundary market team h (rest : list str) ls :
  _is_boundary (strip h) = true ->
  forall j st,
    block_loop market team (ls ++ h :: rest) j st = block_loop market team ls j st.
Proof.
  intros Hh. induction ls as [|l ls IH]; intros j st; cbn [app block_loop].
  - by rewrite Hh.
  - destruct (_is_boundary (strip l)); [done|]. apply IH.
Qed.

Lemma scan_step_boundary (a : list str) h (rest : list str) i s :
  _is_boundary (strip h) = true -> (i < length a)%nat ->
  scan_step (a ++ h :: rest) i s = scan_step a i s.
Proof.
  intros Hh Hi.
  assert (forall market team,
    _parse_block (a ++ h :: rest) i market team = _parse_block a i market team) as Hblock.
  { intros market team. unfold _parse_block.
    rewrite drop_app_le by lia. by apply block_loop_boundary. }
  unfold scan_step.
  destruct (Re.matches RE_PLAYER_OF_MATCH s); [apply Hblock|].
  destruct (Re.rmatch RE_TOP_BOWLER_TEAM s); [apply Hblock|].
  by destruct (Re.rmatch RE_TOP_RUNSCORER_TEAM s); [apply Hblock|].
Qed.

Lemma scan_compose fuel (a : list str) h (rest : list str) tail :
  _is_boundary (strip h) = true ->
  scans (a ++ h :: rest) (length a) [] tail ->
  forall i out res,
    (i <= length a)%nat ->
    scan fuel a i out = Some res ->
    scans (a ++ h :: rest) i out (res ++ tail).
Proof.
  intros Hh Htail. induction fuel as [|fuel IH]; intros i out res Hi; cbn [scan].
  - destruct (a !! i) eqn:Hai; [done|]. intros [= <-].
    apply lookup_ge_None in Hai. replace i with (length a) by lia.
    by apply scans_out.
  - destruct (a !! i) as [s|] eqn:Hai.
    + pose proof (scan_step_index a i s Hai) as Hidx.
      apply lookup_lt_Some in Hai as Hlt.
      intros Hscan. apply (scans_step _ _ s); [by rewrite lookup_app_l|].
      rewrite scan_step_boundary by done.
      destruct (scan_step a i s) as [r i']. cbn [fst snd] in *.
      apply IH; [lia|done].
    + intros [= <-]. apply lookup_ge_None in Hai.
      replace i with (length a) by lia. by apply scans_out.
Qed.

Lemma parse_lines_prefix (pre ls : list str) :
  Forall (fun l => _is_heading l = false) pre ->
  parse_lines (pre ++ ls) = parse_lines ls.
Proof.
  intros Hpre. apply (scans_unique (pre ++ ls) 0 []); [apply scans_parse|].
  apply (scans_skip pre ls); [done| |lia].
  rewrite <- (Nat.add_0_r (length pre)). apply scans_shift, scans_parse.
Qed.

Lemma parse_lines_no_heading (ls : list str) :
  Forall (fun l => _is_heading l = false) ls -> parse_lines ls = [].
Proof.
  intros Hls. rewrite <- (app_nil_r ls). by rewrite parse_lines_prefix.
Qed.

Lemma parse_lines_boundary (a : list str) h (rest : list str) :
  _is_boundary (strip h) = true ->
  parse_lines (a ++ h :: rest) = parse_lines a ++ parse_lines (h :: rest).
Proof.
  intros Hh. apply (scans_unique (a ++ h :: rest) 0 []); [apply scans_parse|].
  apply (scan_compose (length a) a h rest); [done| |lia|apply parse_lines_scan].
  rewrite <- (Nat.add_0_r (length a)). apply scans_shift, scans_parse.
Qed.

End ScanCompose.

(** ** Further properties of [parse_unibet] *)

Section ScanTheorems.
Context `{UnicodeDB}.

(** X3. Every selection [parse_unibet] returns is read from two adjacent
    lines of the text: a line that is no boundary, no decimal and not
    blank gives the name, and the line right after it, a decimal that is
    no boundary, gives the odds.  The selections come in the order of
    their lines and no line is used by two of them. *)
Theorem selections_adjacent_pairs text :
  pairs_in (_lines text) 0 (length (_lines text)) (parse_unibet text).
Proof.
  unfold parse_unibet.
  apply (scan_pairs_in (length (_lines text)) (_lines text) 0 []);
    [apply parse_lines_scan | lia | simpl; lia].
Qed.

(** X4. [parse_unibet] returns at most half as many selections as the
    text has non-blank lines. *)
Theorem selections_at_most_half text :
  (2 * length (parse_unibet text) <= length (_lines text))%nat.
Proof.
  unfold parse_unibet.
  assert (pairs_in (_lines text) 0 (length (_lines text)) (parse_lines (_lines text)))
    as Hpairs
    by (apply (scan_pairs_in (length (_lines text)) (_lines text) 0 []);
        [apply parse_lines_scan | lia | simpl; lia]).
  apply pairs_in_count in Hpairs. lia.
Qed.

(** X5. Lines before the first heading are ignored: a text none of whose
    lines is a heading gives no selection, and put in front of another
    text it does not change what is parsed from that text. *)
Theorem preamble_ignored a b :
  Forall (fun l => _is_heading l = false) (_lines a) ->
  parse_unibet a = [] /\ parse_unibet (a ++ [10] ++ b) = parse_unibet b.
Proof.
  intros Ha. unfold parse_unibet. split; [by apply parse_lines_no_heading|].
  cbn [app]. rewrite lines_app. by apply parse_lines_prefix.
Qed.

(** X6. Parsing is local to its blocks: when the first non-blank line of
    [b] is a boundary (a heading or a stop phrase), the selections of
    [a], a line feed and [b] are those of [a] followed by those of
    [b]. *)
Theorem parse_splits_at_boundary a b h :
  head (_lines b) = Some h -> _is_boundary h = true ->
  parse_unibet (a ++ [10] ++ b) = parse_unibet a ++ parse_unibet b.
Proof.
  intros Hh Hb. unfold parse_unibet. cbn [app]. rewrite lines_app.
  destruct (_lines b) as [|h' rest] eqn:Hlines; [done|].
  injection Hh as ->. apply parse_lines_boundary.
  assert (h ∈ _lines b) as Hin by (rewrite Hlines; left).
  apply lines_stripped in Hin as [-> _]. done.
Qed.

End ScanTheorems.

Lemma preamble_ignored_witness :
  parse_unibet preamble_text = []
  /\ parse_unibet (preamble_text ++ [10] ++ potm_text) = parse_unibet potm_text.
Proof.
  apply (preamble_ignored preamble_text potm_text).
  assert (_lines preamble_text
          = map u ["Home"; "Cricket"; "India v England"; "1.85"]%string) as ->
    by (vm_compute; reflexivity).
  repeat constructor; vm_compute; reflexivity.
Defined.

Lemma parse_splits_at_boundary_witness :
  parse_unibet (potm_text ++ [10] ++ innings_text)
  = parse_unibet potm_text ++ parse_unibet innings_text.
Proof.
  apply (parse_splits_at_boundary potm_text innings_text
           (u "Top Bowler - India - 1st Innings")); vm_compute; reflexivity.
Defined.

(** * Further properties: [detect_teams] *)

Lemma insert_sorted_elem (x y : str) (l : list str) : x ∈ insert_sorted y l <-> x = y \/ x ∈ l.
Proof.
  induction l as [|z l IH]; simpl.
  - rewrite list_elem_of_singleton. split; [by left|]. by intros [?|?%elem_of_nil].
  - destruct (str_leb y z); rewrite !elem_of_cons; [done|].
    rewrite IH. tauto.
Qed.

Lemma sorted_elem (x : str) (l : list str) : x ∈ sorted l <-> x ∈ l.
Proof.
  induction l as [|y l IH]; [done|]. unfold sorted in *. cbn [foldr].
  by rewrite insert_sorted_elem, elem_of_cons, IH.
Qed.

Lemma insert_sorted_NoDup (y : str) (l : list str) : y ∉ l -> NoDup l -> NoDup (insert_sorted y l).
Proof.
  induction l as [|z l IH]; simpl; intros Hy Hl.
  - apply NoDup_singleton.
  - destruct (str_leb y z); [by apply NoDup_cons|].
    apply NoDup_cons in Hl as [Hz Hl]. apply not_elem_of_cons in Hy as [Hyz Hy].
    apply NoDup_cons. split; [|by apply IH].
    rewrite insert_sorted_elem. by intros [?|?].
Qed.

Lemma sorted_NoDup (l : list str) : NoDup l -> NoDup (sorted l).
Proof.
  induction l as [|y l IH]; [done|]. intros [Hy Hl]%NoDup_cons.
  unfold sorted in *. cbn [foldr]. apply insert_sorted_NoDup; [|by apply IH].
  by rewrite (sorted_elem y l).
Qed.

Lemma unique_from (l : list str) :
  forall acc : list str,
    NoDup acc ->
    NoDup (foldl (fun acc x => if bool_decide (x ∈ acc) then acc else acc ++ [x]) acc l)
    /\ forall x,
        x ∈ foldl (fun acc x => if bool_decide (x ∈ acc) then acc else acc ++ [x]) acc l
        <-> x ∈ acc \/ x ∈ l.
Proof.
  induction l as [|y l IH]; intros acc Hacc; cbn [foldl].
  - split; [done|]. intros x. split; [by left|]. by intros [?|?%elem_of_nil].
  - destruct (decide (y ∈ acc)) as [Hy|Hy].
    + rewrite bool_decide_true by done. destruct (IH acc Hacc) as [Hnd Hin].
      split; [done|]. intros x. rewrite Hin, elem_of_cons.
      split; [tauto|]. intros [?|[->|?]]; tauto.
    + rewrite bool_decide_false by done.
      assert (NoDup (acc ++ [y])) as Hacc'.
      { apply NoDup_app. split; [done|]. split; [|apply NoDup_singleton].
        by intros z Hz ->%list_elem_of_singleton. }
      destruct (IH _ Hacc') as [Hnd Hin].
      split; [done|]. intros x.
      rewrite Hin, elem_of_app, list_elem_of_singleton, elem_of_cons. tauto.
Qed.

Lemma unique_NoDup (l : list str) : NoDup (unique l).
Proof. apply (unique_from l []), NoDup_nil_2. Qed.

Lemma unique_elem (x : str) (l : list str) : x ∈ unique l <-> x ∈ l.
Proof.
  unfold unique. rewrite (proj2 (unique_from l [] (NoDup_nil_2))).
  split; [by intros [?%elem_of_nil|?] | by right].
Qed.

Lemma truthy_nonempty (s : str) : truthy s = true <-> s <> [].
Proof. by destruct s. Qed.

Lemma detect_teams_unfold parsed :
  detect_teams parsed
  = take 2
      (if (length (foldl note_team [] (List.filter per_team parsed)) <? 2)%nat
       then take 2 (sorted (List.filter truthy (unique (map Team parsed)))
                    ++ [NO_TEAM; NO_TEAM])
       else foldl note_team [] (List.filter per_team parsed)).
Proof. reflexivity. Qed.

Lemma note_team_new (order : list str) r :
  Team r <> [] -> Team r ∉ order -> note_team order r = order ++ [Team r].
Proof.
  intros Ht Hin. unfold note_team. cbn zeta.
  rewrite (proj2 (truthy_nonempty _) Ht). by rewrite bool_decide_false.
Qed.

Lemma note_team_old (order : list str) r :
  Team r = [] \/ Team r ∈ order -> note_team order r = order.
Proof.
  unfold note_team. cbn zeta. intros [-> | Hin]; [done|].
  rewrite bool_decide_true by done. by rewrite andb_false_r.
Qed.

Lemma note_team_cases (order : list str) r :
  (Team r <> [] /\ (Team r ∉ order) /\ note_team order r = order ++ [Team r])
  \/ note_team order r = order.
Proof.
  destruct (decide (Team r = [])) as [Ht|Ht]; [right; apply note_team_old; by left|].
  destruct (decide (Team r ∈ order)) as [Hin|Hin];
    [right; apply note_team_old; by right|].
  left. split; [done|]. split; [done|]. by apply note_team_new.
Qed.

Lemma team_order_from (l : list selection) :
  forall order : list str,
    NoDup order ->
    (exists more, foldl note_team order l = order ++ more)
    /\ NoDup (foldl note_team order l)
    /\ forall t, t ∈ foldl note_team order l ->
         t ∈ order \/ (t <> [] /\ exists r, r ∈ l /\ Team r = t).
Proof.
  induction l as [|r l IH]; intros order Hnd; cbn [foldl].
  - split; [exists []; by rewrite app_nil_r|]. split; [done|]. by left.
  - destruct (note_team_cases order r) as [(Ht & Hin & ->) | ->].
    + assert (NoDup (order ++ [Team r])) as Hnd'.
      { apply NoDup_app. split; [done|]. split; [|apply NoDup_singleton].
        by intros z Hz ->%list_elem_of_singleton. }
      destruct (IH _ Hnd') as ((more & Hmore) & Hres & Hel).
      split; [exists (Team r :: more); by rewrite Hmore, <- app_assoc|].
      split; [done|]. intros t Ht'.
      destruct (Hel t Ht') as [Hin'|(Hne & r' & Hr' & Heq)].
      * apply elem_of_app in Hin' as [?| ->%list_elem_of_singleton]; [by left|].
        right. split; [done|]. exists r. split; [left|done].
      * right. split; [done|]. exists r'. split; [by right|done].
    + destruct (IH _ Hnd) as (Hmore & Hres & Hel).
      split; [done|]. split; [done|]. intros t Ht'.
      destruct (Hel t Ht') as [?|(Hne & r' & Hr' & Heq)]; [by left|].
      right. split; [done|]. exists r'. split; [by right|done].
Qed.

Lemma team_order_skip (l : list selection) :
  forall order : list str,
    Forall (fun r => Team r = [] \/ Team r ∈ order) l ->
    foldl note_team order l = order.
Proof.
  induction l as [|r l IH]; intros order Hl; cbn [foldl]; [done|].
  apply Forall_cons in Hl as [Hr Hl]. rewrite note_team_old by done. by apply IH.
Qed.

Lemma detect_teams_truthy parsed :
  Forall (fun t => truthy t = true) (detect_teams parsed)
  /\ length (detect_teams parsed) = 2%nat.
Proof.
  rewrite detect_teams_unfold.
  destruct (team_order_from (List.filter per_team parsed) [] (NoDup_nil_2))
    as (_ & _ & Hel).
  destruct (Nat.ltb_spec (length (foldl note_team [] (List.filter per_team parsed))) 2)
    as [Hlen|Hlen].
  - split.
    + apply Forall_take, Forall_take, Forall_app. split; [|by repeat constructor].
      apply Forall_forall. intros t Ht%sorted_elem%list_elem_of_In%filter_In. tauto.
    + rewrite take_take, length_take, length_app. cbn [length]. lia.
  - split; [|rewrite length_take; lia].
    apply Forall_take, Forall_forall. intros t Ht.
    destruct (Hel t Ht) as [?%elem_of_nil|[Hne _]]; [done|]. by apply truthy_nonempty.
Qed.

(** X7. [detect_teams] always returns two non-empty names, each the
    placeholder dash or the team of a parsed row, and the second one is
    the placeholder whenever the two are equal. *)
Theorem detect_teams_two_names parsed :
  exists t1 t2,
    detect_teams parsed = [t1; t2]
    /\ Forall (fun t => t <> [] /\ (t = NO_TEAM \/ exists r, r ∈ parsed /\ Team r = t))
         [t1; t2]
    /\ (t1 <> t2 \/ t2 = NO_TEAM).
Proof.
  rewrite detect_teams_unfold.
  destruct (team_order_from (List.filter per_team parsed) [] (NoDup_nil_2))
    as (_ & Hnd & Hel).
  set (order := foldl note_team [] (List.filter per_team parsed)) in *.
  destruct (Nat.ltb_spec (length order) 2) as [Hlen|Hlen].
  - clear Hel Hnd Hlen order.
    assert (NoDup (sorted (List.filter truthy (unique (map Team parsed))))) as Huniq.
    { apply sorted_NoDup, NoDup_ListNoDup, List.NoDup_filter, NoDup_ListNoDup,
        unique_NoDup. }
    assert (forall t, t ∈ sorted (List.filter truthy (unique (map Team parsed))) ->
              t <> [] /\ (t = NO_TEAM \/ exists r, r ∈ parsed /\ Team r = t)) as Hin.
    { intros t Ht%sorted_elem%list_elem_of_In%filter_In.
      destruct Ht as [Ht%list_elem_of_In%unique_elem%list_elem_of_fmap Htr].
      destruct Ht as (r & -> & Hr). split; [by apply truthy_nonempty|].
      right. by exists r. }
    assert (NO_TEAM <> [] /\ (NO_TEAM = NO_TEAM
              \/ exists r, r ∈ parsed /\ Team r = NO_TEAM)) as Hno
      by (split; [done | by left]).
    destruct (sorted (List.filter truthy (unique (map Team parsed))))
      as [|x [|y uniq]]; cbn [app take].
    + exists NO_TEAM, NO_TEAM. split; [done|]. split; [|by right].
      by repeat apply Forall_cons_2.
    + exists x, NO_TEAM. split; [done|]. split; [|by right].
      repeat apply Forall_cons_2; [apply Hin; left | done | done].
    + exists x, y. split; [done|]. split.
      * repeat apply Forall_cons_2; [apply Hin; left | apply Hin; right; left | done].
      * left. apply NoDup_cons in Huniq as [Hx _]. intros ->. apply Hx. left.
  - destruct order as [|x [|y order]]; simpl in Hlen; try lia. cbn [take].
    exists x, y. split; [done|].
    assert (forall t, t ∈ x :: y :: order ->
              t <> [] /\ (t = NO_TEAM \/ exists r, r ∈ parsed /\ Team r = t)) as Hin.
    { intros t Ht. destruct (Hel t Ht) as [?%elem_of_nil|(Hne & r & Hr & Heq)]; [done|].
      split; [done|]. right. exists r. split; [|done].
      by apply list_elem_of_In, filter_In in Hr as [?%list_elem_of_In _]. }
    split.
    + repeat apply Forall_cons_2; [apply Hin; left | apply Hin; right; left | done].
    + left. apply NoDup_cons in Hnd as [Hx _]. intros ->. apply Hx. left.
Qed.

Lemma team_filter_skip (p : list selection) (order : list str) :
  Forall (fun r => Market r ∈ [TOP_BOWLER; TOP_BATTER] -> Team r = [] \/ Team r ∈ order) p ->
  Forall (fun r => Team r = [] \/ Team r ∈ order) (List.filter per_team p).
Proof.
  intros Hp. apply Forall_forall. intros r [Hr%list_elem_of_In Hm]%list_elem_of_In%filter_In.
  rewrite Forall_forall in Hp. apply (Hp r Hr). by apply bool_decide_eq_true in Hm.
Qed.

(** X8. When the rows of the per-team markets name two different
    non-empty teams, [detect_teams] returns the first two of them in the
    order in which the rows first name them. *)
Theorem detect_teams_first_two (p1 p2 p3 : list selection) (r1 r2 : selection) :
  Market r1 ∈ [TOP_BOWLER; TOP_BATTER] -> Market r2 ∈ [TOP_BOWLER; TOP_BATTER] ->
  Team r1 <> [] -> Team r2 <> [] -> Team r1 <> Team r2 ->
  Forall (fun r => Market r ∈ [TOP_BOWLER; TOP_BATTER] -> Team r = []) p1 ->
  Forall (fun r => Market r ∈ [TOP_BOWLER; TOP_BATTER] ->
                   Team r = [] \/ Team r = Team r1) p2 ->
  detect_teams (p1 ++ r1 :: p2 ++ r2 :: p3) = [Team r1; Team r2].
Proof.
  intros Hm1 Hm2 Ht1 Ht2 Hne Hp1 Hp2. rewrite detect_teams_unfold.
  assert (exists more,
            foldl note_team [] (List.filter per_team (p1 ++ r1 :: p2 ++ r2 :: p3))
            = [Team r1; Team r2] ++ more) as [more Horder].
  { assert (per_team r1 = true) as Hr1 by (by apply bool_decide_eq_true_2).
    assert (per_team r2 = true) as Hr2 by (by apply bool_decide_eq_true_2).
    rewrite List.filter_app. cbn [List.filter]. rewrite Hr1.
    rewrite List.filter_app. cbn [List.filter]. rewrite Hr2.
    rewrite foldl_app. rewrite (team_order_skip (List.filter per_team p1) []).
    2:{ apply team_filter_skip. eapply Forall_impl; [exact Hp1|].
        intros r Hr Hm. left. by apply Hr. }
    cbn [foldl]. rewrite (note_team_new [] r1) by (done || apply not_elem_of_nil).
    cbn [app]. rewrite foldl_app.
    rewrite (team_order_skip (List.filter per_team p2) [Team r1]).
    2:{ apply team_filter_skip. eapply Forall_impl; [exact Hp2|].
        intros r Hr Hm. destruct (Hr Hm) as [?| ->]; [by left|]. right. left. }
    cbn [foldl]. rewrite (note_team_new [Team r1] r2)
      by (done || by intros ?%list_elem_of_singleton).
    cbn [app].
    assert (NoDup [Team r1; Team r2]) as Hnd.
    { apply NoDup_cons. split; [by intros ?%list_elem_of_singleton|apply NoDup_singleton]. }
    destruct (team_order_from (List.filter per_team p3) [Team r1; Team r2] Hnd)
      as ((more & ->) & _ & _).
    by exists more. }
  rewrite Horder. cbn [app length Nat.ltb Nat.leb take]. done.
Qed.

Lemma detect_teams_first_two_witness :
  detect_teams
    ([Selection PLAYER_OF_THE_MATCH [] (u "Virat Kohli") (u "2.5")]
     ++ Selection TOP_BATTER (u "India") (u "Rohit Sharma") (u "4.5")
     :: [Selection TOP_BOWLER (u "India") (u "Jasprit Bumrah") (u "3.5")]
     ++ Selection TOP_BOWLER (u "England") (u "Jofra Archer") (u "4.0")
     :: [Selection TOP_BATTER (u "Australia") (u "Steve Smith") (u "5.0")])
  = [u "India"; u "England"].
Proof.
  apply (detect_teams_first_two
           [Selection PLAYER_OF_THE_MATCH [] (u "Virat Kohli") (u "2.5")]
           [Selection TOP_BOWLER (u "India") (u "Jasprit Bumrah") (u "3.5")]
           [Selection TOP_BATTER (u "Australia") (u "Steve Smith") (u "5.0")]
           (Selection TOP_BATTER (u "India") (u "Rohit Sharma") (u "4.5"))
           (Selection TOP_BOWLER (u "England") (u "Jofra Archer") (u "4.0"))).
  - right. left.
  - left.
  - vm_compute. discriminate.
  - vm_compute. discriminate.
  - vm_compute. discriminate.
  - apply Forall_cons_2; [|apply Forall_nil_2].
    intros Hm. vm_compute in Hm. apply elem_of_cons in Hm as [Hm|Hm]; [discriminate|].
    apply elem_of_cons in Hm as [Hm|Hm]; [discriminate|]. by apply elem_of_nil in Hm.
  - apply Forall_cons_2; [|apply Forall_nil_2]. intros _. by right.
Defined.

(** * Further properties: the Boss helpers *)

Section BossMore.
Context `{UnicodeDB}.

Lemma norm_dict_None cols k :
  norm_dict cols !! k = None <-> forall c, c ∈ cols -> _norm_key c <> k.
Proof.
  induction cols as [|c0 cols IH] using rev_ind.
  - unfold norm_dict. simpl. rewrite lookup_empty.
    split; [by intros _ c ?%elem_of_nil|done].
  - rewrite norm_dict_snoc. destruct (decide (_norm_key c0 = k)) as [Hk|Hk].
    + rewrite <- Hk, lookup_insert_eq. split; [done|].
      intros Hall. destruct (Hall c0); [|done].
      apply elem_of_app. right. left.
    + rewrite lookup_insert_ne by done. rewrite IH. split.
      * intros Hall c [?| ->%list_elem_of_singleton]%elem_of_app; [by apply Hall|done].
      * intros Hall c Hc. apply Hall, elem_of_app. by left.
Qed.

Lemma first_candidate_split (norm : gmap str str) cands :
  match first_candidate norm cands with
  | Some c =>
      exists pre cand post,
        cands = pre ++ cand :: post
        /\ Forall (fun x => norm !! _norm_key x = None) pre
        /\ norm !! _norm_key cand = Some c
  | None => Forall (fun x => norm !! _norm_key x = None) cands
  end.
Proof.
  induction cands as [|cand cands IH]; cbn [first_candidate]; [done|].
  destruct (norm !! _norm_key cand) as [c|] eqn:Hc.
  - exists [], cand, cands. by rewrite Hc.
  - destruct (first_candidate norm cands) as [c|].
    + destruct IH as (pre & cand' & post & -> & Hpre & Hcand).
      exists (cand :: pre), cand', post. split; [done|]. split; [|done].
      by apply Forall_cons.
    + by apply Forall_cons.
Qed.

(** X9. [find_col] goes by normalized names (lowercased, letters and
    digits only).  It returns the column of the first candidate whose
    normalized name is that of some column, and among the columns with
    that normalized name the last one; it returns [None] exactly when no
    column has the normalized name of a candidate. *)
Theorem find_col_resolves df cands :
  match find_col df cands with
  | Some c =>
      exists pre cand post l1 l2,
        cands = pre ++ cand :: post
        /\ (forall cand' c', cand' ∈ pre -> c' ∈ columns df ->
              _norm_key c' <> _norm_key cand')
        /\ _norm_key c = _norm_key cand
        /\ columns df = l1 ++ c :: l2
        /\ (forall c', c' ∈ l2 -> _norm_key c' <> _norm_key cand)
  | None =>
      forall cand c, cand ∈ cands -> c ∈ columns df -> _norm_key c <> _norm_key cand
  end.
Proof.
  unfold find_col.
  pose proof (first_candidate_split (norm_dict (columns df)) cands) as Hsplit.
  destruct (first_candidate (norm_dict (columns df)) cands) as [c|].
  - destruct Hsplit as (pre & cand & post & -> & Hpre & Hcand).
    apply norm_dict_last in Hcand as (l1 & l2 & Hcols & Hk & Hl2).
    exists pre, cand, post, l1, l2. repeat split; try done.
    intros cand' c' Hin Hc'. rewrite Forall_forall in Hpre.
    by apply (proj1 (norm_dict_None _ _) (Hpre cand' Hin)).
  - intros cand c Hin Hc. rewrite Forall_forall in Hsplit.
    by apply (proj1 (norm_dict_None _ _) (Hsplit cand Hin)).
Qed.

(** ** [replicate_from_template] in general *)

Lemma base_frame_columns_known template sels sn so c :
  c ∈ columns (base_frame template sels sn so) <-> known_column template sels sn so c.
Proof.
  unfold known_column. destruct sels as [|sel sels].
  - unfold base_frame. rewrite !set_column_columns. cbn [length replicate DataFrame columns].
    split; [by intros [[?%elem_of_nil|?]|?]; auto | tauto].
  - by apply base_frame_columns_in.
Qed.

Lemma select_raise df cols :
  match select df cols with
  | Ok out =>
      out = Frame cols (map (fun r => map (fun c => (c, cell r c)) cols) (records df))
      /\ forall c, c ∈ cols -> c ∈ columns df
  | Raise e => e = KeyError /\ exists c, c ∈ cols /\ c ∉ columns df
  end.
Proof.
  unfold select.
  destruct (forallb (fun c => bool_decide (c ∈ columns df)) cols) eqn:Hall.
  - split; [done|]. intros c Hc%list_elem_of_In.
    rewrite forallb_forall in Hall. specialize (Hall c Hc).
    by apply bool_decide_eq_true in Hall.
  - split; [done|].
    apply not_true_iff_false in Hall. rewrite forallb_forall in Hall.
    destruct (decide (Forall (fun c => c ∈ columns df) cols)) as [Hf|Hf].
    + destruct Hall. intros c Hc%list_elem_of_In. rewrite Forall_forall in Hf.
      by apply bool_decide_eq_true_2, Hf.
    + apply not_Forall_Exists in Hf; [|intros c; apply _].
      apply Exists_exists in Hf as (c & Hc & Hnot). by exists c.
Qed.

Lemma replicate_cases template sels outcols sn so :
  match replicate_from_template template sels outcols sn so with
  | Ok out =>
      out = Frame outcols
              (map (fun r => map (fun c => (c, cell r c)) outcols)
                 (map (blank_row (odds_columns (columns (base_frame template sels sn so))))
                    (records (base_frame template sels sn so))))
      /\ forall c, c ∈ outcols -> c ∈ columns (base_frame template sels sn so)
  | Raise e =>
      e = KeyError
      /\ exists c, c ∈ outcols /\ c ∉ columns (base_frame template sels sn so)
  end.
Proof.
  rewrite replicate_from_template_unfold. cbv zeta.
  exact (select_raise
           (Frame (columns (base_frame template sels sn so))
              (map (blank_row (odds_columns (columns (base_frame template sels sn so))))
                 (records (base_frame template sels sn so))))
           outcols).
Qed.

(** What a frame the replicator returns looks like. *)
Lemma replicate_ok template sels outcols sn so out :
  replicate_from_template template sels outcols sn so = Ok out ->
  columns out = outcols
  /\ length (records out) = length sels
  /\ Forall (fun r => map fst r = outcols) (records out).
Proof.
  intros Hout. pose proof (replicate_cases template sels outcols sn so) as Hc.
  rewrite Hout in Hc. destruct Hc as [-> _]. cbn [columns records].
  split; [done|]. split; [by rewrite !length_map, base_frame_length|].
  apply Forall_forall. intros r (r0 & -> & _)%list_elem_of_fmap.
  apply map_fst_tabulate.
Qed.

(** X10. The replicator fails in one way only, the [KeyError] of
    [base[outcols]], and exactly when an output column is none of the
    columns of the frame it built: the template's columns and the two
    selection columns, or with no selection the two selection columns
    alone.  Otherwise it returns a frame with the output columns, one
    row per selection, every row with exactly the output columns. *)
Theorem replicate_shape template sels outcols sn so :
  match replicate_from_template template sels outcols sn so with
  | Ok out =>
      columns out = outcols
      /\ length (records out) = length sels
      /\ Forall (fun r => map fst r = outcols) (records out)
      /\ forall c, c ∈ outcols -> known_column template sels sn so c
  | Raise e =>
      e = KeyError
      /\ exists c, c ∈ outcols /\ ~ known_column template sels sn so c
  end.
Proof.
  pose proof (replicate_cases template sels outcols sn so) as Hc.
  destruct (replicate_from_template template sels outcols sn so) as [out|e] eqn:Hout.
  - destruct (replicate_ok _ _ _ _ _ _ Hout) as (Hcols & Hlen & Hkeys).
    destruct Hc as [_ Hin]. repeat split; try done.
    intros c Hin'. by apply base_frame_columns_known, Hin.
  - destruct Hc as [-> (c & Hin & Hnot)]. split; [done|]. exists c. split; [done|].
    intros Hk. by apply Hnot, base_frame_columns_known.
Qed.

(** ** [unique_markets] *)

Lemma drop_duplicates_from (l : list row) :
  forall acc : list row,
    NoDup acc ->
    let res := foldl (fun acc r => if bool_decide (r ∈ acc) then acc else acc ++ [r])
                 acc l in
    NoDup res
    /\ (forall x, x ∈ res <-> x ∈ acc \/ x ∈ l)
    /\ (length res <= length acc + length l)%nat.
Proof.
  induction l as [|y l IH]; intros acc Hacc; cbn [foldl]; cbn zeta.
  - split; [done|]. split; [|simpl; lia].
    intros x. split; [by left|]. by intros [?|?%elem_of_nil].
  - destruct (decide (y ∈ acc)) as [Hy|Hy].
    + rewrite bool_decide_true by done. destruct (IH acc Hacc) as (Hnd & Hin & Hlen).
      split; [done|]. split; [|simpl; lia]. intros x. rewrite Hin, elem_of_cons.
      split; [tauto|]. intros [?|[->|?]]; tauto.
    + rewrite bool_decide_false by done.
      assert (NoDup (acc ++ [y])) as Hacc'.
      { apply NoDup_app. split; [done|]. split; [|apply NoDup_singleton].
        by intros z Hz ->%list_elem_of_singleton. }
      destruct (IH _ Hacc') as (Hnd & Hin & Hlen).
      split; [done|]. split.
      * intros x. rewrite Hin, elem_of_app, list_elem_of_singleton, elem_of_cons. tauto.
      * rewrite length_app in Hlen. simpl in *. lia.
Qed.

(** X11. [unique_markets] never fails.  It keeps, in the table's order,
    the columns whose normalized name is one of the seven market keys;
    its rows are the rows of the table cut down to these columns, each
    different row once, so no more rows than the table has.  With no
    such column it returns the frame without columns and rows. *)
Theorem unique_markets_rows df :
  exists out,
    unique_markets df = Ok out
    /\ (forall c, c ∈ columns out <-> c ∈ columns df /\ _norm_key c ∈ SUBSET_KEYS)
    /\ columns out `sublist_of` columns df
    /\ NoDup (records out)
    /\ (forall r', r' ∈ records out <->
          columns out <> []
          /\ exists r, r ∈ records df
                       /\ r' = map (fun c => (c, cell r c)) (columns out))
    /\ (length (records out) <= length (records df))%nat.
Proof.
  unfold unique_markets. cbv zeta.
  set (keep := List.filter _ (columns df)).
  assert (forall c, c ∈ keep <-> c ∈ columns df /\ _norm_key c ∈ SUBSET_KEYS) as Hkeep.
  { intros c. unfold keep. rewrite list_elem_of_In, filter_In, <- list_elem_of_In.
    by rewrite bool_decide_eq_true. }
  assert (keep `sublist_of` columns df) as Hsub.
  { unfold keep. generalize (columns df). intros l.
    induction l as [|c l IH]; cbn [List.filter]; [done|].
    destruct (bool_decide _); [by apply sublist_skip | by apply sublist_cons]. }
  destruct keep as [|c0 keep'] eqn:Hk.
  - exists (Frame [] []). cbn [columns records]. split; [done|]. split; [done|].
    split; [done|]. split; [apply NoDup_nil_2|]. split; [|simpl; lia].
    intros r'. split; [by intros ?%elem_of_nil | by intros [? _]].
  - rewrite select_ok by (intros c Hc; by apply Hkeep).
    cbn [mbind res_bind columns records].
    destruct (drop_duplicates_from
      (map (fun r => map (fun c => (c, cell r c)) (c0 :: keep')) (records df))
      [] (NoDup_nil_2)) as (Hnd & Hin & Hlen).
    cbn zeta in *. eexists. split; [reflexivity|]. cbn [columns records].
    split; [done|]. split; [done|]. split; [exact Hnd|]. split.
    + intros r'. unfold drop_duplicates. rewrite Hin, list_elem_of_fmap.
      split.
      * intros [?%elem_of_nil|(r & -> & Hr)]; [done|]. split; [done|]. by exists r.
      * intros (_ & r & Hr & ->). right. by exists r.
    + unfold drop_duplicates. etransitivity; [exact Hlen|].
      rewrite length_map. cbn [length]. lia.
Qed.

End BossMore.

(** * Further properties: the session and the export *)

Section ActionMore.
Context `{UnicodeDB}.

(** A Parse click does the same in every state: it reports an error and
    leaves the state, or writes all seven entries. *)
Lemma parse_click_cases (boss_file : option frame) (text : str) :
  parse_fails (boss_file, text)
  \/ exists table mc sn so msg,
       boss_file = Some table
       /\ find_col table MARKET_NAME_COLS = Some mc
       /\ find_col table SELECTION_NAME_COLS = Some sn
       /\ find_col table SELECTION_ODDS_COLS = Some so
       /\ parse_unibet text <> []
       /\ forall st,
            parse_click boss_file text st
            = (parsed_state table (parse_unibet text) mc sn so, st_success msg).
Proof.
  unfold parse_fails, parse_click. cbn [fst snd].
  destruct boss_file as [table|]; [|left; by eexists].
  destruct (frame_empty table); [left; by eexists|].
  destruct (negb (otruthy (find_col table MARKET_NAME_COLS))
            || negb (otruthy (find_col table SELECTION_NAME_COLS))
            || negb (otruthy (find_col table SELECTION_ODDS_COLS))) eqn:Hcols;
    [left; by eexists|].
  apply orb_false_elim in Hcols as [Hcols Hso].
  apply orb_false_elim in Hcols as [Hmc Hsn].
  apply negb_false_iff, otruthy_Some in Hmc as [mc Hmc].
  apply negb_false_iff, otruthy_Some in Hsn as [sn Hsn].
  apply negb_false_iff, otruthy_Some in Hso as [so Hso].
  rewrite Hmc, Hsn, Hso.
  destruct (parse_unibet text) as [|r rows] eqn:Hp; [left; by eexists|].
  right. exists table, mc, sn, so. eexists. repeat split; try done.
Qed.

(** The exceptions of an export: the [KeyError] of the replicator and the
    [ValueError] of the [or]. *)
Lemma pass_exn tpl sel note cols sn so acc e :
  pass tpl sel note cols sn so acc = Raise e -> e = KeyError.
Proof.
  unfold pass. destruct tpl as [t|]; [|done]. destruct sel as [|r rs]; [done|].
  pose proof (replicate_cases t (r :: rs) cols sn so) as Hc.
  destruct (replicate_from_template t (r :: rs) cols sn so) as [out|e']; [done|].
  destruct Hc as [-> _]. by intros [= <-].
Qed.

Lemma team_body_exn (rows : list selection) (index : gmap str row) cols sn so team acc e :
  team_body rows index cols sn so team acc = Raise e -> e = KeyError \/ e = ValueError.
Proof.
  unfold team_body. destruct (negb (truthy team)); [done|].
  destruct (pass _ _ _ _ _ _ acc) as [acc'|e'] eqn:Hp1; cbn [mbind res_bind].
  - destruct (series_or _ _) as [tpl|e'] eqn:Hor; cbn [mbind res_bind].
    + intros Hp2%pass_exn. by left.
    + intros [= <-]. right. unfold series_or in Hor.
      destruct (tpl_by_name index (team ++ u " Top Batter")); [|done]. by injection Hor.
  - intros [= <-]. left. by apply pass_exn in Hp1.
Qed.

Lemma team_loop_exn (rows : list selection) (index : gmap str row) cols sn so teams :
  forall acc e,
    team_loop rows index cols sn so teams acc = Raise e -> e = KeyError \/ e = ValueError.
Proof.
  induction teams as [|team teams IH]; intros acc e; cbn [team_loop]; [done|].
  destruct (team_body rows index cols sn so team acc) as [acc'|e'] eqn:Hb;
    cbn [mbind res_bind].
  - apply IH.
  - intros [= <-]. by apply team_body_exn in Hb.
Qed.

Lemma export_click_exn table rows mc sn so e :
  export_click (parsed_state table rows mc sn so) = Raise e ->
  e = KeyError \/ e = ValueError.
Proof.
  unfold export_click, parsed_state.
  cbn [boss parsed tmap outcols sel_name_col sel_odds_col].
  destruct (pass _ _ _ _ _ _ ([], [])) as [acc|e'] eqn:Hp; cbn [mbind res_bind].
  - destruct (team_loop _ _ _ _ _ _ acc) as [acc'|e'] eqn:Hl; cbn [mbind res_bind];
      [done|]. intros [= <-]. by apply team_loop_exn in Hl.
  - intros [= <-]. left. by apply pass_exn in Hp.
Qed.

Lemma session_snoc (inputs : list (option frame * str)) inp :
  session (inputs ++ [inp]) = (parse_click inp.1 inp.2 (session inputs)).1.
Proof. unfold session. by rewrite foldl_app. Qed.

(** X12. The session state is written by the last Parse that succeeded:
    after any sequence of Parse clicks it is the initial state when all of
    them failed, and else holds the table, the parsed rows, the index and
    the columns of the last successful one, whatever was clicked before
    or failed after.  So the seven entries are set together, and Export
    never meets a state with [boss] and [parsed] set and another entry
    unset. *)
Theorem session_last_success (inputs : list (option frame * str)) :
  ((Forall parse_fails inputs /\ session inputs = STATE0)
   \/ exists pre table text post mc sn so,
        inputs = pre ++ (Some table, text) :: post
        /\ Forall parse_fails post
        /\ find_col table MARKET_NAME_COLS = Some mc
        /\ find_col table SELECTION_NAME_COLS = Some sn
        /\ find_col table SELECTION_ODDS_COLS = Some so
        /\ parse_unibet text <> []
        /\ session inputs = parsed_state table (parse_unibet text) mc sn so)
  /\ export_click (session inputs) <> Raise AttributeError.
Proof.
  assert ((Forall parse_fails inputs /\ session inputs = STATE0)
   \/ exists pre table text post mc sn so,
        inputs = pre ++ (Some table, text) :: post
        /\ Forall parse_fails post
        /\ find_col table MARKET_NAME_COLS = Some mc
        /\ find_col table SELECTION_NAME_COLS = Some sn
        /\ find_col table SELECTION_ODDS_COLS = Some so
        /\ parse_unibet text <> []
        /\ session inputs = parsed_state table (parse_unibet text) mc sn so) as Hcases.
  { induction inputs as [|[boss_file text] inputs IH] using rev_ind.
    - left. by split.
    - rewrite session_snoc. cbn [fst snd].
      destruct (parse_click_cases boss_file text)
        as [Hfail | (table & mc & sn & so & msg & -> & Hmc & Hsn & Hso & Hrows & Hparse)].
      + pose proof Hfail as [msg Hmsg]. cbn [fst snd] in Hmsg. rewrite Hmsg. cbn [fst].
        destruct IH as [[Hall Hst] | (pre & table & text' & post & mc & sn & so & -> & Hpost
                                      & Hmc & Hsn & Hso & Hrows & Hst)].
        * left. split; [|done]. apply Forall_app. split; [done|]. by apply Forall_singleton.
        * right. exists pre, table, text', (post ++ [(boss_file, text)]), mc, sn, so.
          rewrite <- app_assoc. split; [done|]. split; [|done].
          apply Forall_app. split; [done|]. by apply Forall_singleton.
      + right. exists inputs, table, text, [], mc, sn, so.
        rewrite Hparse. cbn [fst]. repeat split; try done. }
  split; [exact Hcases|].
  destruct Hcases as [[_ ->] | (pre & table & text & post & mc & sn & so & _ & _ & _ & _ & _
                                & _ & ->)]; [done|].
  by intros [[=]|[=]]%export_click_exn.
Qed.

(** ** The outcome of an export *)

Lemma pass_total (index : gmap str row) cols sn so tpl sel note acc :
  (forall k t sels, index !! k = Some t -> sels <> [] ->
     exists out, replicate_from_template t sels cols sn so = Ok out) ->
  (forall t, tpl = Some t -> exists k, index !! k = Some t) ->
  exists acc', pass tpl sel note cols sn so acc = Ok acc'.
Proof.
  intros Hrep Htpl. unfold pass. destruct tpl as [t|]; [|by eexists].
  destruct sel as [|r rs]; [by eexists|].
  destruct (Htpl t eq_refl) as [k Hk].
  destruct (Hrep k t (r :: rs) Hk) as [out ->]; [done|]. by eexists.
Qed.

Lemma top_bowler_from_index (index : gmap str row) team t :
  match tpl_by_name index (team ++ u " Top Bowler") with
  | Some t => Some t
  | None => tpl_by_name index (u "Top Bowler - " ++ team ++ u " - 1st Innings")
  end = Some t ->
  exists k, index !! k = Some t.
Proof.
  unfold tpl_by_name.
  destruct (index !! sub_ws (lower (strip (team ++ u " Top Bowler")))) eqn:Hf.
  - intros [= <-]. eauto.
  - eauto.
Qed.

Lemma team_body_value_error (rows : list selection) (index : gmap str row)
    cols sn so team acc :
  (forall k t sels, index !! k = Some t -> sels <> [] ->
     exists out, replicate_from_template t sels cols sn so = Ok out) ->
  truthy team = true -> first_form_batter index team ->
  team_body rows index cols sn so team acc = Raise ValueError.
Proof.
  intros Hrep Ht [r Hr]. unfold team_body. rewrite Ht. cbn [negb].
  edestruct (pass_total index cols sn so) as [acc' ->];
    [exact Hrep | apply top_bowler_from_index |].
  cbn [mbind res_bind]. by rewrite Hr.
Qed.

Lemma team_body_total (rows : list selection) (index : gmap str row)
    cols sn so team acc :
  (forall k t sels, index !! k = Some t -> sels <> [] ->
     exists out, replicate_from_template t sels cols sn so = Ok out) ->
  ~ first_form_batter index team ->
  exists acc', team_body rows index cols sn so team acc = Ok acc'.
Proof.
  intros Hrep Hnone. unfold team_body.
  destruct (negb (truthy team)); [by eexists|].
  edestruct (pass_total index cols sn so) as [acc' ->];
    [exact Hrep | apply top_bowler_from_index |].
  cbn [mbind res_bind]. unfold first_form_batter in Hnone.
  destruct (tpl_by_name index (team ++ u " Top Batter")) as [r|] eqn:Hr;
    [destruct Hnone; by eexists|].
  cbn [series_or mbind res_bind].
  apply (pass_total index cols sn so); [exact Hrep|].
  unfold tpl_by_name. eauto.
Qed.

Lemma team_loop_value_error (rows : list selection) (index : gmap str row)
    cols sn so teams :
  (forall k t sels, index !! k = Some t -> sels <> [] ->
     exists out, replicate_from_template t sels cols sn so = Ok out) ->
  Forall (fun t => truthy t = true) teams ->
  Exists (first_form_batter index) teams ->
  forall acc, team_loop rows index cols sn so teams acc = Raise ValueError.
Proof.
  intros Hrep Hall. induction Hall as [|team teams Ht _ IH]; intros Hex acc.
  - by apply Exists_nil in Hex.
  - cbn [team_loop].
    destruct (decide (first_form_batter index team)) as [Hfirst|Hfirst].
    + by rewrite team_body_value_error.
    + destruct (team_body_total rows index cols sn so team acc Hrep Hfirst) as [acc' ->].
      cbn [mbind res_bind]. apply IH.
      by apply Exists_cons in Hex as [?|?].
Qed.

Lemma export_click_value_error table rows mc sn so :
  frame_wf table ->
  Exists (first_form_batter (build_template_map table mc)) (detect_teams rows) ->
  export_click (parsed_state table rows mc sn so) = Raise ValueError.
Proof.
  intros Hwf Hex.
  assert (forall k t sels, build_template_map table mc !! k = Some t -> sels <> [] ->
            exists out, replicate_from_template t sels (columns table) sn so = Ok out)
    as Hrep by (intros k t sels; by apply index_rows_replicate).
  unfold export_click, parsed_state.
  cbn [boss parsed tmap outcols sel_name_col sel_odds_col].
  edestruct (pass_total (build_template_map table mc) (columns table) sn so)
    as [acc ->]; [exact Hrep | unfold tpl_by_name; eauto |].
  cbn [mbind res_bind].
  rewrite team_loop_value_error; [done|exact Hrep| |done].
  apply detect_teams_truthy.
Qed.

Lemma export_click_passes table rows mc sn so :
  frame_wf table ->
  ~ Exists (first_form_batter (build_template_map table mc)) (detect_teams rows) ->
  let passes := export_passes rows (build_template_map table mc) in
  exists chunks,
    export_click (parsed_state table rows mc sn so)
    = Ok (export_end chunks
            (map snd (List.filter (fun p => negb (pass_succeeds p)) passes)))
    /\ Forall2 (fun p chunk =>
                  exists t, p.1.1 = Some t
                            /\ replicate_from_template t p.1.2 (columns table) sn so
                               = Ok chunk)
         (List.filter pass_succeeds passes) chunks.
Proof.
  intros Hwf Hnone. apply export_passes_in_order.
  - intros team Hin _.
    destruct (tpl_by_name (build_template_map table mc) (team ++ u " Top Batter"))
      as [r|] eqn:Hr; [|done].
    destruct Hnone. apply Exists_exists. exists team. split; [done|]. by exists r.
  - intros k t sels. by apply index_rows_replicate.
Qed.

(** X13. After a Parse of a well-formed table, Export can fail in one way
    only: with the [ValueError] of [tpl_by_name(...) or ...], and exactly
    when the index has a row under the first-form Top Batter name
    ("<team> Top Batter") of one of the two derived teams.  It raises no
    [KeyError] and no other exception. *)
Theorem export_value_error table rows mc sn so :
  frame_wf table ->
  (export_click (parsed_state table rows mc sn so) = Raise ValueError
   <-> exists team, team ∈ detect_teams rows
                    /\ first_form_batter (build_template_map table mc) team)
  /\ forall e, export_click (parsed_state table rows mc sn so) = Raise e ->
               e = ValueError.
Proof.
  intros Hwf.
  destruct (decide (Exists (first_form_batter (build_template_map table mc))
                      (detect_teams rows))) as [Hex|Hex].
  - rewrite export_click_value_error by done. split; [|by intros e [= <-]].
    split; [|done]. intros _. by apply Exists_exists.
  - destruct (export_click_passes table rows mc sn so Hwf Hex) as (chunks & -> & _).
    split; [|done]. split; [done|]. intros Hteam. destruct Hex.
    by apply Exists_exists.
Qed.

Lemma export_passes_length (rows : list selection) (index : gmap str row) :
  length (export_passes rows index) = 5%nat.
Proof.
  unfold export_passes. destruct (detect_teams_truthy rows) as [Hall Hlen].
  destruct (detect_teams rows) as [|t1 [|t2 [|t3 teams]]]; try done.
  apply Forall_cons in Hall as [Ht1 Hall]. apply Forall_cons in Hall as [Ht2 _].
  cbn [List.filter]. by rewrite Ht1, Ht2.
Qed.

Lemma chunks_shape cols sn so (passes : list export_pass) (chunks : list frame) :
  Forall2 (fun p chunk =>
             exists t, p.1.1 = Some t
                       /\ replicate_from_template t p.1.2 cols sn so = Ok chunk)
    passes chunks ->
  Forall (fun chunk => columns chunk = cols) chunks
  /\ Forall (fun r => map fst r = cols) (concat (map records chunks))
  /\ length (concat (map records chunks))
     = length (flat_map (fun p : export_pass => p.1.2) passes).
Proof.
  induction 1 as [|p chunk passes chunks (t & _ & Hrep) _ IH]; [done|].
  destruct IH as (Hcols & Hkeys & Hlen).
  apply replicate_ok in Hrep as (Hc & Hl & Hk).
  split; [by apply Forall_cons|]. cbn [map concat flat_map].
  split; [by apply Forall_app|]. rewrite !length_app. congruence.
Qed.

Lemma filter_none {A} (f : A -> bool) (l : list A) :
  List.filter f l = [] -> List.filter (fun x => negb (f x)) l = l.
Proof.
  induction l as [|x l IH]; [done|]. cbn [List.filter].
  destruct (f x); [done|]. intros Hl. cbn [negb]. by rewrite IH.
Qed.

(** X14. When an Export after a Parse of a well-formed table returns, it
    has run five passes (Player of the Match, then Top Bowler and Top
    Batter for each of the two derived teams).  A built frame has the
    columns of the uploaded table in their order, every row with exactly
    these columns, one row per selection of the passes that had a
    template row and selections, and one note per other pass; the error
    "No output built." comes with the notes of all five passes. *)
Theorem export_shape table rows mc sn so res :
  frame_wf table ->
  export_click (parsed_state table rows mc sn so) = Ok res ->
  let passes := export_passes rows (build_template_map table mc) in
  length passes = 5%nat
  /\ match res with
     | export_built out_df notes =>
         columns out_df = columns table
         /\ Forall (fun r => map fst r = columns table) (records out_df)
         /\ length (records out_df)
            = length (flat_map (fun p : export_pass => p.1.2)
                        (List.filter pass_succeeds passes))
         /\ notes = map snd (List.filter (fun p => negb (pass_succeeds p)) passes)
     | export_error msg =>
         Forall (fun p => pass_succeeds p = false) passes
         /\ msg = u "No output built. " ++ join (u "; ") (map snd passes)
     end.
Proof.
  intros Hwf Hres. cbv zeta.
  pose proof (export_passes_length rows (build_template_map table mc)) as Hfive.
  split; [exact Hfive|].
  destruct (decide (Exists (first_form_batter (build_template_map table mc))
                      (detect_teams rows))) as [Hex|Hex].
  { by rewrite export_click_value_error in Hres. }
  destruct (export_click_passes table rows mc sn so Hwf Hex) as (chunks & Hrun & Hch).
  cbv zeta in Hrun, Hch.
  remember (export_passes rows (build_template_map table mc)) as passes eqn:Hpasses.
  clear Hpasses. rewrite Hrun in Hres. clear Hrun.
  assert (res = export_end chunks
                  (map snd (List.filter (fun p => negb (pass_succeeds p)) passes)))
    as -> by congruence.
  clear Hres.
  destruct (chunks_shape _ _ _ _ _ Hch) as (Hcols & Hkeys & Hlen).
  destruct chunks as [|chunk chunks]; cbn [export_end].
  - apply Forall2_nil_inv_r in Hch. split.
    + apply Forall_forall. intros p Hp%list_elem_of_In.
      destruct (pass_succeeds p) eqn:Hs; [|done].
      assert (In p (List.filter pass_succeeds passes)) as Hin by (by apply filter_In).
      by rewrite Hch in Hin.
    + rewrite (@filter_none export_pass pass_succeeds passes Hch).
      destruct passes as [|p passes']; [done|].
      reflexivity.
  - unfold pd_concat. cbn [columns records map].
    apply Forall_cons in Hcols as [Hc _]. done.
Qed.

End ActionMore.

(** ** The export on concrete sessions *)

Lemma export_value_error_witness :
  export_click
    (parsed_state both_forms_boss (parse_unibet match_text)
       (u "MarketName") (u "SelectionName") (u "SelectionOdds"))
  = Raise ValueError.
Proof.
  assert (frame_wf both_forms_boss) as Hwf.
  { split; [refine (bool_decide_unpack _ _); vm_compute; exact I|].
    repeat constructor. }
  apply (proj2 (proj1 (export_value_error both_forms_boss (parse_unibet match_text)
                         (u "MarketName") (u "SelectionName") (u "SelectionOdds") Hwf))).
  exists (u "India"). split.
  - vm_compute. left.
  - vm_compute. by eexists.
Defined.

Lemma export_shape_witness :
  length (export_passes (parse_unibet match_text)
            (build_template_map sample_boss (u "MarketName"))) = 5%nat.
Proof.
  assert (frame_wf sample_boss) as Hwf.
  { split; [refine (bool_decide_unpack _ _); vm_compute; exact I|].
    repeat constructor. }
  assert (exists res,
            export_click
              (parsed_state sample_boss (parse_unibet match_text)
                 (u "MarketName") (u "SelectionName") (u "SelectionOdds")) = Ok res)
    as [res Hres] by (vm_compute; by eexists).
  exact (proj1 (export_shape sample_boss (parse_unibet match_text)
                  (u "MarketName") (u "SelectionName") (u "SelectionOdds") res Hwf Hres)).
Defined.

(** * Further properties: the decimal pattern *)

Lemma bt_star_chr p k :
  forall n s cap, (length s <= n)%nat ->
    (fix loop (n : nat) (s : str) (cap : Re.mtch) {struct n} : option Re.mtch :=
       match n with
       | O => k s cap
       | S n' =>
           match Re.bt (Re.Chr p) s cap (fun s' cap' =>
                   if (length s' <? length s)%nat then loop n' s' cap' else None) with
           | Some m => Some m
           | None => k s cap
           end
       end) n s cap
    = star_chr p s cap k.
Proof.
  induction n as [|n IH]; intros s cap Hn.
  - destruct s; [done|simpl in Hn; lia].
  - destruct s as [|c s]; [done|]. cbn [Re.bt star_chr].
    destruct (p c); [|done].
    replace (length s <? length (c :: s))%nat with true
      by (symmetry; apply Nat.ltb_lt; simpl; lia).
    rewrite IH by (simpl in Hn; lia). done.
Qed.

Lemma bt_star (p : char -> bool) s cap k :
  Re.bt (Re.Star (Re.Chr p)) s cap k = star_chr p s cap k.
Proof. cbn [Re.bt]. by apply bt_star_chr. Qed.

Lemma is_Some_alt {A} (a b : option A) :
  is_Some (match a with Some m => Some m | None => b end) <-> is_Some a \/ is_Some b.
Proof.
  destruct a as [m|].
  - split; [by left | by eexists].
  - split; [by right | by intros [[? [=]]|?]].
Qed.

Lemma star_chr_Some p k cap :
  forall s,
    is_Some (star_chr p s cap k)
    <-> exists pre suf, s = pre ++ suf /\ Forall (fun c => p c = true) pre
                        /\ is_Some (k suf cap).
Proof.
  induction s as [|c s IH]; cbn [star_chr].
  - split.
    + intros Hk. by exists [], [].
    + intros (pre & suf & Hs & _ & Hk). symmetry in Hs.
      apply app_eq_nil in Hs as [-> ->]. done.
  - destruct (p c) eqn:Hc.
    + rewrite is_Some_alt, IH. split.
      * intros [(pre & suf & -> & Hpre & Hk) | Hk].
        -- exists (c :: pre), suf. split; [done|]. split; [by apply Forall_cons|done].
        -- by exists [], (c :: s).
      * intros (pre & suf & Hs & Hpre & Hk). destruct pre as [|c' pre].
        -- right. cbn [app] in Hs. by rewrite Hs.
        -- left. injection Hs as <- ->. apply Forall_cons in Hpre as [_ Hpre].
           by exists pre, suf.
    + split.
      * intros Hk. by exists [], (c :: s).
      * intros (pre & suf & Hs & Hpre & Hk).
        destruct pre as [|c' pre]; [cbn [app] in Hs; by rewrite Hs|].
        injection Hs as <- ->. apply Forall_cons in Hpre as [Hc' _]. congruence.
Qed.

Lemma bt_chr_Some (p : char -> bool) s cap k :
  is_Some (Re.bt (Re.Chr p) s cap k)
  <-> exists c s', s = c :: s' /\ p c = true /\ is_Some (k s' cap).
Proof.
  cbn [Re.bt]. destruct s as [|c s].
  - split; [by intros [? [=]] | by intros (? & ? & [=] & _)].
  - destruct (p c) eqn:Hc.
    + split; [intros Hk; by exists c, s | by intros (? & ? & [= <- <-] & _ & Hk)].
    + split; [by intros [? [=]] | intros (? & ? & [= <- <-] & Hc' & _); congruence].
Qed.

Lemma bt_plus_Some (p : char -> bool) s cap k :
  is_Some (Re.bt (Re.plus (Re.Chr p)) s cap k)
  <-> exists ds suf, s = ds ++ suf /\ ds <> [] /\ Forall (fun c => p c = true) ds
                     /\ is_Some (k suf cap).
Proof.
  unfold Re.plus. cbn [Re.bt]. change (Re.bt (Re.Chr p) s cap ?k') with
    (Re.bt (Re.Chr p) s cap k').
  rewrite (bt_chr_Some p s cap (fun s' cap' =>
             (fix loop (n : nat) (s0 : str) (cap0 : Re.mtch) {struct n} :=
                match n with
                | O => k s0 cap0
                | S n' =>
                    match Re.bt (Re.Chr p) s0 cap0 (fun s'' cap'' =>
                            if (length s'' <? length s0)%nat then loop n' s'' cap''
                            else None) with
                    | Some m => Some m
                    | None => k s0 cap0
                    end
                end) (length s') s' cap')).
  split.
  - intros (c & s' & -> & Hc & Hk). rewrite bt_star_chr in Hk by done.
    apply star_chr_Some in Hk as (pre & suf & -> & Hpre & Hk).
    exists (c :: pre), suf. split; [done|]. split; [done|].
    split; [by apply Forall_cons|done].
  - intros (ds & suf & -> & Hne & Hds & Hk). destruct ds as [|c ds]; [done|].
    apply Forall_cons in Hds as [Hc Hds]. exists c, (ds ++ suf).
    split; [done|]. split; [done|]. rewrite bt_star_chr by done.
    apply star_chr_Some. by exists ds, suf.
Qed.

Section DecimalPattern.
Context `{UnicodeDB}.

Lemma decimal_end_Some (s : str) (cap : Re.mtch) :
  is_Some (Re.bt Re.Eos s cap (fun _ cap' => Some cap')) <-> s = [] \/ s = [10].
Proof.
  cbn [Re.bt]. destruct s as [|c [|d s]].
  - split; [by left | by eexists].
  - destruct (N.eq_dec c 10) as [->|Hc].
    + split; [by right | by eexists].
    + assert (forall k : option Re.mtch,
                match c with 10 => k | _ => None end = None) as Hnone.
      { intros k. destruct c as [|p]; [done|].
        do 4 (destruct p as [p|p|]; try done). }
      rewrite Hnone. split; [by intros [? [=]] | intros [[=]|[=]]; congruence].
  - assert (forall k : option Re.mtch,
              match c with 10 => None | _ => None end = @None Re.mtch) as Hnone
      by (intros _; by destruct c as [|[[[[]|[]|]|[[]|[]|]|]|[[[]|[]|]|[[]|[]|]|]|]]).
    split; [|by intros [[=]|[=]]].
    intros [m Hm]. revert Hm. by destruct c as [|[[[[]|[]|]|[[]|[]|]|]|[[[]|[]|]|[[]|[]|]|]|]].
Qed.

Lemma decimal_frac_Some (s : str) (cap : Re.mtch) :
  is_Some (Re.bt (Re.seq [Re.opt (Re.Seq (Re.Chr (N.eqb 46)) Re.digits1); Re.Eos])
             s cap (fun _ cap' => Some cap'))
  <-> exists frac tail,
        s = frac ++ tail
        /\ (frac = [] \/ exists fs, frac = 46 :: fs /\ digits fs)
        /\ (tail = [] \/ tail = [10]).
Proof.
  change (is_Some
            match Re.bt (Re.Chr (N.eqb 46)) s cap (fun s1 c1 =>
                    Re.bt Re.digits1 s1 c1 (fun s2 c2 =>
                      Re.bt Re.Eos s2 c2 (fun _ cap' => Some cap'))) with
            | Some m => Some m
            | None => Re.bt Re.Eos s cap (fun _ cap' => Some cap')
            end
          <-> exists frac tail,
                s = frac ++ tail
                /\ (frac = [] \/ exists fs, frac = 46 :: fs /\ digits fs)
                /\ (tail = [] \/ tail = [10])).
  rewrite is_Some_alt. split.
  - intros [Hfrac | Hend].
    + apply bt_chr_Some in Hfrac as (c & s' & -> & Hc%N.eqb_eq & Hfrac). subst c.
      apply bt_plus_Some in Hfrac as (fs & tail & -> & Hne & Hfs & Hend).
      apply decimal_end_Some in Hend.
      exists (46 :: fs), tail. split; [done|]. split; [|done].
      right. exists fs. by repeat split.
    + apply decimal_end_Some in Hend. exists [], s. split; [done|]. split; [by left|done].
  - intros (frac & tail & -> & [-> | (fs & -> & Hne & Hfs)] & Htail).
    + right. by apply decimal_end_Some.
    + left. apply bt_chr_Some. exists 46, (fs ++ tail). split; [done|]. split; [done|].
      apply bt_plus_Some. exists fs, tail. split; [done|]. split; [done|].
      split; [done|]. by apply decimal_end_Some.
Qed.

Lemma decimal_matches (s : str) :
  Re.matches RE_DECIMAL s = true <-> decimal_text s.
Proof.
  unfold Re.matches, Re.rmatch, RE_DECIMAL, decimal_text.
  assert (forall o : option Re.mtch,
            match o with Some _ => true | None => false end = true <-> is_Some o) as Hsome.
  { intros [m|]; split; try done; try (by eexists); by intros [? [=]]. }
  rewrite Hsome.
  change (Re.bt (Re.seq [Re.digits1;
                         Re.opt (Re.Seq (Re.Chr (N.eqb 46)) Re.digits1); Re.Eos])
            s None (fun _ cap => Some cap))
    with (Re.bt Re.digits1 s None (fun s' cap' =>
            Re.bt (Re.seq [Re.opt (Re.Seq (Re.Chr (N.eqb 46)) Re.digits1); Re.Eos])
              s' cap' (fun _ cap => Some cap))).
  unfold Re.digits1 at 1. rewrite bt_plus_Some. split.
  - intros (ds & suf & -> & Hne & Hds & Hrest).
    apply decimal_frac_Some in Hrest as (frac & tail & -> & Hfrac & Htail).
    exists ds, frac, tail. by repeat split.
  - intros (ds & frac & tail & -> & [Hne Hds] & Hfrac & Htail).
    exists ds, (frac ++ tail). split; [done|]. split; [done|]. split; [done|].
    apply decimal_frac_Some. by exists frac, tail.
Qed.

Lemma lstrip_length s : (length (lstrip s) <= length s)%nat.
Proof.
  induction s as [|c s IH]; [done|]. simpl. destruct (isspace c); simpl; lia.
Qed.

Lemma strip_fixed_no_newline (x : str) : strip (x ++ [10]) <> x ++ [10].
Proof.
  intros Hx.
  assert (rstrip (x ++ [10]) = x ++ [10]) as Hr.
  { rewrite <- Hx at 1. unfold strip. by rewrite rstrip_idem. }
  unfold rstrip in Hr. rewrite rev_app_distr in Hr. cbn [rev app lstrip] in Hr.
  change (isspace 10) with true in Hr. cbn iota in Hr.
  apply (f_equal (@length char)) in Hr.
  rewrite length_rev, length_app in Hr. cbn [length] in Hr.
  pose proof (lstrip_length (rev x)) as Hlen. rewrite length_rev in Hlen. lia.
Qed.

(** X15. [RE_DECIMAL] accepts exactly the strings made of one or more
    decimal digits, optionally followed by a full stop and one or more
    decimal digits, and optionally by one final line feed.  On a trimmed
    string, as every line the scanner tests, there is no line feed: a
    price is digits, or digits, a full stop and digits, and nothing
    else (no sign, no comma, no fraction, no space). *)
Theorem decimal_pattern (s : str) :
  (Re.matches RE_DECIMAL s = true <-> decimal_text s)
  /\ (strip s = s ->
      (Re.matches RE_DECIMAL s = true
       <-> exists ds frac,
             s = ds ++ frac /\ digits ds
             /\ (frac = [] \/ exists fs, frac = 46 :: fs /\ digits fs))).
Proof.
  split; [apply decimal_matches|]. intros Hs. rewrite decimal_matches. split.
  - intros (ds & frac & tail & -> & Hds & Hfrac & [-> | ->]).
    + exists ds, frac. by rewrite app_nil_r.
    + destruct (strip_fixed_no_newline (ds ++ frac)). by rewrite <- !app_assoc.
  - intros (ds & frac & -> & Hds & Hfrac). exists ds, frac, [].
    rewrite app_nil_r. split; [done|]. split; [done|]. split; [done|]. by left.
Qed.

End DecimalPattern.

Lemma decimal_pattern_witness :
  Re.matches RE_DECIMAL (u "2.5") = true
  <-> exists ds frac,
        u "2.5" = ds ++ frac /\ digits ds
        /\ (frac = [] \/ exists fs, frac = 46 :: fs /\ digits fs).
Proof.
  apply (proj2 (decimal_pattern (u "2.5"))). vm_compute. reflexivity.
Defined.
